(** * Claudeplatform: context loading, safe edits, tool loop and cost ledger

    A shallow embedding of
      - [src/lib/github.ts]: the GitHub client (import extraction, the
        import-following loader, [applyStrReplace]),
      - [src/lib/claude.ts]: the Claude client (pricing, the cost tracker,
        [chat]),
      - [src/app/api/chat/route.ts]: the tool loop of the chat route and
        the keyword search for seed files,
      - [src/app/api/github/route.ts]: the branch route, with the branch
        and pull-request methods of the GitHub client,
    and the properties of these functions. The file tree of the repository
    and its rendering are not part of it.

    Conventions.
      - A JavaScript string is a sequence of UTF-16 code units; code units
        are modelled by the 8-bit characters of [string].
      - A JavaScript number that holds a cost is a binary64 float
        ([PrimFloat]); a number that holds a token count is an integer far
        below 2^53, where binary64 addition is exact, and is modelled in [Z].
      - Remote services (the GitHub REST API behind Octokit, the Anthropic
        messages API) are interfaces over an abstract world [W]; a remote
        call either returns or throws, and may change the world.
      - [async] code that awaits one call at a time is sequential state
        passing; the loader, which keeps several fetches in flight, is a
        transition system whose steps are the completions of fetches. *)

From Stdlib Require Import ZArith Lia Bool List Ascii String PrimFloat Uint63.
From Stdlib Require Import Wellfounded.
From stdpp Require Import base decidable option list strings gmap pretty.
Import ListNotations.

Open Scope string_scope.
Open Scope list_scope.

(** * JavaScript string primitives *)

Module JsString.

(** [s.startsWith(pre)] *)
Definition startsWith (pre s : string) : bool := String.prefix pre s.

(** [s.includes(x)]: [x] occurs at some position of [s]. *)
Fixpoint includes (x s : string) : bool :=
  if String.prefix x s then true
  else match s with
       | EmptyString => false
       | String _ s' => includes x s'
       end.

(** [s.indexOf(x)], [None] for -1. *)
Fixpoint indexOf (x s : string) : option nat :=
  if String.prefix x s then Some 0
  else match s with
       | EmptyString => None
       | String _ s' => option_map S (indexOf x s')
       end.

Fixpoint take (n : nat) (s : string) : string :=
  match n, s with
  | S n', String c s' => String c (take n' s')
  | _, _ => EmptyString
  end.

Fixpoint drop (n : nat) (s : string) : string :=
  match n, s with
  | S n', String _ s' => drop n' s'
  | _, _ => s
  end.

(** The code units of a string, each as a one-unit string:
    [s.split('')]. *)
Fixpoint units (s : string) : list string :=
  match s with
  | EmptyString => []
  | String c s' => String c EmptyString :: units s'
  end.

(** Cutting [s] at the occurrences of a non-empty separator, scanning from
    the left; after an occurrence the scan resumes behind it, so the
    occurrences found do not overlap. [skip] counts the code units of the
    occurrence just found that are still to be passed over. The head of the
    result is the piece under construction. *)
Fixpoint split_scan (sep : string) (skip : nat) (s : string) : list string :=
  match s with
  | EmptyString => [EmptyString]
  | String c s' =>
      match skip with
      | S k => split_scan sep k s'
      | O =>
          if String.prefix sep s
          then EmptyString :: split_scan sep (String.length sep - 1) s'
          else match split_scan sep 0 s' with
               | piece :: pieces => String c piece :: pieces
               | [] => [String c EmptyString]
               end
      end
  end.

(** [s.split(sep)] for a string separator: the empty separator cuts
    between all code units (and the empty string into no piece at all). *)
Definition split (sep s : string) : list string :=
  match sep with
  | EmptyString => units s
  | _ => split_scan sep 0 s
  end.

(** [pieces.join(sep)] *)
Fixpoint join (sep : string) (pieces : list string) : string :=
  match pieces with
  | [] => EmptyString
  | [p] => p
  | p :: ps => p +:+ sep +:+ join sep ps
  end.

(** GetSubstitution of ECMAScript for a string pattern (no capture groups):
    in the replacement template, [$$] stands for a dollar sign, [$&] for the
    matched text, [$`] for the text before the match and [$'] for the text
    after it; any other [$] is literal. *)
Fixpoint getSubstitution (matched before after template : string) : string :=
  match template with
  | EmptyString => EmptyString
  | String c rest =>
      if Ascii.eqb c "$" then
        match rest with
        | String d rest' =>
            if Ascii.eqb d "$" then
              String "$" (getSubstitution matched before after rest')
            else if Ascii.eqb d "&" then
              matched +:+ getSubstitution matched before after rest'
            else if Ascii.eqb d "`" then
              before +:+ getSubstitution matched before after rest'
            else if Ascii.eqb d "'" then
              after +:+ getSubstitution matched before after rest'
            else String c (getSubstitution matched before after rest)
        | EmptyString => String c EmptyString
        end
      else String c (getSubstitution matched before after rest)
  end.

(** [s.replace(pat, template)] for a string pattern: the first occurrence
    of [pat] is replaced by the expansion of [template]. *)
Definition replace (pat template s : string) : string :=
  match indexOf pat s with
  | None => s
  | Some i =>
      let before := take i s in
      let after := drop (i + String.length pat) s in
      before +:+ getSubstitution pat before after template +:+ after
  end.

(** [xs.slice(0, -1)]: all but the last element. *)
Definition slice_init {A} (xs : list A) : list A := removelast xs.

(** Decimal rendering of an integer in a template literal. *)
Definition numberToString (z : Z) : string := pretty z.

End JsString.

(** * The two regular expressions of the import extractor

    A matcher for the fragment of JavaScript regular expressions that
    [parseImports] uses: a sequence of character classes, each taken once
    or under a greedy [*] or [+], with one capture group. Alternatives are
    tried in the order of a backtracking matcher: a greedy quantifier first
    takes as many code units as it can and gives them back one by one. *)

Module Regex.

Inductive quant := Once | Star | Plus.

Inductive item :=
| Chr (ok : ascii -> bool) (q : quant)
| Open
| Close.

Definition regex := list item.

(** A match, as the suffixes of the input at which the capture group
    opens, at which it closes, and at which the whole match ends. *)
Definition found : Type := string * string * string.

Fixpoint greedy (ok : ascii -> bool) (k : string -> option found) (s : string)
  : option found :=
  match s with
  | String c s' =>
      if ok c then
        match greedy ok k s' with
        | Some m => Some m
        | None => k s
        end
      else k s
  | EmptyString => k s
  end.

Fixpoint matchHere (r : regex) (o c : string) (s : string) : option found :=
  match r with
  | [] => Some (o, c, s)
  | Open :: r' => matchHere r' s c s
  | Close :: r' => matchHere r' o s s
  | Chr ok Once :: r' =>
      match s with
      | String ch s' => if ok ch then matchHere r' o c s' else None
      | EmptyString => None
      end
  | Chr ok Star :: r' => greedy ok (matchHere r' o c) s
  | Chr ok Plus :: r' =>
      match s with
      | String ch s' => if ok ch then greedy ok (matchHere r' o c) s' else None
      | EmptyString => None
      end
  end.

(** The text of the capture group: [match[1]]. *)
Definition captured (m : found) : string :=
  let '(o, c, _) := m in
  JsString.take (String.length o - String.length c) o.

(** The number of code units of the whole match, from its start [s]. *)
Definition consumed (s : string) (m : found) : nat :=
  let '(_, _, e) := m in String.length s - String.length e.

(** The loop [while ((match = re.exec(s)) !== null)] of a global regular
    expression: the leftmost match at or after [lastIndex], then the next
    one from the end of that match, until none is left. [skip] counts the
    code units of the last match still to be passed over. Returns the
    capture of every match, in order. *)
Fixpoint execAll (r : regex) (skip : nat) (s : string) : list string :=
  match skip, s with
  | S k, String _ s' => execAll r k s'
  | S _, EmptyString => []
  | O, _ =>
      match matchHere r s s s with
      | Some m =>
          captured m ::
            match s with
            | String _ s' => execAll r (consumed s m - 1) s'
            | EmptyString => []
            end
      | None =>
          match s with
          | String _ s' => execAll r 0 s'
          | EmptyString => []
          end
      end
  end.

Definition literal (s : string) : regex :=
  map (fun c => Chr (Ascii.eqb c) Once) (list_ascii_of_string s).

(** [\s] on 8-bit code units: tab, line feed, vertical tab, form feed,
    carriage return, space, no-break space. *)
Definition isSpace (c : ascii) : bool :=
  let n := nat_of_ascii c in
  (Nat.leb 9 n && Nat.leb n 13) || Nat.eqb n 32 || Nat.eqb n 160.

(** [.]: anything but a line terminator. *)
Definition isDot (c : ascii) : bool :=
  let n := nat_of_ascii c in
  negb (Nat.eqb n 10 || Nat.eqb n 13).

(** The class of the two quote characters (single and double quote) and
    its complement. *)
Definition isQuote (c : ascii) : bool :=
  Ascii.eqb c "'" || Ascii.eqb c "034".

Definition notQuote (c : ascii) : bool := negb (isQuote c).

(** The pattern [import\s+.*\s+from\s+Q(N+)Q] with the flag [g], where Q
    is the class of the two quote characters and N its complement. *)
Definition importRegex : regex :=
  literal "import" ++
  [Chr isSpace Plus; Chr isDot Star; Chr isSpace Plus] ++
  literal "from" ++
  [Chr isSpace Plus; Chr isQuote Once; Open; Chr notQuote Plus; Close;
   Chr isQuote Once].

(** The pattern [require\s*\(Q(N+)Q\)] with the flag [g]. *)
Definition requireRegex : regex :=
  literal "require" ++
  [Chr isSpace Star] ++ literal "(" ++
  [Chr isQuote Once; Open; Chr notQuote Plus; Close; Chr isQuote Once] ++
  literal ")".

End Regex.

(** * Import extraction ([GitHubClient.parseImports]) *)

Module Imports.
Import JsString.

(** One turn of the loop of [resolveImportPath] over the path segments:
    [..] pops the last resolved segment (nothing, when there is none),
    [.] and the empty segment are dropped, any other segment is pushed. *)
Definition resolveStep (resolved : list string) (part : string) : list string :=
  if String.eqb part ".." then removelast resolved
  else if negb (String.eqb part ".") && negb (String.eqb part "")
       then resolved ++ [part]
       else resolved.

Definition isRelative (p : string) : bool :=
  startsWith "./" p || startsWith "../" p.

Definition resolveImportPath (importPath currentPath : string) : string :=
  if isRelative importPath then
    let currentDir := join "/" (slice_init (split "/" currentPath)) in
    let parts := split "/" currentDir ++ split "/" importPath in
    let resolved := fold_left resolveStep parts [] in
    join "/" resolved
  else importPath.

(** The references as written in the source text: the captures of the
    import pattern, then those of the require pattern. *)
Definition rawReferences (content : string) : list string :=
  Regex.execAll Regex.importRegex 0 content ++
  Regex.execAll Regex.requireRegex 0 content.

(** The final filter of [parseImports], applied to the resolved paths. *)
Definition keepImport (i : string) : bool :=
  startsWith "./" i || startsWith "../" i || startsWith "/" i.

Definition parseImports (content currentPath : string) : list string :=
  let imports :=
    map (fun raw => resolveImportPath raw currentPath) (rawReferences content) in
  List.filter keepImport imports.

End Imports.

(** * Calls that may throw, over a world *)

Inductive outcome (A : Type) : Type :=
| Return (a : A)
| Throw (message : string).
Arguments Return {A} a.
Arguments Throw {A} message.

(** A computation over a state [S]: it returns or throws (the thrown value
    is kept as its [message]), and leaves a new state. *)
Definition M (S A : Type) : Type := S -> outcome A * S.

Definition ret {S A} (a : A) : M S A := fun s => (Return a, s).

Definition throw {S A} (message : string) : M S A := fun s => (Throw message, s).

Definition bind {S A B} (c : M S A) (k : A -> M S B) : M S B :=
  fun s =>
    match c s with
    | (Return a, s') => k a s'
    | (Throw e, s') => (Throw e, s')
    end.

(** [try { c } catch (error) { handler(error.message) }] *)
Definition tryCatch {S A} (c : M S A) (handler : string -> M S A) : M S A :=
  fun s =>
    match c s with
    | (Return a, s') => (Return a, s')
    | (Throw e, s') => handler e s'
    end.

Declare Scope js_scope.
Delimit Scope js_scope with js.
Notation "x <- c ;; k" := (bind c (fun x => k))
  (at level 100, c at next level, right associativity) : js_scope.
Notation "c ;;; k" := (bind c (fun _ => k))
  (at level 100, right associativity) : js_scope.

(** * The GitHub client ([src/lib/github.ts]) *)

Record RepoFile := {
  path : string;
  content : string;
  sha : string;
}.

(** The [data] of a [repos.getContent] response: a file (its text, which
    the client obtains by decoding the base64 payload, and its blob hash),
    or anything else (the array of a directory listing, a symlink, a
    submodule). *)
Inductive ContentData :=
| FileData (text blob : string)
| NotAFile.

(** The parameters of [repos.createOrUpdateFileContents]; [wr_content] is
    the text before its base64 encoding. *)
Record WriteRequest := {
  wr_path : string;
  wr_message : string;
  wr_content : string;
  wr_branch : string;
  wr_sha : option string;
}.

(** The part of Octokit's REST interface that the client uses, for one
    repository. *)
Class Octokit (W : Type) := {
  repos_getContent : string -> string -> M W ContentData;
  repos_createOrUpdateFileContents : WriteRequest -> M W unit;
  search_code : string -> M W (list string);
}.

(** The result of a tool: [{ success, result?, error? }]. *)
Inductive ResultValue :=
| TextResult (text : string)
| PathsResult (paths : list string).

Record ToolResult := {
  success : bool;
  result : option ResultValue;
  error : option string;
}.

Definition succeeded : ToolResult :=
  {| success := true; result := None; error := None |}.

Definition succeededWith (v : ResultValue) : ToolResult :=
  {| success := true; result := Some v; error := None |}.

Definition failed (message : string) : ToolResult :=
  {| success := false; result := None; error := Some message |}.

Module GitHub.
Import JsString.

Section Client.
Context {W : Type} `{Octokit W}.
Variables (owner repo : string).

Local Open Scope js_scope.

Definition getFileContent (p branch : string) : M W RepoFile :=
  data <- repos_getContent p branch ;;
  match data with
  | FileData text blob => ret {| path := p; content := text; sha := blob |}
  | NotAFile => throw ("Path " +:+ p +:+ " is not a file")
  end.

Definition updateFile (p text message branch : string) (blob : option string)
  : M W unit :=
  repos_createOrUpdateFileContents
    {| wr_path := p; wr_message := message; wr_content := text;
       wr_branch := branch; wr_sha := blob |}.

Definition searchFiles (query : string) : M W (list string) :=
  search_code (query +:+ " repo:" +:+ owner +:+ "/" +:+ repo).

(** [file.content.split(oldStr).length - 1] *)
Definition occurrences (oldStr text : string) : Z :=
  Z.of_nat (length (split oldStr text)) - 1.

Definition notFoundError (p : string) : string :=
  "String not found in " +:+ p +:+
  ". Make sure the string is unique and exact.".

Definition ambiguousError (n : Z) (p : string) : string :=
  "String found " +:+ numberToString n +:+ " times in " +:+ p +:+
  ". It must be unique for safe replacement.".

Definition applyStrReplace (p oldStr newStr branch : string) : M W ToolResult :=
  tryCatch
    (file <- getFileContent p branch ;;
     if negb (includes oldStr (content file)) then
       ret (failed (notFoundError p))
     else
       let n := occurrences oldStr (content file) in
       if (1 <? n)%Z then
         ret (failed (ambiguousError n p))
       else
         let newContent := replace oldStr newStr (content file) in
         updateFile p newContent ("Edit " +:+ p) branch (Some (sha file)) ;;;
         ret succeeded)
    (fun message => ret (failed message)).

End Client.
End GitHub.

(** * The import-following loader ([GitHubClient.getFilesWithImports])

    [loadFile] is an [async] function and its callers start several
    invocations before awaiting them ([Promise.all] over [map]), so several
    fetches are in flight at once. Between two [await]s an invocation runs
    without interruption. The only [await] that suspends an invocation with
    work left is the one on [getFileContent]; the state of the traversal is
    therefore the shared variables [loaded] and [files] together with the
    invocations suspended on a fetch, and a step is the completion of one of
    these fetches, followed by the code up to the next suspension. *)

Module Loader.
Import JsString.

(** An invocation of [loadFile] suspended on [getFileContent(t_path)]:
    [t_rest] are the spellings still to be tried, [t_depth] is [depth]. *)
Record Task := {
  t_path : string;
  t_rest : list string;
  t_depth : nat;
}.

Record State (W : Type) := {
  world : W;
  loaded : gset string;              (* the Set [loaded] *)
  files : list RepoFile;             (* the array [files] *)
  inflight : list Task;              (* suspended invocations *)
  requested : list string;           (* every path passed to getFileContent *)
  calls : list (string * nat);       (* every invocation loadFile(path, depth) *)
}.
Arguments world {W} _.
Arguments loaded {W} _.
Arguments files {W} _.
Arguments inflight {W} _.
Arguments requested {W} _.
Arguments calls {W} _.

Definition possiblePaths (p : string) : list string :=
  [ p; p +:+ ".ts"; p +:+ ".tsx"; p +:+ ".js"; p +:+ ".jsx";
    p +:+ "/index.ts"; p +:+ "/index.tsx"; p +:+ "/index.js" ].

Section Loading.
Context {W : Type} `{Octokit W}.
Variables (branch : string) (maxDepth : nat).

Definition init (w : W) : State W :=
  {| world := w; loaded := ∅; files := []; inflight := [];
     requested := []; calls := [] |}.

(** The head of the [for] loop: return when the spelling is in [loaded],
    otherwise call [getFileContent] and suspend; return when no spelling
    is left. *)
Definition probe (candidates : list string) (depth : nat) (st : State W)
  : State W :=
  match candidates with
  | [] => st
  | p :: rest =>
      if bool_decide (p ∈ loaded st) then st
      else
        {| world := world st; loaded := loaded st; files := files st;
           inflight := inflight st ++
                       [{| t_path := p; t_rest := rest; t_depth := depth |}];
           requested := requested st ++ [p];
           calls := calls st |}
  end.

(** [loadFile(path, depth)] up to its first suspension. *)
Definition loadFile (p : string) (depth : nat) (st : State W) : State W :=
  probe (possiblePaths p) depth
    {| world := world st; loaded := loaded st; files := files st;
       inflight := inflight st; requested := requested st;
       calls := calls st ++ [(p, depth)] |}.

(** [imports.map(imp => loadFile(imp, depth + 1))] *)
Definition loadAll (paths : list string) (depth : nat) (st : State W) : State W :=
  fold_left (fun s p => loadFile p depth s) paths st.

(** The invocation [t] resumes with the outcome of its fetch: on success
    the file is recorded and, below the depth bound, its imports are
    started; on failure the next spelling is tried. *)
Definition resume (t : Task) (st : State W) : State W :=
  match GitHub.getFileContent (t_path t) branch (world st) with
  | (Return file, w') =>
      let st1 :=
        {| world := w';
           loaded := {[ t_path t ]} ∪ loaded st;
           files := files st ++ [file];
           inflight := inflight st; requested := requested st;
           calls := calls st |} in
      if (t_depth t <? maxDepth)%nat then
        loadAll (Imports.parseImports (content file) (t_path t))
                (t_depth t + 1) st1
      else st1
  | (Throw _, w') =>
      probe (t_rest t) (t_depth t)
        {| world := w'; loaded := loaded st; files := files st;
           inflight := inflight st; requested := requested st;
           calls := calls st |}
  end.

(** The fetch of the [i]-th suspended invocation completes. *)
Definition complete (i : nat) (st : State W) : option (State W) :=
  match inflight st !! i with
  | Some t =>
      Some (resume t
        {| world := world st; loaded := loaded st; files := files st;
           inflight := delete i (inflight st);
           requested := requested st; calls := calls st |})
  | None => None
  end.

Definition step (st st' : State W) : Prop :=
  exists i, complete i st = Some st'.

Inductive steps : State W -> State W -> Prop :=
| steps_refl st : steps st st
| steps_step st st' st'' : step st st' -> steps st' st'' -> steps st st''.

(** [Promise.all(entryPaths.map(p => loadFile(p, 0)))], up to the point
    where every invocation has returned or is suspended. *)
Definition start (entryPaths : list string) (w : W) : State W :=
  loadAll entryPaths 0 (init w).

(** [getFilesWithImports] returns [files] once no invocation is left. *)
Definition returns (entryPaths : list string) (w : W) (fs : list RepoFile)
  : Prop :=
  exists st, steps (start entryPaths w) st /\ inflight st = [] /\ files st = fs.

(** A run in which the fetches complete in a given order: each number of
    the schedule is the position, among the suspended invocations, of the
    one whose fetch completes next. *)
Fixpoint runSchedule (schedule : list nat) (st : State W) : option (State W) :=
  match schedule with
  | [] => Some st
  | i :: schedule' =>
      match complete i st with
      | Some st' => runSchedule schedule' st'
      | None => None
      end
  end.

(** The run in which fetches complete in the order of their submission. *)
Fixpoint runInOrder (fuel : nat) (st : State W) : option (State W) :=
  match inflight st with
  | [] => Some st
  | _ :: _ =>
      match fuel with
      | O => None
      | S fuel' =>
          match complete 0 st with
          | Some st' => runInOrder fuel' st'
          | None => None
          end
      end
  end.

(** All the runs at once: the states in which the traversal can end,
    over every order of completion of the fetches. [None] when some run
    is longer than [fuel] steps. *)
Fixpoint gather {A} (parts : list (option (list A))) : option (list A) :=
  match parts with
  | [] => Some []
  | None :: _ => None
  | Some l :: rest =>
      match gather rest with
      | Some ls => Some (l ++ ls)
      | None => None
      end
  end.

Fixpoint finals (fuel : nat) (st : State W) : option (list (State W)) :=
  match inflight st with
  | [] => Some [st]
  | _ :: _ =>
      match fuel with
      | O => None
      | S fuel' =>
          gather
            (map (fun i => match complete i st with
                           | Some st' => finals fuel' st'
                           | None => Some []
                           end)
                 (seq 0 (length (inflight st))))
      end
  end.

End Loading.
End Loader.

(** * The Claude client ([src/lib/claude.ts]) *)

Module Claude.

Inductive ModelKey := Sonnet45 | Opus45.

(** Prices per million tokens. *)
Record Rates := {
  rate_input : float;
  rate_output : float;
  rate_cacheWrite : float;
  rate_cacheRead : float;
}.

(** [0x1.3333333333333p-2] is the binary64 value of the literal [0.30]. *)
Definition PRICING (m : ModelKey) : Rates :=
  match m with
  | Sonnet45 =>
      {| rate_input := 3; rate_output := 15;
         rate_cacheWrite := 3.75; rate_cacheRead := 0x1.3333333333333p-2 |}
  | Opus45 =>
      {| rate_input := 15; rate_output := 75;
         rate_cacheWrite := 18.75; rate_cacheRead := 1.5 |}
  end%float.

(** The [usage] object of a response; a counter may be missing. *)
Record Usage := {
  input_tokens : option Z;
  output_tokens : option Z;
  cache_creation_input_tokens : option Z;
  cache_read_input_tokens : option Z;
}.

Record TokenCounters := {
  input : Z;
  output : Z;
  cacheRead : Z;
  cacheWrite : Z;
}.

Record CostTracker := {
  sessionCost : float;
  dailyCost : float;
  monthlyCost : float;
  tokensUsed : TokenCounters;
}.

(** [counter || 0] *)
Definition orZero (counter : option Z) : Z :=
  match counter with
  | Some n => n
  | None => 0
  end.

(** A token count as the binary64 number it is in a product. *)
Definition toNumber (n : Z) : float :=
  if (n <? 0)%Z then PrimFloat.opp (PrimFloat.of_uint63 (Uint63.of_Z (- n)))
  else PrimFloat.of_uint63 (Uint63.of_Z n).

Definition calculateCost (m : ModelKey) (usage : Usage) : float :=
  let pricing := PRICING m in
  let inputCost :=
    (toNumber (orZero (input_tokens usage)) * rate_input pricing / 1000000)%float in
  let outputCost :=
    (toNumber (orZero (output_tokens usage)) * rate_output pricing / 1000000)%float in
  let cacheWriteCost :=
    (toNumber (orZero (cache_creation_input_tokens usage))
       * rate_cacheWrite pricing / 1000000)%float in
  let cacheReadCost :=
    (toNumber (orZero (cache_read_input_tokens usage))
       * rate_cacheRead pricing / 1000000)%float in
  (inputCost + outputCost + cacheWriteCost + cacheReadCost)%float.

Definition updateCostTracker (m : ModelKey) (usage : Usage) (t : CostTracker)
  : CostTracker :=
  let cost := calculateCost m usage in
  {| sessionCost := (sessionCost t + cost)%float;
     dailyCost := (dailyCost t + cost)%float;
     monthlyCost := (monthlyCost t + cost)%float;
     tokensUsed :=
       {| input := (input (tokensUsed t) + orZero (input_tokens usage))%Z;
          output := (output (tokensUsed t) + orZero (output_tokens usage))%Z;
          cacheRead :=
            (cacheRead (tokensUsed t) + orZero (cache_read_input_tokens usage))%Z;
          cacheWrite :=
            (cacheWrite (tokensUsed t)
             + orZero (cache_creation_input_tokens usage))%Z |} |}.

Definition noTokens : TokenCounters :=
  {| input := 0; output := 0; cacheRead := 0; cacheWrite := 0 |}.

Definition resetSessionCost (t : CostTracker) : CostTracker :=
  {| sessionCost := 0%float;
     dailyCost := dailyCost t;
     monthlyCost := monthlyCost t;
     tokensUsed := noTokens |}.

(** The tracker a new client starts with. *)
Definition newCostTracker : CostTracker :=
  {| sessionCost := 0%float; dailyCost := 0%float; monthlyCost := 0%float;
     tokensUsed := noTokens |}.

(** ** Messages, tools and the messages API *)

Inductive Role := User | Assistant.

Record Message := {
  role : Role;
  text : string;
}.

(** The [input] of a tool call: the properties the tools read. *)
Record ToolInput := {
  in_path : string;
  in_old_str : string;
  in_new_str : string;
  in_content : string;
  in_query : string;
}.

Record ToolCall := {
  call_id : string;
  call_name : string;
  call_input : ToolInput;
}.

Inductive ContentBlock :=
| TextBlock (t : string)
| ToolUseBlock (id name : string) (inp : ToolInput)
| OtherBlock.

Record ApiResponse := {
  resp_content : list ContentBlock;
  resp_usage : Usage;
}.

Record ToolSchema := {
  tool_name : string;
  tool_description : string;
  tool_required : list string;
}.

Record ChatRequest := {
  req_model : ModelKey;
  req_max_tokens : Z;
  req_system : string;          (* the system prompt *)
  req_context : string;         (* the cached code context *)
  req_messages : list Message;
  req_tools : list ToolSchema;
}.

Class Anthropic (W : Type) := {
  messages_create : ChatRequest -> M W ApiResponse;
}.

Definition getDefaultTools : list ToolSchema :=
  [ {| tool_name := "read_file";
       tool_description := "Read the contents of a file from the repository";
       tool_required := ["path"] |};
    {| tool_name := "str_replace";
       tool_description :=
         "Replace a unique string in a file with another string. The old_str must appear exactly once in the file.";
       tool_required := ["path"; "old_str"; "new_str"] |};
    {| tool_name := "create_file";
       tool_description := "Create a new file with the given content";
       tool_required := ["path"; "content"] |};
    {| tool_name := "search_files";
       tool_description :=
         "Search for files in the repository that contain a specific term";
       tool_required := ["query"] |} ].

(** The client object: its model, its cost tracker, and (as a record of
    its effects) the requests it has sent. *)
Record ClaudeClient := {
  model : ModelKey;
  costTracker : CostTracker;
  sent : list ChatRequest;
}.

Definition newClaudeClient (m : ModelKey) : ClaudeClient :=
  {| model := m; costTracker := newCostTracker; sent := [] |}.

(** The state of a request handler: the remote world and its client. *)
Record Session (W : Type) := {
  ext : W;
  client : ClaudeClient;
}.
Arguments ext {W} _.
Arguments client {W} _.
Arguments Build_Session {W} _ _.

Record ChatResult := {
  chat_content : string;
  toolCalls : option (list ToolCall);
  usage : Usage;
  cost : float;
}.

(** The text of a response and its tool calls, in the order of the blocks. *)
Fixpoint textOf (blocks : list ContentBlock) : string :=
  match blocks with
  | [] => ""
  | TextBlock t :: rest => t +:+ textOf rest
  | _ :: rest => textOf rest
  end.

Fixpoint toolCallsOf (blocks : list ContentBlock) : list ToolCall :=
  match blocks with
  | [] => []
  | ToolUseBlock id name inp :: rest =>
      {| call_id := id; call_name := name; call_input := inp |}
        :: toolCallsOf rest
  | _ :: rest => toolCallsOf rest
  end.

(** What [chat] returns for a response: its text, its tool calls
    ([undefined] when there is none), its usage and the cost of the usage. *)
Definition chatResult (m : ModelKey) (response : ApiResponse) : ChatResult :=
  let calls := toolCallsOf (resp_content response) in
  {| chat_content := textOf (resp_content response);
     toolCalls := match calls with
                  | [] => None
                  | _ :: _ => Some calls
                  end;
     usage := resp_usage response;
     cost := calculateCost m (resp_usage response) |}.

Section Chat.
Context {W : Type} `{Anthropic W}.

Local Open Scope js_scope.

(** A remote call, made from a handler. *)
Definition remote {A} (c : M W A) : M (Session W) A :=
  fun s =>
    let '(r, w') := c (ext s) in
    (r, {| ext := w'; client := client s |}).

Definition getClient : M (Session W) ClaudeClient :=
  fun s => (Return (client s), s).

Definition setClient (c : ClaudeClient) : M (Session W) unit :=
  fun s => (Return tt, {| ext := ext s; client := c |}).

Definition chatRequest (m : ModelKey) (messages : list Message)
    (systemPrompt codeContext : string) (tools : option (list ToolSchema))
  : ChatRequest :=
  {| req_model := m; req_max_tokens := 8192;
     req_system := systemPrompt; req_context := codeContext;
     req_messages := messages;
     req_tools := match tools with
                  | Some ts => ts
                  | None => getDefaultTools
                  end |}.

Definition chat (messages : list Message) (systemPrompt codeContext : string)
    (tools : option (list ToolSchema)) : M (Session W) ChatResult :=
  c <- getClient ;;
  let request := chatRequest (model c) messages systemPrompt codeContext tools in
  setClient {| model := model c; costTracker := costTracker c;
               sent := sent c ++ [request] |} ;;;
  response <- remote (messages_create request) ;;
  c <- getClient ;;
  setClient {| model := model c;
               costTracker :=
                 updateCostTracker (model c) (resp_usage response) (costTracker c);
               sent := sent c |} ;;;
  ret (chatResult (model c) response).

(** [getCostTracker]: a copy of the tracker. *)
Definition getCostTracker : M (Session W) CostTracker :=
  c <- getClient ;; ret (costTracker c).

End Chat.

(** ** The system prompt of the coding assistant *)

Definition CODING_SYSTEM_PROMPT : string :=
"You are an expert software engineer helping with a codebase. You have access to tools to read and edit files.

IMPORTANT RULES:
1. Use str_replace for edits - never rewrite entire files
2. The old_str must be UNIQUE and EXACT (including whitespace)
3. If you need to see more files, use read_file
4. Always explain what you're doing before making changes
5. Make minimal, focused changes

WORKFLOW:
1. Analyze the request
2. Identify which files need to change
3. Request additional files if needed
4. Make changes using str_replace or create_file
5. Explain what was changed and why

If a str_replace fails because the string wasn't unique, try using a larger context string that includes more surrounding code.".

(** ** File changes read off the tool calls ([parseFileChanges]) *)

Inductive Action := Create | Edit | Delete.

Record FileChange := {
  fc_path : string;
  fc_action : Action;
  fc_diff : option string;
}.

Definition newline : string := String "010" EmptyString.

Fixpoint parseFileChanges (calls : list ToolCall) : list FileChange :=
  match calls with
  | [] => []
  | call :: rest =>
      if String.eqb (call_name call) "str_replace" then
        {| fc_path := in_path (call_input call); fc_action := Edit;
           fc_diff := Some ("- " +:+ in_old_str (call_input call) +:+ newline
                            +:+ "+ " +:+ in_new_str (call_input call)) |}
          :: parseFileChanges rest
      else if String.eqb (call_name call) "create_file" then
        {| fc_path := in_path (call_input call); fc_action := Create;
           fc_diff := None |}
          :: parseFileChanges rest
      else parseFileChanges rest
  end.

End Claude.

(** * The tool loop of the chat route ([src/app/api/chat/route.ts])

    The part of [POST] from the first call of the model on: the handler has
    built the client objects, the [messages] and the [codeContext]. *)

Module ChatRoute.
Import JsString Claude.

(** The body of a JSON response. *)
Record TurnResult := {
  tr_content : string;
  filesChanged : list FileChange;
  tr_cost : float;
  tr_tokensUsed : TokenCounters;
  tr_costTracker : CostTracker;
}.

Inductive Response :=
| Json (body : TurnResult)
| ErrorJson (status : Z) (message : string).

Section Route.
Context {W : Type} `{Octokit W} `{Anthropic W}.
Variables (owner repo : string).

Local Open Scope js_scope.

(** The [switch] of [executeToolCall]; a remote call in it may throw. *)
Definition dispatch (call : ToolCall) (branch : string) : M W ToolResult :=
  let inp := call_input call in
  if String.eqb (call_name call) "read_file" then
    file <- GitHub.getFileContent (in_path inp) branch ;;
    ret (succeededWith (TextResult (content file)))
  else if String.eqb (call_name call) "str_replace" then
    GitHub.applyStrReplace (in_path inp) (in_old_str inp) (in_new_str inp) branch
  else if String.eqb (call_name call) "create_file" then
    GitHub.updateFile (in_path inp) (in_content inp)
      ("Create " +:+ in_path inp) branch None ;;;
    ret succeeded
  else if String.eqb (call_name call) "search_files" then
    paths <- GitHub.searchFiles owner repo (in_query inp) ;;
    ret (succeededWith (PathsResult paths))
  else
    ret (failed ("Unknown tool: " +:+ call_name call)).

Definition executeToolCall (call : ToolCall) (branch : string) : M W ToolResult :=
  tryCatch (dispatch call branch) (fun message => ret (failed message)).

(** Whether the loop records a file change for the call. *)
Definition isMutation (call : ToolCall) : bool :=
  String.eqb (call_name call) "str_replace"
  || String.eqb (call_name call) "create_file".

Definition changeOf (call : ToolCall) : FileChange :=
  {| fc_path := in_path (call_input call);
     fc_action := if String.eqb (call_name call) "create_file"
                  then Create else Edit;
     fc_diff := None |}.

(** The loop [for (const call of response.toolCalls)], from the arrays
    [toolResults] and [filesChanged] as they stand. *)
Fixpoint forToolCalls (calls : list ToolCall) (branch : string)
    (toolResults : list ToolResult) (changes : list FileChange)
  : M W (list ToolResult * list FileChange) :=
  match calls with
  | [] => ret (toolResults, changes)
  | call :: rest =>
      r <- executeToolCall call branch ;;
      let toolResults' := toolResults ++ [r] in
      let changes' := if isMutation call then changes ++ [changeOf call]
                      else changes in
      forToolCalls rest branch toolResults' changes'
  end.

(** One line of the summary of the tool results. A missing [error] is
    rendered by the concatenation as [undefined]. *)
Definition resultLine (call : ToolCall) (r : ToolResult) : string :=
  "Tool " +:+ call_name call +:+ ": " +:+
  (if success r then "Success"
   else "Failed - " +:+ match error r with
                        | Some e => e
                        | None => "undefined"
                        end).

(** [toolResults.map((r, i) => ... toolCalls[i] ...).join('\n')]; the two
    arrays have the same length. *)
Definition toolResultsMessage (calls : list ToolCall) (results : list ToolResult)
  : string :=
  join newline (zip_with resultLine calls results).

Definition followUpMessages (messages : list Message) (response : ChatResult)
    (summary : string) : list Message :=
  messages ++
  [ {| role := Assistant; text := chat_content response |};
    {| role := User;
       text := "Tool results:" +:+ newline +:+ summary +:+ newline +:+ newline
               +:+ "Please summarize what was done." |} ].

Definition tokensOf (u : Usage) : TokenCounters :=
  {| input := orZero (input_tokens u);
     output := orZero (output_tokens u);
     cacheRead := orZero (cache_read_input_tokens u);
     cacheWrite := orZero (cache_creation_input_tokens u) |}.

Definition addTokens (a b : TokenCounters) : TokenCounters :=
  {| input := (input a + input b)%Z;
     output := (output a + output b)%Z;
     cacheRead := (cacheRead a + cacheRead b)%Z;
     cacheWrite := (cacheWrite a + cacheWrite b)%Z |}.

(** The response when no follow-up round is made. *)
Definition singleRound (response : ChatResult) (changes : list FileChange)
  : M (Session W) TurnResult :=
  tracker <- getCostTracker ;;
  ret {| tr_content := chat_content response;
         filesChanged := changes;
         tr_cost := cost response;
         tr_tokensUsed := tokensOf (usage response);
         tr_costTracker := tracker |}.

(** The [try] block of [POST], from [claude.chat] on. *)
Definition turn (messages : list Message) (codeContext branch : string)
  : M (Session W) TurnResult :=
  response <- chat messages CODING_SYSTEM_PROMPT codeContext None ;;
  match toolCalls response with
  | Some calls =>
      collected <- remote (forToolCalls calls branch [] []) ;;
      let '(toolResults, changes) := collected in
      if (0 <? length toolResults)%nat then
        let summary := toolResultsMessage calls toolResults in
        followUp <- chat (followUpMessages messages response summary)
                         CODING_SYSTEM_PROMPT codeContext None ;;
        tracker <- getCostTracker ;;
        ret {| tr_content := chat_content followUp;
               filesChanged := changes;
               tr_cost := (cost response + cost followUp)%float;
               tr_tokensUsed :=
                 addTokens (tokensOf (usage response)) (tokensOf (usage followUp));
               tr_costTracker := tracker |}
      else singleRound response changes
  | None => singleRound response []
  end.

(** [error.message || 'An error occurred'] *)
Definition errorMessage (message : string) : string :=
  if String.eqb message "" then "An error occurred" else message.

(** [POST] from the first call of [claude.chat] on, with its [catch].
    [messages], [codeContext] and [branch] are the values that the handler
    has computed by then; its client is the one it has just constructed,
    with the default model. *)
Definition POST (messages : list Message) (codeContext branch : string)
    (w : W) : Response * Session W :=
  let s0 := {| ext := w; client := newClaudeClient Sonnet45 |} in
  match turn messages codeContext branch s0 with
  | (Return body, s) => (Json body, s)
  | (Throw e, s) => (ErrorJson 500 (errorMessage e), s)
  end.

End Route.
End ChatRoute.

(** * An in-memory world

    A repository held in memory and a model that answers from a script;
    the instance on which the functions above are run on concrete inputs. *)

Module Mem.
Import JsString Claude.

Record World := {
  store : gmap string (string * string);   (* path to text and blob hash *)
  script : list ApiResponse;               (* the answers the model will give *)
  written : list WriteRequest;             (* the writes accepted so far *)
}.

(** Blob hashes are content addressed. *)
Definition blobOf (text : string) : string := "blob:" +:+ text.

Definition world (fs : list (string * string)) (answers : list ApiResponse)
  : World :=
  {| store := list_to_map (map (fun f => (f.1, (f.2, blobOf f.2))) fs);
     script := answers;
     written := [] |}.

Definition getContent (p branch : string) : M World ContentData :=
  fun w =>
    match store w !! p with
    | Some (text, blob) => (Return (FileData text blob), w)
    | None => (Throw "Not Found", w)
    end.

Definition accept (req : WriteRequest) (w : World) : outcome unit * World :=
  (Return tt,
   {| store := <[ wr_path req := (wr_content req, blobOf (wr_content req)) ]>
                 (store w);
      script := script w;
      written := written w ++ [req] |}).

(** A write to an existing path must carry the hash of the stored blob. *)
Definition createOrUpdate (req : WriteRequest) : M World unit :=
  fun w =>
    match store w !! wr_path req, wr_sha req with
    | None, _ => accept req w
    | Some (_, blob), Some given =>
        if String.eqb given blob then accept req w
        else (Throw (wr_path req +:+ " does not match " +:+ given), w)
    | Some _, None => (Throw "Invalid request: sha was not supplied", w)
    end.

(** The paths of the files whose text contains the first word of the query. *)
Definition searchCode (q : string) : M World (list string) :=
  fun w =>
    let term := hd "" (split " " q) in
    (Return (map fst (List.filter (fun f => includes term (f.2).1)
                        (map_to_list (store w)))), w).

Definition create (req : ChatRequest) : M World ApiResponse :=
  fun w =>
    match script w with
    | answer :: rest =>
        (Return answer,
         {| store := store w; script := rest; written := written w |})
    | [] => (Throw "Connection error.", w)
    end.

#[global] Instance octokit : Octokit World := {
  repos_getContent := getContent;
  repos_createOrUpdateFileContents := createOrUpdate;
  search_code := searchCode;
}.

#[global] Instance anthropic : Anthropic World := {
  messages_create := create;
}.

End Mem.

(** * Vocabulary of the statements *)

(** A replacement text without a dollar sign: none of the patterns of
    [getSubstitution] can occur in it. *)
Fixpoint dollarFree (s : string) : bool :=
  match s with
  | EmptyString => true
  | String c s' => negb (Ascii.eqb c "$") && dollarFree s'
  end.

(** Counting the occurrences of a non-empty text [x] in [s] literally and
    without overlap: the first occurrence counts, and counting resumes
    behind it. The fuel bounds the number of occurrences looked for. *)
Fixpoint countFrom (fuel : nat) (x s : string) : nat :=
  match fuel with
  | O => 0
  | S fuel' =>
      match JsString.indexOf x s with
      | None => 0
      | Some i =>
          S (countFrom fuel' x (JsString.drop (i + String.length x) s))
      end
  end.

Definition nonOverlappingCount (x s : string) : nat :=
  countFrom (S (String.length s)) x s.

(** A text in which the character [a] does not occur. *)
Fixpoint slashFreeOf (a : ascii) (s : string) : bool :=
  match s with
  | EmptyString => true
  | String c s' => negb (Ascii.eqb c a) && slashFreeOf a s'
  end.

(** A path segment: not empty, not [.], not [..], without a slash. *)
Definition slashFree (s : string) : bool := slashFreeOf "/" s.

Definition properSegment (s : string) : Prop :=
  s <> "" /\ s <> "." /\ s <> ".." /\ slashFree s = true.

Module Spec.
Import Claude.

(** The write that a successful edit of [file] makes. *)
Definition editRequest (p oldStr newStr branch : string) (file : RepoFile)
  : WriteRequest :=
  {| wr_path := p;
     wr_message := "Edit " +:+ p;
     wr_content := JsString.replace oldStr newStr (content file);
     wr_branch := branch;
     wr_sha := Some (sha file) |}.

Section Executed.
Context {W : Type} `{Octokit W}.
Variables (owner repo branch : string).

(** [executed w calls results w']: from the world [w], executing the
    calls one after the other, in their order, returns the results
    [results], the i-th result being that of the i-th call in the world
    its predecessors have left, and leaves the world [w']. *)
Inductive executed : W -> list ToolCall -> list ToolResult -> W -> Prop :=
| executed_nil w : executed w [] [] w
| executed_cons w call r w1 calls results w2 :
    ChatRoute.executeToolCall owner repo call branch w = (Return r, w1) ->
    executed w1 calls results w2 ->
    executed w (call :: calls) (r :: results) w2.

End Executed.

(** The depth bound on a state of the loader: no suspended invocation
    and no invocation made so far is deeper than [maxDepth]. *)
Definition bounded {W} (maxDepth : nat) (st : Loader.State W) : Prop :=
  Forall (fun t => Loader.t_depth t <= maxDepth) (Loader.inflight st)
  /\ Forall (fun c => c.2 <= maxDepth) (Loader.calls st).

(** The first request of a turn: the handler's client is new and uses the
    default model. *)
Definition firstRequest (messages : list Message) (codeContext : string)
  : ChatRequest :=
  chatRequest Sonnet45 messages CODING_SYSTEM_PROMPT codeContext None.


Definition knownTool (name : string) : bool :=
  String.eqb name "read_file" || String.eqb name "str_replace"
  || String.eqb name "create_file" || String.eqb name "search_files".

End Spec.

(** * Concrete inputs *)

Module Examples.
Import Claude.

Definition usageOf (i o cw cr : Z) : Usage :=
  {| input_tokens := Some i; output_tokens := Some o;
     cache_creation_input_tokens := Some cw;
     cache_read_input_tokens := Some cr |}.

(** The usages of the accumulation example. *)
Definition usage52 : Usage := usageOf 5 2 0 0.
Definition usage31 : Usage := usageOf 3 1 0 0.
Definition usage83 : Usage := usageOf 8 3 0 0.

(** A ledger on which one round with two input tokens has been recorded. *)
Definition ledgerAfterTwoTokens : CostTracker :=
  updateCostTracker Sonnet45 (usageOf 2 0 0 0) newCostTracker.

Definition noInput : ToolInput :=
  {| in_path := ""; in_old_str := ""; in_new_str := ""; in_content := "";
     in_query := "" |}.

Definition createInput (p text : string) : ToolInput :=
  {| in_path := p; in_old_str := ""; in_new_str := ""; in_content := text;
     in_query := "" |}.

Definition replaceInput (p old new : string) : ToolInput :=
  {| in_path := p; in_old_str := old; in_new_str := new; in_content := "";
     in_query := "" |}.

Definition createCall : ToolCall :=
  {| call_id := "t1"; call_name := "create_file";
     call_input := createInput "new.ts" "hello" |}.

Definition replaceCall : ToolCall :=
  {| call_id := "t2"; call_name := "str_replace";
     call_input := replaceInput "f.ts" "a" "b" |}.

Definition deleteCall : ToolCall :=
  {| call_id := "t3"; call_name := "delete_file"; call_input := noInput |}.

Definition request : list Message :=
  [ {| role := User; text := "add new.ts and rename a" |} ].

(** A first round with a [create_file] and a [str_replace] call. *)
Definition roundWithTools : ApiResponse :=
  {| resp_content :=
       [ TextBlock "I will create the file and edit f.ts.";
         ToolUseBlock "t1" "create_file" (createInput "new.ts" "hello");
         ToolUseBlock "t2" "str_replace" (replaceInput "f.ts" "a" "b") ];
     resp_usage := usageOf 5 2 0 0 |}.

Definition roundSummary : ApiResponse :=
  {| resp_content := [ TextBlock "Created new.ts; the edit failed." ];
     resp_usage := usageOf 3 1 0 0 |}.

(** A first round without tool calls. *)
Definition roundPlain : ApiResponse :=
  {| resp_content := [ TextBlock "Nothing to change." ];
     resp_usage := usageOf 5 2 0 0 |}.

(** [f.ts] holds the text [aa], in which [a] occurs twice. *)
Definition worldTwoRounds : Mem.World :=
  Mem.world [("f.ts", "aa")] [roundWithTools; roundSummary].

Definition worldPlain : Mem.World :=
  Mem.world [("f.ts", "aa")] [roundPlain].





Definition afterPlainRound : Mem.World :=
  (Mem.create (Spec.firstRequest request "ctx") worldPlain).2.

(** The outcome of the turn in [worldTwoRounds], and the body of its
    response. *)
Definition twoRoundsOutcome : ChatRoute.Response * Session Mem.World :=
  ChatRoute.POST "o" "r" request "ctx" "main" worldTwoRounds.

Definition emptyBody : ChatRoute.TurnResult :=
  {| ChatRoute.tr_content := ""; ChatRoute.filesChanged := [];
     ChatRoute.tr_cost := 0%float; ChatRoute.tr_tokensUsed := noTokens;
     ChatRoute.tr_costTracker := newCostTracker |}.

Definition twoRoundsBody : ChatRoute.TurnResult :=
  match twoRoundsOutcome.1 with
  | ChatRoute.Json body => body
  | ChatRoute.ErrorJson _ _ => emptyBody
  end.

Definition worldEdit : Mem.World :=
  Mem.world [("f.ts", "abc"); ("g.ts", "ab"); ("h.ts", "abcab")] [].

(** Two import lines that name the same file. *)
Definition twiceImported : string :=
  "import x from '/c.ts'" +:+ newline +:+ "import y from '/c.ts'".

Definition worldTwice : Mem.World :=
  Mem.world [("a.ts", twiceImported); ("/c.ts", "export const c = 1")] [].

(** A chain [/a.ts] -> [/b.ts] -> [/c.ts], and a cycle [/p.ts] <-> [/q.ts]. *)
Definition worldChain : Mem.World :=
  Mem.world
    [ ("/a.ts", "import b from '/b'");
      ("/b.ts", "import c from '/c'");
      ("/c.ts", "export const c = 1");
      ("/p.ts", "import q from '/q.ts'");
      ("/q.ts", "import p from '/p.ts'") ] [].

(** The invocation for the seed /a.ts suspended on its fetch, and the
    invocation for its import /b suspended on the fetch of /b.ts. *)
Definition seedTask : Loader.Task :=
  {| Loader.t_path := "/a.ts";
     Loader.t_rest := tl (Loader.possiblePaths "/a.ts");
     Loader.t_depth := 0 |}.

Definition importTask : Loader.Task :=
  {| Loader.t_path := "/b.ts";
     Loader.t_rest := tl (tl (Loader.possiblePaths "/b"));
     Loader.t_depth := 1 |}.

End Examples.

(** * Vocabulary for the turn and the ledger *)

Module TurnSpec.
Import Claude ChatRoute.

(** The request of the follow-up round: the history, the text of the
    first answer, and the summary of the results of its tool calls. *)
Definition followUpRequest (messages : list Message) (codeContext : string)
    (first : ApiResponse) (results : list ToolResult) : ChatRequest :=
  chatRequest Sonnet45
    (followUpMessages messages (chatResult Sonnet45 first)
       (toolResultsMessage (toolCallsOf (resp_content first)) results))
    CODING_SYSTEM_PROMPT codeContext None.

(** A ledger after the usages of several rounds have been recorded, one
    after the other. *)
Definition recordAll (m : ModelKey) (usages : list Usage) (t : CostTracker)
  : CostTracker :=
  fold_left (fun t u => updateCostTracker m u t) usages t.

(** The client of a handler after its rounds: the model of the handler,
    the usages recorded on a new tracker, and the requests sent. *)
Definition clientAfter (usages : list Usage) (requests : list ChatRequest)
  : ClaudeClient :=
  {| model := Sonnet45;
     costTracker := recordAll Sonnet45 usages newCostTracker;
     sent := requests |}.

(** The counters of several usages, added up. *)
Definition totalTokens (usages : list Usage) : TokenCounters :=
  fold_left (fun acc u => addTokens acc (tokensOf u)) usages noTokens.

(** The operations on the ledger of a client. *)
Inductive LedgerOp :=
| Record (u : Usage)
| Reset.

Definition applyOp (m : ModelKey) (t : CostTracker) (op : LedgerOp)
  : CostTracker :=
  match op with
  | Record u => updateCostTracker m u t
  | Reset => resetSessionCost t
  end.

Definition applyOps (m : ModelKey) (ops : list LedgerOp) (t : CostTracker)
  : CostTracker :=
  fold_left (applyOp m) ops t.

(** The path and the action of a file change. *)
Definition changeKey (c : FileChange) : string * Action :=
  (fc_path c, fc_action c).

End TurnSpec.

(** * Vocabulary for the runs of the loader *)

Module LoaderSpec.
Import Loader.

(** The work left for a suspended invocation: the spelling being fetched
    and the spellings still to be tried. *)
Definition taskWeight (d : nat) (t : Task) : nat :=
  if Nat.eqb (t_depth t) d then S (length (t_rest t)) else 0.

(** The work left at depth [d]. *)
Definition weightAt (d : nat) (tasks : list Task) : nat :=
  list_sum (map (taskWeight d) tasks).

(** The work left in a state, depth by depth from the seeds down. *)
Definition workLeft {W} (maxDepth : nat) (st : State W) : list nat :=
  map (fun d => weightAt d (inflight st)) (seq 0 (S maxDepth)).

(** The lexicographic order on lists of numbers of one length. *)
Inductive lexlt : list nat -> list nat -> Prop :=
| lexlt_here x y xs ys :
    x < y -> length xs = length ys -> lexlt (x :: xs) (y :: ys)
| lexlt_later x xs ys :
    lexlt xs ys -> lexlt (x :: xs) (x :: ys).

(** A step from a state within the depth bound, read backwards. *)
Definition stepBack {W} `{Octokit W} (branch : string) (maxDepth : nat)
    (st' st : State W) : Prop :=
  Spec.bounded maxDepth st /\ step branch maxDepth st st'.



End LoaderSpec.

(** * Regular expressions with alternatives, repetition and anchors

    The matcher of the expressions used outside the import extractor
    (branch names, keywords): a backtracking matcher in the order of
    ECMAScript, without capture groups. *)

Module Re.

Inductive re :=
| Eps
| Cls (ok : ascii -> bool)        (* one code unit of a class *)
| Seq (a b : re)
| Alt (a b : re)                   (* the left alternative is tried first *)
| Star (a : re)                    (* greedy repetition *)
| Bol                              (* [^], without the flag m *)
| Eol                              (* [$], without the flag m *)
| WordB.                           (* [\b] *)

(** A position in the input: the code unit before it ([None] at the
    start) and the input from it on. *)
Definition pos : Type := option ascii * string.

Definition remaining (p : pos) : nat := String.length p.2.

(** [\w] *)
Definition isWord (c : ascii) : bool :=
  let n := nat_of_ascii c in
  (Nat.leb 48 n && Nat.leb n 57) || (Nat.leb 65 n && Nat.leb n 90)
  || (Nat.leb 97 n && Nat.leb n 122) || Nat.eqb n 95.

Definition wordBefore (p : pos) : bool :=
  match p.1 with
  | Some c => isWord c
  | None => false
  end.

Definition wordAfter (p : pos) : bool :=
  match p.2 with
  | String c _ => isWord c
  | EmptyString => false
  end.

(** The repetition of [body]: another round of [body], which has to
    consume something, is tried before the continuation. The fuel is the
    number of rounds that the rest of the input allows. *)
Fixpoint starLoop (body : pos -> (pos -> option pos) -> option pos)
    (k : pos -> option pos) (fuel : nat) (p : pos) : option pos :=
  match fuel with
  | O => k p
  | S fuel' =>
      match body p (fun p' =>
                      if Nat.ltb (remaining p') (remaining p)
                      then starLoop body k fuel' p' else None) with
      | Some q => Some q
      | None => k p
      end
  end.

(** [run r p k]: the first way, in the order of backtracking, to match
    [r] from [p] such that the continuation [k] succeeds. *)
Fixpoint run (r : re) (p : pos) (k : pos -> option pos) : option pos :=
  match r with
  | Eps => k p
  | Cls ok =>
      match p.2 with
      | String c s => if ok c then k (Some c, s) else None
      | EmptyString => None
      end
  | Seq a b => run a p (fun p' => run b p' k)
  | Alt a b =>
      match run a p k with
      | Some q => Some q
      | None => run b p k
      end
  | Star a => starLoop (run a) k (S (remaining p)) p
  | Bol =>
      match p.1 with
      | None => k p
      | Some _ => None
      end
  | Eol =>
      match p.2 with
      | EmptyString => k p
      | String _ _ => None
      end
  | WordB => if xorb (wordBefore p) (wordAfter p) then k p else None
  end.

(** The pieces of an input under a global expression: the code units
    outside the matches, and the texts of the matches. *)
Inductive token :=
| Lit (c : ascii)
| Hit (text : string).

(** The scan of a global expression over the input: at every position
    from [lastIndex] on, the first position with a match gives a [Hit]; the
    scan resumes behind the match (one code unit further when the match is
    empty). [skip] counts the code units of the last match still to be
    passed over, [prev] is the code unit before the position. *)
Fixpoint scan (r : re) (skip : nat) (prev : option ascii) (s : string)
  : list token :=
  match skip, s with
  | S k, String c s' => scan r k (Some c) s'
  | S _, EmptyString => []
  | O, _ =>
      match run r (prev, s) Some with
      | Some q =>
          let n := String.length s - remaining q in
          Hit (JsString.take n s) ::
            match s with
            | String c s' =>
                match n with
                | O => Lit c :: scan r 0 (Some c) s'
                | S k => scan r k (Some c) s'
                end
            | EmptyString => []
            end
      | None =>
          match s with
          | String c s' => Lit c :: scan r 0 (Some c) s'
          | EmptyString => []
          end
      end
  end.

(** [s.match(re) || []] for a global expression: the texts of the matches. *)
Fixpoint hits (tokens : list token) : list string :=
  match tokens with
  | [] => []
  | Hit text :: rest => text :: hits rest
  | Lit _ :: rest => hits rest
  end.

Definition matchAll (r : re) (s : string) : list string :=
  hits (scan r 0 None s).

(** [s.replace(re, replacement)] for a global expression and a
    replacement text without a dollar sign. *)
Fixpoint render (replacement : string) (tokens : list token) : string :=
  match tokens with
  | [] => EmptyString
  | Hit _ :: rest => replacement +:+ render replacement rest
  | Lit c :: rest => String c (render replacement rest)
  end.

Definition replaceAll (r : re) (replacement : string) (s : string) : string :=
  render replacement (scan r 0 None s).

(** ** Building blocks *)

Definition chr (c : ascii) : re := Cls (Ascii.eqb c).

(** [a+] *)
Definition plus (a : re) : re := Seq a (Star a).

(** A text, code unit by code unit. *)
Fixpoint lit (s : string) : re :=
  match s with
  | EmptyString => Eps
  | String c s' => Seq (chr c) (lit s')
  end.

(** [toLowerCase] on one code unit: the letters A-Z and the capital
    letters of Latin-1 (192-222 except the multiplication sign 215). *)
Definition lowerUnit (c : ascii) : ascii :=
  let n := nat_of_ascii c in
  if (Nat.leb 65 n && Nat.leb n 90)
     || (Nat.leb 192 n && Nat.leb n 222 && negb (Nat.eqb n 215))
  then ascii_of_nat (n + 32) else c.

Fixpoint toLowerCase (s : string) : string :=
  match s with
  | EmptyString => EmptyString
  | String c s' => String (lowerUnit c) (toLowerCase s')
  end.

(** A code unit under the flag i, against a letter of the pattern: the
    two agree when their upper-case forms agree, where a code unit above
    127 never stands for one below 128. [c] is the lower-case ASCII form
    of the pattern letter. *)
Definition foldAscii (x : ascii) : ascii :=
  let n := nat_of_ascii x in
  if Nat.leb 65 n && Nat.leb n 90 then ascii_of_nat (n + 32) else x.

Definition chrI (c : ascii) : re := Cls (fun x => Ascii.eqb (foldAscii x) c).

Fixpoint litI (s : string) : re :=
  match s with
  | EmptyString => Eps
  | String c s' => Seq (chrI c) (litI s')
  end.

(** [(a|b|...)] *)
Fixpoint oneOf (alternatives : list re) : re :=
  match alternatives with
  | [] => Cls (fun _ => false)
  | [a] => a
  | a :: rest => Alt a (oneOf rest)
  end.

End Re.

(** * The branch route ([src/app/api/github/route.ts])

    The handlers [GET] and [POST] of the route, with the methods of
    [GitHubClient] that they call. The fields of a request are taken with
    the types that the client of the route sends: texts, and a number for
    [prNumber]; a field that is absent is [None]. *)

Module BranchRoute.
Import JsString.

(** [new GitHubClient(token, owner, repo)] *)
Record Target := {
  token : string;
  owner : string;
  repo : string;
}.

(** The parameters of [pulls.create]. *)
Record PullParams := {
  pp_title : string;
  pp_body : string;
  pp_head : string;
  pp_base : string;
}.

(** The part of Octokit's REST interface that the route reaches: every
    call names the repository and carries the token of the request. *)
Class OctokitRefs (W : Type) := {
  repos_listBranches : Target -> M W (list (string * string));  (* name, commit.sha *)
  repos_get : Target -> M W string;                             (* default_branch *)
  git_getRef : Target -> string -> M W string;                  (* object.sha *)
  git_createRef : Target -> string -> string -> M W unit;       (* ref, sha *)
  git_deleteRef : Target -> string -> M W unit;
  pulls_create : Target -> PullParams -> M W (Z * string);      (* number, html_url *)
  pulls_merge : Target -> Z -> M W unit;
}.

Record Branch := {
  br_name : string;
  br_sha : string;
  br_isDefault : bool;
}.

(** ** The sanitising of a branch name *)

Definition isLowerAlnum (c : ascii) : bool :=
  let n := nat_of_ascii c in
  (Nat.leb 97 n && Nat.leb n 122) || (Nat.leb 48 n && Nat.leb n 57).

Definition isDash (c : ascii) : bool := Ascii.eqb "-" c.

(** [[^a-z0-9-]] *)
Definition unsafeUnit (c : ascii) : bool := negb (isLowerAlnum c || isDash c).

(** [/[^a-z0-9-]/g] *)
Definition unsafeRegex : Re.re := Re.Cls unsafeUnit.

(** [/-+/g] *)
Definition dashesRegex : Re.re := Re.plus (Re.Cls isDash).

(** [/^-|-$/g] *)
Definition edgeDashRegex : Re.re :=
  Re.Alt (Re.Seq Re.Bol (Re.Cls isDash)) (Re.Seq (Re.Cls isDash) Re.Eol).

(** [branchName.toLowerCase().replace(/[^a-z0-9-]/g, '-')
      .replace(/-+/g, '-').replace(/^-|-$/g, '')] *)
Definition sanitize (branchName : string) : string :=
  Re.replaceAll edgeDashRegex ""
    (Re.replaceAll dashesRegex "-"
       (Re.replaceAll unsafeRegex "-" (Re.toLowerCase branchName))).

(** ** The methods of the client *)

Section Client.
Context {W : Type} `{OctokitRefs W}.
Variable github : Target.

Local Open Scope js_scope.

Definition createBranch (branchName fromBranch : string) : M W Branch :=
  refSha <- git_getRef github ("heads/" +:+ fromBranch) ;;
  git_createRef github ("refs/heads/" +:+ branchName) refSha ;;;
  ret {| br_name := branchName; br_sha := refSha; br_isDefault := false |}.

Definition createPullRequest (title body head base : string) : M W (Z * string) :=
  pulls_create github
    {| pp_title := title; pp_body := body; pp_head := head; pp_base := base |}.

Definition mergePullRequest (prNumber : Z) : M W unit :=
  pulls_merge github prNumber.

Definition deleteBranch (branch : string) : M W unit :=
  git_deleteRef github ("heads/" +:+ branch).

Definition listBranches : M W (list Branch) :=
  data <- repos_listBranches github ;;
  defaultBranch <- repos_get github ;;
  ret (map (fun b => {| br_name := b.1; br_sha := b.2;
                        br_isDefault := String.eqb b.1 defaultBranch |}) data).

End Client.

(** ** The handlers *)

(** The body of a response. *)
Inductive Body :=
| BranchesBody (branches : list Branch)           (* [{ branches }] *)
| BranchBody (branch : Branch)                    (* [{ branch }] *)
| PrBody (number : Z) (url : string)              (* [{ pr }] *)
| SuccessBody                                     (* [{ success: true }] *)
| ErrorBody (message : string).                   (* [{ error }] *)

Record Reply := {
  status : Z;
  body : Body;
}.

(** [NextResponse.json(body)] *)
Definition json (b : Body) : Reply := {| status := 200; body := b |}.

(** [NextResponse.json({ error }, { status })] *)
Definition refuse (code : Z) (message : string) : Reply :=
  {| status := code; body := ErrorBody message |}.

(** A text that passes [if (!x)]: present and not empty. *)
Definition truthy (x : option string) : option string :=
  match x with
  | Some s => if String.eqb s "" then None else Some s
  | None => None
  end.

(** [x = fallback] in a destructuring: the fallback stands for an absent
    field only. *)
Definition orDefault (fallback : string) (x : option string) : string :=
  match x with
  | Some s => s
  | None => fallback
  end.

(** [x || ''] *)
Definition orEmpty (x : option string) : string := orDefault "" x.

(** The body of a [POST] request. *)
Record PostBody := {
  action : option string;
  pb_token : option string;
  pb_owner : option string;
  pb_repo : option string;
  branchName : option string;
  fromBranch : option string;
  title : option string;
  prBody : option string;
  head : option string;
  base : option string;
  prNumber : option Z;
}.

(** [case name:] of the [switch] on the action. *)
Definition actionIs (b : PostBody) (name : string) : bool :=
  match action b with
  | Some a => String.eqb a name
  | None => false
  end.

Section Handlers.
Context {W : Type} `{OctokitRefs W}.

Local Open Scope js_scope.

(** [catch (error) { return NextResponse.json({ error: error.message },
    { status: 500 }) }] *)
Definition guarded (block : M W Reply) : M W Reply :=
  tryCatch block (fun message => ret (refuse 500 message)).

Definition GET (tokenHeader ownerParam repoParam : option string) : M W Reply :=
  guarded
    (match truthy tokenHeader, truthy ownerParam, truthy repoParam with
     | Some t, Some o, Some r =>
         let github := {| token := t; owner := o; repo := r |} in
         branches <- listBranches github ;;
         ret (json (BranchesBody branches))
     | _, _, _ => ret (refuse 400 "Missing required parameters")
     end).

(** The [switch] on the action. *)
Definition perform (github : Target) (b : PostBody) : M W Reply :=
  if actionIs b "create" then
    match truthy (branchName b) with
    | None => ret (refuse 400 "Branch name required")
    | Some name =>
        let safeBranchName := sanitize name in
        branch <- createBranch github safeBranchName
                    (orDefault "main" (fromBranch b)) ;;
        ret (json (BranchBody branch))
    end
  else if actionIs b "createPR" then
    match truthy (title b), truthy (head b) with
    | Some t, Some h =>
        pr <- createPullRequest github t (orEmpty (prBody b)) h
                (orDefault "main" (base b)) ;;
        ret (json (PrBody pr.1 pr.2))
    | _, _ => ret (refuse 400 "Title and head branch required")
    end
  else if actionIs b "merge" then
    match prNumber b with
    | Some n =>
        if (n =? 0)%Z then ret (refuse 400 "PR number required")
        else
          mergePullRequest github n ;;;
          ret (json SuccessBody)
    | None => ret (refuse 400 "PR number required")
    end
  else if actionIs b "delete" then
    match truthy (branchName b) with
    | None => ret (refuse 400 "Branch name required")
    | Some name =>
        deleteBranch github name ;;;
        ret (json SuccessBody)
    end
  else ret (refuse 400 "Invalid action").

(** [parsed] is the outcome of [await request.json()]. *)
Definition POST (parsed : outcome PostBody) : M W Reply :=
  guarded
    (b <- (fun w => (parsed, w)) ;;
     match truthy (pb_token b), truthy (pb_owner b), truthy (pb_repo b) with
     | Some t, Some o, Some r =>
         perform {| token := t; owner := o; repo := r |} b
     | _, _, _ => ret (refuse 400 "Missing required parameters")
     end).

End Handlers.

(** ** Vocabulary *)

(** A name as the sanitising leaves it: lower-case letters, digits and
    single dashes, with no dash at either end. *)
Fixpoint tidyFrom (afterDash : bool) (s : string) : bool :=
  match s with
  | EmptyString => negb afterDash
  | String c s' =>
      if isDash c then negb afterDash && tidyFrom true s'
      else isLowerAlnum c && tidyFrom false s'
  end.

(** At the start a dash is refused like after a dash; the empty name is
    tidy. *)
Definition tidy (s : string) : bool :=
  match s with
  | EmptyString => true
  | _ => tidyFrom true s
  end.

(** What a handler may answer from the world [w]: a reply, never a throw;
    with status 200 a body that is no error; with status 400 an error and
    the world as it was; with status 500 an error. *)
Definition answers {W} (w : W) (r : outcome Reply * W) : Prop :=
  exists reply w',
    r = (Return reply, w')
    /\ ((status reply = 200%Z /\ forall m, body reply <> ErrorBody m)
        \/ (status reply = 400%Z /\ w' = w /\ exists m, body reply = ErrorBody m)
        \/ (status reply = 500%Z /\ exists m, body reply = ErrorBody m)).

End BranchRoute.

(** An in-memory remote for the branch route: the refs of one repository
    and its pull requests. *)

Module MemRefs.
Import BranchRoute.

Record World := {
  refs : list (string * string);       (* branch name and commit *)
  defaultBranch : string;
  pulls : list PullParams;
  merged : list Z;
  seen : list Target;                  (* the calls received *)
}.

Definition note (t : Target) (w : World) : World :=
  {| refs := refs w; defaultBranch := defaultBranch w; pulls := pulls w;
     merged := merged w; seen := seen w ++ [t] |}.

Definition lookupRef (name : string) (w : World) : option string :=
  snd <$> List.find (fun r => String.eqb r.1 name) (refs w).

Definition branchOf (ref : string) : string :=
  JsString.drop 6 ref.                 (* behind [heads/] *)

Definition listRefs (t : Target) : M World (list (string * string)) :=
  fun w => (Return (refs w), note t w).

Definition getRepo (t : Target) : M World string :=
  fun w => (Return (defaultBranch w), note t w).

Definition getRef (t : Target) (ref : string) : M World string :=
  fun w =>
    match lookupRef (branchOf ref) w with
    | Some commit => (Return commit, note t w)
    | None => (Throw "Not Found", note t w)
    end.

Definition createRef (t : Target) (ref commit : string) : M World unit :=
  fun w =>
    let name := JsString.drop 11 ref in   (* behind [refs/heads/] *)
    match lookupRef name w with
    | Some _ => (Throw "Reference already exists", note t w)
    | None =>
        (Return tt,
         note t {| refs := refs w ++ [(name, commit)];
                   defaultBranch := defaultBranch w; pulls := pulls w;
                   merged := merged w; seen := seen w |})
    end.

Definition deleteRef (t : Target) (ref : string) : M World unit :=
  fun w =>
    match lookupRef (branchOf ref) w with
    | Some _ =>
        (Return tt,
         note t {| refs := List.filter
                             (fun r => negb (String.eqb r.1 (branchOf ref)))
                             (refs w);
                   defaultBranch := defaultBranch w; pulls := pulls w;
                   merged := merged w; seen := seen w |})
    | None => (Throw "Reference does not exist", note t w)
    end.

Definition createPull (t : Target) (p : PullParams) : M World (Z * string) :=
  fun w =>
    let number := Z.of_nat (S (length (pulls w))) in
    (Return (number, "https://github.test/pull/" +:+ JsString.numberToString number),
     note t {| refs := refs w; defaultBranch := defaultBranch w;
               pulls := pulls w ++ [p]; merged := merged w; seen := seen w |}).

Definition mergePull (t : Target) (number : Z) : M World unit :=
  fun w =>
    if ((0 <? number) && (number <=? Z.of_nat (length (pulls w))))%Z then
      (Return tt,
       note t {| refs := refs w; defaultBranch := defaultBranch w;
                 pulls := pulls w; merged := merged w ++ [number];
                 seen := seen w |})
    else (Throw "Not Found", note t w).

#[global] Instance octokitRefs : OctokitRefs World := {
  repos_listBranches := listRefs;
  repos_get := getRepo;
  git_getRef := getRef;
  git_createRef := createRef;
  git_deleteRef := deleteRef;
  pulls_create := createPull;
  pulls_merge := mergePull;
}.

Definition repository : World :=
  {| refs := [("main", "c0ffee")]; defaultBranch := "main"; pulls := [];
     merged := []; seen := [] |}.

Definition createRequest (name : string) : PostBody :=
  {| action := Some "create"; pb_token := Some "t0k"; pb_owner := Some "acme";
     pb_repo := Some "shop"; branchName := Some name; fromBranch := None;
     title := None; prBody := None; head := None; base := None;
     prNumber := None |}.

End MemRefs.

(** * The preparation of a turn: seed files and the code context

    [extractKeywords] and [findRelevantFiles] of
    [src/app/api/chat/route.ts], [getFiles] of [src/lib/github.ts] and
    [generateCodeContext] of [src/lib/claude.ts]. The searches of
    [findRelevantFiles] and the fetches of [getFiles] are started in the
    order of their list; they are taken to be answered in that order. *)

Module Seeds.

Definition isUpper (c : ascii) : bool :=
  let n := nat_of_ascii c in Nat.leb 65 n && Nat.leb n 90.

Definition isLower (c : ascii) : bool :=
  let n := nat_of_ascii c in Nat.leb 97 n && Nat.leb n 122.

(** [[\w-]], which the flag i leaves as it is. *)
Definition isNameUnit (c : ascii) : bool := Re.isWord c || Ascii.eqb "-" c.

Definition codeTerms : list string :=
  ["component"; "function"; "api"; "route"; "service"; "util"; "hook";
   "type"; "interface"; "class"; "module"; "page"; "layout"].

Definition extensions : list string :=
  ["ts"; "tsx"; "js"; "jsx"; "css"; "json"; "py"].

(** [/\b(component|function|...|layout)\b/gi] *)
Definition codeTermsRegex : Re.re :=
  Re.Seq Re.WordB (Re.Seq (Re.oneOf (map Re.litI codeTerms)) Re.WordB).

(** [/[\w-]+\.(ts|tsx|js|jsx|css|json|py)/gi] *)
Definition fileRefsRegex : Re.re :=
  Re.Seq (Re.plus (Re.Cls isNameUnit))
    (Re.Seq (Re.chr ".") (Re.oneOf (map Re.litI extensions))).

(** [/\b[A-Z][a-z]+(?:[A-Z][a-z]+)+\b/g] *)
Definition camelCaseRegex : Re.re :=
  let hump := Re.Seq (Re.Cls isUpper) (Re.plus (Re.Cls isLower)) in
  Re.Seq Re.WordB (Re.Seq hump (Re.Seq (Re.plus hump) Re.WordB)).

(** [[...new Set(xs)]]: the elements in the order of their first
    occurrence. *)
Definition setAdd (seen : list string) (x : string) : list string :=
  if bool_decide (x ∈ seen) then seen else seen ++ [x].

Definition setOf (xs : list string) : list string := fold_left setAdd xs [].

Definition extractKeywords (message : string) : list string :=
  let terms := Re.matchAll codeTermsRegex message in
  let fileRefs := Re.matchAll fileRefsRegex message in
  let camelCase := Re.matchAll camelCaseRegex message in
  firstn 3 (setOf (terms ++ fileRefs ++ camelCase)).

Section Remote.
Context {W : Type} `{Octokit W}.
Variables (owner repo : string).

Local Open Scope js_scope.

(** [Promise.all(keywords.map(k => github.searchFiles(k).catch(() => [])))] *)
Fixpoint searchAll (keywords : list string) : M W (list (list string)) :=
  match keywords with
  | [] => ret []
  | k :: rest =>
      paths <- tryCatch (GitHub.searchFiles owner repo k) (fun _ => ret []) ;;
      others <- searchAll rest ;;
      ret (paths :: others)
  end.

Definition findRelevantFiles (message : string) : M W (list string) :=
  let keywords := extractKeywords message in
  if Nat.eqb (length keywords) 0 then ret []
  else
    searchResults <- searchAll keywords ;;
    let allPaths := setOf (concat searchResults) in
    ret (firstn 5 allPaths).

(** [Promise.all(paths.map(path => this.getFileContent(path, branch)
      .catch(() => null)))] *)
Fixpoint fetchAll (paths : list string) (branch : string)
  : M W (list (option RepoFile)) :=
  match paths with
  | [] => ret []
  | p :: rest =>
      file <- tryCatch (f <- GitHub.getFileContent p branch ;; ret (Some f))
                       (fun _ => ret None) ;;
      others <- fetchAll rest branch ;;
      ret (file :: others)
  end.

(** [files.filter(f => f !== null)] *)
Definition getFiles (paths : list string) (branch : string) : M W (list RepoFile) :=
  files <- fetchAll paths branch ;;
  ret (omap id files).

(** [fetched branch w paths files w']: from the world [w], the paths are
    fetched one after the other; [files] holds, in the order of the paths,
    the file of every fetch that returns, and nothing for a fetch that
    throws; [w'] is the world that the last fetch leaves. *)
Inductive fetched (branch : string)
  : W -> list string -> list RepoFile -> W -> Prop :=
| fetched_nil w : fetched branch w [] [] w
| fetched_file w p file w1 paths files w2 :
    GitHub.getFileContent p branch w = (Return file, w1) ->
    fetched branch w1 paths files w2 ->
    fetched branch w (p :: paths) (file :: files) w2
| fetched_none w p e w1 paths files w2 :
    GitHub.getFileContent p branch w = (Throw e, w1) ->
    fetched branch w1 paths files w2 ->
    fetched branch w (p :: paths) files w2.

(** The file that a fetch of [p] from the world [w] returns, if any. *)
Definition fileAt (branch : string) (w : W) (p : string) : option RepoFile :=
  match GitHub.getFileContent p branch w with
  | (Return file, _) => Some file
  | (Throw _, _) => None
  end.

End Remote.

(** ** The code context *)







End Seeds.

(** * Vocabulary for the passes over a branch name *)

Module NameSpec.
Import BranchRoute.

(** The position behind the longest run of code units of a class. *)
Fixpoint skipRun (f : ascii -> bool) (prev : option ascii) (s : string) : Re.pos :=
  match s with
  | String c s' => if f c then skipRun f (Some c) s' else (prev, s)
  | EmptyString => (prev, s)
  end.

(** The three replacements of the sanitising as plain recursions. *)
Fixpoint dashOut (s : string) : string :=
  match s with
  | EmptyString => EmptyString
  | String c s' => String (if unsafeUnit c then "-"%char else c) (dashOut s')
  end.

Fixpoint squeeze (inRun : bool) (s : string) : string :=
  match s with
  | EmptyString => EmptyString
  | String c s' =>
      if isDash c then
        if inRun then squeeze true s' else String "-" (squeeze true s')
      else String c (squeeze false s')
  end.

Fixpoint dropLastDash (s : string) : string :=
  match s with
  | EmptyString => EmptyString
  | String c s' =>
      if isDash c && String.eqb s' "" then EmptyString
      else String c (dropLastDash s')
  end.

Definition trimEnds (s : string) : string :=
  match s with
  | EmptyString => EmptyString
  | String c s' => if isDash c then dropLastDash s' else String c (dropLastDash s')
  end.

(** Only safe code units: lower-case letters, digits and dashes. *)
Fixpoint allSafe (s : string) : bool :=
  match s with
  | EmptyString => true
  | String c s' => negb (unsafeUnit c) && allSafe s'
  end.

(** No letter and no digit. *)
Fixpoint alnumFree (s : string) : bool :=
  match s with
  | EmptyString => true
  | String c s' => negb (isLowerAlnum c) && alnumFree s'
  end.

(** No code unit of the name is a letter or a digit once in lower case. *)
Definition noAlnum (s : string) : bool := alnumFree (Re.toLowerCase s).

End NameSpec.

(** * More concrete inputs *)

Module MoreExamples.
Import Claude Examples.

(** Tool calls that meet an error of the repository: a read and an edit
    of a path that does not exist, and the creation of f.ts, which
    exists. *)
Definition readMissingCall : ToolCall :=
  {| call_id := "t4"; call_name := "read_file";
     call_input := createInput "nope.ts" "" |}.

Definition replaceMissingCall : ToolCall :=
  {| call_id := "t5"; call_name := "str_replace";
     call_input := replaceInput "nope.ts" "a" "b" |}.

Definition overwriteCall : ToolCall :=
  {| call_id := "t6"; call_name := "create_file";
     call_input := createInput "f.ts" "hello" |}.



(** The traversal of the chain from the seed /a.ts: its start, the state
    after the fetch of the seed, and its end. *)
Definition chainStart : Loader.State Mem.World :=
  Loader.start ["/a.ts"] worldChain.

Definition chainMiddle : Loader.State Mem.World :=
  default chainStart (Loader.runSchedule "main" 2 [0] chainStart).

Definition chainEnd : Loader.State Mem.World :=
  default chainMiddle (Loader.runInOrder "main" 2 9 chainMiddle).


(** A seed with a relative import: src/checkout.ts imports ./pricing, and
    src/pricing.ts exists. *)
Definition checkoutText : string := "import { price } from './pricing'".

Definition worldCheckout : Mem.World :=
  Mem.world [ ("src/checkout.ts", checkoutText);
              ("src/pricing.ts", "export const price = 1") ] [].

Definition filePricing : RepoFile :=
  {| path := "src/pricing.ts"; content := "export const price = 1";
     sha := Mem.blobOf "export const price = 1" |}.

(** The files g.ts and h.ts of the repository of the edits. *)
Definition fileG : RepoFile :=
  {| path := "g.ts"; content := "ab"; sha := Mem.blobOf "ab" |}.

Definition fileH : RepoFile :=
  {| path := "h.ts"; content := "abcab"; sha := Mem.blobOf "abcab" |}.

(** Requests to the branch route. *)
Definition loginRequest : BranchRoute.PostBody :=
  MemRefs.createRequest "Feature/Add  Login!".

Definition symbolsRequest : BranchRoute.PostBody :=
  MemRefs.createRequest "!!!".

Definition loginOutcome : outcome BranchRoute.Reply * MemRefs.World :=
  BranchRoute.POST (Return loginRequest) MemRefs.repository.

Definition loginReply : BranchRoute.Reply :=
  match loginOutcome.1 with
  | Return reply => reply
  | Throw e => BranchRoute.refuse 500 e
  end.

Definition shop : BranchRoute.Target :=
  {| BranchRoute.token := "t0k"; BranchRoute.owner := "acme";
     BranchRoute.repo := "shop" |}.

End MoreExamples.

(** * Facts about the string primitives *)

#[global] Arguments String.append !_ _ / : simpl nomatch.

Module JsStringFacts.
Import JsString.

Lemma prefix_nil (s : string) : String.prefix "" s = true.
Proof. destruct s; reflexivity. Qed.

Lemma includes_nil (s : string) : includes "" s = true.
Proof. destruct s; reflexivity. Qed.

Lemma indexOf_nil (s : string) : indexOf "" s = Some 0.
Proof. destruct s; reflexivity. Qed.

Lemma units_length (s : string) : length (units s) = String.length s.
Proof. induction s as [|c s IH]; simpl; congruence. Qed.

Lemma append_nil_r (s : string) : s +:+ "" = s.
Proof. induction s as [|c s IH]; simpl; congruence. Qed.

Lemma append_assoc (a b c : string) : (a +:+ b) +:+ c = a +:+ (b +:+ c).
Proof. induction a as [|x a IH]; simpl; congruence. Qed.

Lemma append_length (a b : string) :
  String.length (a +:+ b) = String.length a + String.length b.
Proof. induction a as [|x a IH]; simpl; congruence. Qed.

Lemma take_drop (n : nat) (s : string) : take n s +:+ drop n s = s.
Proof.
  revert s; induction n as [|n IH]; intros [|c s]; simpl; try reflexivity.
  now rewrite IH.
Qed.

Lemma take_length_le (n : nat) (s : string) : String.length (take n s) <= n.
Proof.
  revert s; induction n as [|n IH]; intros [|c s]; simpl; try lia.
  specialize (IH s). lia.
Qed.

Lemma drop_drop (n m : nat) (s : string) : drop n (drop m s) = drop (m + n) s.
Proof.
  revert s; induction m as [|m IH]; intros s; simpl; [reflexivity|].
  destruct s as [|c s]; [now destruct n|]. apply IH.
Qed.

Lemma drop_length_le (n : nat) (s : string) :
  String.length (drop n s) <= String.length s.
Proof.
  revert s; induction n as [|n IH]; intros [|c s]; simpl; try lia.
  specialize (IH s). lia.
Qed.

(** A prefix can be split off. *)
Lemma prefix_split (x s : string) :
  String.prefix x s = true -> s = x +:+ drop (String.length x) s.
Proof.
  revert s; induction x as [|a x IH]; intros s Hp.
  - now destruct s.
  - destruct s as [|b s]; simpl in Hp; [discriminate|].
    destruct (ascii_dec a b) as [->|]; [|discriminate].
    simpl. f_equal. now apply IH.
Qed.

Lemma prefix_cons (a : ascii) (x : string) (b : ascii) (s : string) :
  String.prefix (String a x) (String b s) =
    if Ascii.eqb a b then String.prefix x s else false.
Proof.
  change (String.prefix (String a x) (String b s))
    with (if ascii_dec a b then String.prefix x s else false).
  destruct (ascii_dec a b), (Ascii.eqb_spec a b); congruence.
Qed.

Lemma slashFreeOf_cons (a c : ascii) (s : string) :
  slashFreeOf a (String c s) = negb (Ascii.eqb c a) && slashFreeOf a s.
Proof. reflexivity. Qed.

Lemma append_cons (c : ascii) (a b : string) :
  String c a +:+ b = String c (a +:+ b).
Proof. reflexivity. Qed.

Lemma prefix_append (x s : string) : String.prefix x (x +:+ s) = true.
Proof.
  induction x as [|a x IH]; simpl; [apply prefix_nil|].
  destruct (ascii_dec a a); [assumption|congruence].
Qed.

Lemma indexOf_cons (x : string) (c : ascii) (s : string) :
  indexOf x (String c s) =
    if String.prefix x (String c s) then Some 0
    else option_map S (indexOf x s).
Proof. reflexivity. Qed.

Lemma includes_cons (x : string) (c : ascii) (s : string) :
  includes x (String c s) =
    if String.prefix x (String c s) then true else includes x s.
Proof. reflexivity. Qed.

(** [indexOf] finds the first position at which the pattern occurs. *)
Lemma indexOf_Some (x s : string) (i : nat) :
  indexOf x s = Some i ->
  s = take i s +:+ x +:+ drop (i + String.length x) s
  /\ String.prefix x (drop i s) = true
  /\ forall j, j < i -> String.prefix x (drop j s) = false.
Proof.
  revert i; induction s as [|c s IH]; intros i Hi.
  - destruct x as [|a x]; [|discriminate].
    injection Hi as <-. split; [|split].
    + reflexivity.
    + reflexivity.
    + intros j Hj; lia.
  - rewrite indexOf_cons in Hi.
    destruct (String.prefix x (String c s)) eqn:Hp.
    + injection Hi as <-. split; [|split].
      * change (take 0 (String c s)) with "".
        change (0 + String.length x) with (String.length x).
        now apply prefix_split.
      * exact Hp.
      * intros j Hj; lia.
    + destruct (indexOf x s) as [k|] eqn:Hk; [|discriminate].
      injection Hi as <-. destruct (IH k eq_refl) as (Heq & Hpk & Hlt).
      split; [|split].
      * simpl. f_equal. exact Heq.
      * exact Hpk.
      * intros [|j] Hj; [exact Hp|]. simpl. apply Hlt. lia.
Qed.

Lemma includes_indexOf (x s : string) :
  includes x s = true <-> exists i, indexOf x s = Some i.
Proof.
  induction s as [|c s IH].
  - destruct x as [|a x]; simpl.
    + split; [eauto|reflexivity].
    + split; [discriminate|intros [i Hi]; discriminate].
  - rewrite includes_cons, indexOf_cons.
    destruct (String.prefix x (String c s)); [split; eauto|].
    rewrite IH. split; intros [i Hi].
    + exists (S i). now rewrite Hi.
    + destruct (indexOf x s) as [k|]; [eauto|discriminate].
Qed.

Lemma includes_of_prefix (x s : string) :
  String.prefix x s = true -> includes x s = true.
Proof.
  intros Hp. destruct s as [|c s].
  - change (includes x "") with (if String.prefix x "" then true else false).
    now rewrite Hp.
  - rewrite includes_cons. now rewrite Hp.
Qed.

(** An occurrence anywhere makes [includes] true. *)
Lemma includes_append (a x b : string) : includes x (a +:+ x +:+ b) = true.
Proof.
  induction a as [|c a IH].
  - exact (includes_of_prefix _ _ (prefix_append x b)).
  - change (String c a +:+ x +:+ b) with (String c (a +:+ x +:+ b)).
    rewrite includes_cons, IH. now destruct (String.prefix x _).
Qed.

(** ** Replacement *)

Lemma getSubstitution_literal (matched before after template : string) :
  dollarFree template = true ->
  getSubstitution matched before after template = template.
Proof.
  induction template as [|c t IH]; simpl; [reflexivity|].
  intros [Hc Ht]%andb_prop. destruct (Ascii.eqb c "$"); [discriminate|].
  f_equal. now apply IH.
Qed.

Lemma replace_at (pat template s : string) (i : nat) :
  indexOf pat s = Some i ->
  replace pat template s =
    take i s
    +:+ getSubstitution pat (take i s) (drop (i + String.length pat) s) template
    +:+ drop (i + String.length pat) s.
Proof. intros Hi. unfold replace. now rewrite Hi. Qed.

(** With a replacement text that has no dollar sign, [replace] puts the
    text itself in the place of the first occurrence. *)
Lemma replace_literal (pat new s : string) (i : nat) :
  dollarFree new = true ->
  indexOf pat s = Some i ->
  replace pat new s = take i s +:+ new +:+ drop (i + String.length pat) s.
Proof.
  intros Hd Hi. rewrite (replace_at _ _ _ _ Hi).
  now rewrite getSubstitution_literal.
Qed.

Lemma replace_absent (pat template s : string) :
  includes pat s = false -> replace pat template s = s.
Proof.
  intros Hn. unfold replace. destruct (indexOf pat s) as [i|] eqn:Hi; [|reflexivity].
  assert (includes pat s = true) by (apply includes_indexOf; eauto). congruence.
Qed.

Lemma replace_nil (template s : string) :
  replace "" template s = getSubstitution "" "" s template +:+ s.
Proof. unfold replace. rewrite indexOf_nil. now destruct s. Qed.

Lemma replace_nil_literal (new s : string) :
  dollarFree new = true -> replace "" new s = new +:+ s.
Proof. intros Hd. rewrite replace_nil. now rewrite getSubstitution_literal. Qed.

(** ** Splitting and counting *)

Lemma split_scan_cons (sep : string) (c : ascii) (s : string) :
  split_scan sep 0 (String c s) =
    if String.prefix sep (String c s)
    then "" :: split_scan sep (String.length sep - 1) s
    else match split_scan sep 0 s with
         | piece :: pieces => String c piece :: pieces
         | [] => [String c ""]
         end.
Proof. reflexivity. Qed.

Lemma split_scan_nonempty (sep : string) (k : nat) (s : string) :
  split_scan sep k s <> [].
Proof.
  revert k; induction s as [|c s IH]; intros k; [discriminate|].
  destruct k as [|k]; [|apply IH].
  rewrite split_scan_cons.
  destruct (String.prefix sep (String c s)); [discriminate|].
  destruct (split_scan sep 0 s); discriminate.
Qed.

Lemma split_scan_skip (sep : string) (k : nat) (s : string) :
  split_scan sep k s = split_scan sep 0 (drop k s).
Proof.
  revert k; induction s as [|c s IH]; intros [|k]; try reflexivity.
  apply IH.
Qed.

(** The scan, unfolded at the first occurrence of the separator: the
    piece before it, then the scan of what follows it. *)
Lemma split_scan_at (sep s : string) (i : nat) :
  sep <> "" ->
  indexOf sep s = Some i ->
  split_scan sep 0 s =
    take i s :: split_scan sep 0 (drop (i + String.length sep) s).
Proof.
  intros Hsep. revert i; induction s as [|c s IH]; intros i Hi.
  - destruct sep; [congruence|discriminate].
  - rewrite indexOf_cons in Hi. rewrite split_scan_cons.
    destruct (String.prefix sep (String c s)) eqn:Hp.
    + injection Hi as <-. change (take 0 (String c s)) with "". f_equal.
      rewrite split_scan_skip. f_equal.
      destruct sep as [|a sep]; [congruence|]. simpl. now rewrite Nat.sub_0_r.
    + destruct (indexOf sep s) as [k|] eqn:Hk; [|discriminate].
      injection Hi as <-. rewrite (IH k eq_refl). reflexivity.
Qed.

Lemma split_scan_absent (sep s : string) :
  indexOf sep s = None -> split_scan sep 0 s = [s].
Proof.
  induction s as [|c s IH]; intros Hi; [reflexivity|].
  rewrite indexOf_cons in Hi. rewrite split_scan_cons.
  destruct (String.prefix sep (String c s)); [discriminate|].
  destruct (indexOf sep s); [discriminate|]. now rewrite IH.
Qed.

(** The pieces of a split by a one-character separator do not contain it. *)
Lemma split_scan_char (a : ascii) (s : string) :
  Forall (fun piece => slashFreeOf a piece = true)
         (split_scan (String a "") 0 s).
Proof.
  induction s as [|c s IH].
  - repeat constructor.
  - rewrite split_scan_cons.
    change (String.prefix (String a "") (String c s))
      with (if ascii_dec a c then String.prefix "" s else false).
    destruct (ascii_dec a c) as [->|Hne].
    + rewrite prefix_nil. constructor; [reflexivity|exact IH].
    + destruct (split_scan (String a "") 0 s) as [|piece pieces] eqn:E.
      * now destruct (split_scan_nonempty (String a "") 0 s).
      * inversion IH as [|? ? Hpiece Hrest]; subst.
        constructor; [|exact Hrest].
        simpl. rewrite Hpiece.
        destruct (Ascii.eqb_spec c a); [congruence|reflexivity].
Qed.

End JsStringFacts.

(** * Facts about the import extractor *)

Module ImportsFacts.
Import JsString JsStringFacts Imports.

Lemma properSegment_removelast (l : list string) :
  Forall properSegment l -> Forall properSegment (removelast l).
Proof.
  induction 1 as [|x l Hx Hl IH]; [constructor|].
  destruct l as [|y l]; [constructor|].
  change (removelast (x :: y :: l)) with (x :: removelast (y :: l)).
  now constructor.
Qed.

(** A turn of the resolution loop keeps the resolved segments proper. *)
Lemma resolveStep_proper (resolved : list string) (part : string) :
  slashFree part = true ->
  Forall properSegment resolved ->
  Forall properSegment (resolveStep resolved part).
Proof.
  intros Hpart Hres. unfold resolveStep.
  destruct (String.eqb_spec part "..") as [->|Hdd].
  - now apply properSegment_removelast.
  - destruct (String.eqb_spec part ".") as [->|Hd]; [assumption|].
    destruct (String.eqb_spec part "") as [->|He]; [assumption|].
    simpl. apply Forall_app; split; [assumption|].
    constructor; [|constructor]. repeat split; assumption.
Qed.

Lemma resolve_proper (parts resolved : list string) :
  Forall (fun p => slashFree p = true) parts ->
  Forall properSegment resolved ->
  Forall properSegment (fold_left resolveStep parts resolved).
Proof.
  revert resolved; induction parts as [|p parts IH]; intros resolved Hp Hr.
  - exact Hr.
  - inversion Hp; subst. simpl. apply IH; [assumption|].
    now apply resolveStep_proper.
Qed.

Lemma split_slash_free (s : string) :
  Forall (fun p => slashFree p = true) (split "/" s).
Proof. exact (split_scan_char "/" s). Qed.

(** A path joined from proper segments starts neither with [./], nor with
    [../], nor with [/]. *)
Lemma join_proper_dropped (segments : list string) :
  Forall properSegment segments -> keepImport (join "/" segments) = false.
Proof.
  intros Hs. destruct Hs as [|seg rest (Hne & Hd & Hdd & Hsf) _]; [reflexivity|].
  assert (Htail : exists tail, join "/" (seg :: rest) = seg +:+ tail
                               /\ (tail = "" \/ exists t, tail = String "/" t)).
  { destruct rest as [|r rest].
    - exists "". split; [now rewrite append_nil_r|now left].
    - exists ("/" +:+ join "/" (r :: rest)). split; [reflexivity|right; eauto]. }
  destruct Htail as (tail & -> & Htail).
  unfold slashFree in Hsf. unfold keepImport, startsWith.
  destruct seg as [|c seg]; [congruence|].
  rewrite slashFreeOf_cons in Hsf. apply andb_prop in Hsf as [Hc Hsf].
  rewrite append_cons, !prefix_cons.
  destruct (Ascii.eqb_spec "/" c) as [<-|_]; [discriminate|].
  destruct (Ascii.eqb_spec "." c) as [<-|_]; [|reflexivity].
  destruct seg as [|d seg].
  { congruence. }
  rewrite slashFreeOf_cons in Hsf. apply andb_prop in Hsf as [Hd' Hsf].
  rewrite append_cons, !prefix_cons.
  destruct (Ascii.eqb_spec "/" d) as [<-|_]; [discriminate|].
  destruct (Ascii.eqb_spec "." d) as [<-|_]; [|reflexivity].
  destruct seg as [|e seg].
  { congruence. }
  rewrite slashFreeOf_cons in Hsf. apply andb_prop in Hsf as [He Hsf].
  rewrite append_cons, !prefix_cons.
  destruct (Ascii.eqb_spec "/" e) as [<-|_]; [discriminate|reflexivity].
Qed.

(** The resolution of a relative reference never passes the filter. *)
Lemma resolved_relative_dropped (raw currentPath : string) :
  isRelative raw = true ->
  keepImport (resolveImportPath raw currentPath) = false.
Proof.
  intros Hrel. unfold resolveImportPath. rewrite Hrel.
  apply join_proper_dropped, resolve_proper; [|constructor].
  apply Forall_app; split; apply split_slash_free.
Qed.

Lemma relative_not_absolute (raw : string) :
  isRelative raw = true -> startsWith "/" raw = false.
Proof.
  unfold isRelative, startsWith. destruct raw as [|c raw]; [discriminate|].
  rewrite !prefix_cons.
  destruct (Ascii.eqb_spec "." c) as [<-|_]; [reflexivity|discriminate].
Qed.

(** What passes the filter is a reference written with a leading slash,
    unchanged. *)
Lemma kept_reference (raw currentPath : string) :
  keepImport (resolveImportPath raw currentPath) = startsWith "/" raw
  /\ (startsWith "/" raw = true -> resolveImportPath raw currentPath = raw).
Proof.
  destruct (isRelative raw) eqn:Hrel.
  - rewrite resolved_relative_dropped, relative_not_absolute by assumption.
    split; [reflexivity|discriminate].
  - unfold resolveImportPath. rewrite Hrel. split; [|reflexivity].
    unfold keepImport. unfold isRelative in Hrel. now rewrite Hrel.
Qed.

(** [parseImports] returns the references written with a leading slash,
    as they are written, and nothing else; the path of the file that holds
    them plays no part. *)
Theorem parseImports_absolute_only (content currentPath : string) :
  parseImports content currentPath =
    List.filter (startsWith "/") (rawReferences content).
Proof.
  unfold parseImports. induction (rawReferences content) as [|raw raws IH].
  - reflexivity.
  - simpl. destruct (kept_reference raw currentPath) as [Hk Hsame].
    rewrite Hk. destruct (startsWith "/" raw) eqn:Habs.
    + rewrite Hsame by reflexivity. now rewrite IH.
    + exact IH.
Qed.

Corollary parseImports_no_relative (content currentPath raw : string) :
  isRelative raw = true ->
  ~ In (resolveImportPath raw currentPath) (parseImports content currentPath).
Proof.
  intros Hrel Hin. rewrite parseImports_absolute_only in Hin.
  apply filter_In in Hin as [_ Habs].
  destruct (kept_reference raw currentPath) as [Hk _].
  rewrite resolved_relative_dropped in Hk by assumption.
  assert (Hkeep : keepImport (resolveImportPath raw currentPath) = true).
  { unfold keepImport. rewrite Habs. now rewrite !orb_true_r. }
  rewrite resolved_relative_dropped in Hkeep by assumption. discriminate.
Qed.

(** Bare module names are dropped. *)
Example bare_names_dropped :
  parseImports "import React from 'react'; const fs = require('fs')" "src/a.ts"
  = [].
Proof. vm_compute. reflexivity. Qed.

(** The resolver itself resolves against the directory of the owner. *)
Example resolve_parent :
  resolveImportPath "../d" "a/b/c.ts" = "a/d"
  /\ resolveImportPath "./pricing" "src/checkout.ts" = "src/pricing"
  /\ resolveImportPath "../../../x" "a/b.ts" = "x".
Proof. vm_compute. repeat split. Qed.

End ImportsFacts.

(** C2, at the owner path a/b/c.ts and a file that imports ../d. The
    extractor finds the reference and its resolution is a/d, as the claim
    says; but [parseImports] returns no path at all: its filter for
    relative references runs on the resolved path a/d, which no longer
    starts with a dot. *)
Theorem parseImports_drops_resolved_reference :
  Imports.rawReferences "import x from '../d'" = ["../d"]
  /\ Imports.resolveImportPath "../d" "a/b/c.ts" = "a/d"
  /\ Imports.parseImports "import x from '../d'" "a/b/c.ts" = [].
Proof. vm_compute. repeat split. Qed.

(** * Facts about the edit applier ([applyStrReplace]) *)

Module EditFacts.
Import JsString JsStringFacts GitHub Spec.

(** ** The occurrence count *)

Lemma indexOf_drop_shorter (x s : string) (i : nat) :
  x <> "" ->
  indexOf x s = Some i ->
  String.length (drop (i + String.length x) s) < String.length s.
Proof.
  intros Hx Hi. destruct (indexOf_Some _ _ _ Hi) as (Heq & _ & _).
  apply (f_equal String.length) in Heq. rewrite !append_length in Heq.
  destruct x as [|a x]; [congruence|]. simpl in *. lia.
Qed.

Lemma split_scan_count (x : string) (fuel : nat) (s : string) :
  x <> "" ->
  String.length s < fuel ->
  length (split_scan x 0 s) = S (countFrom fuel x s).
Proof.
  intros Hx. revert s; induction fuel as [|fuel IH]; intros s Hlen; [lia|].
  simpl countFrom. destruct (indexOf x s) as [i|] eqn:Hi.
  - rewrite (split_scan_at _ _ _ Hx Hi). simpl. f_equal. apply IH.
    pose proof (indexOf_drop_shorter _ _ _ Hx Hi). lia.
  - now rewrite (split_scan_absent _ _ Hi).
Qed.

(** For a non-empty text, the count that [applyStrReplace] computes from
    the pieces of [split] is the literal count without overlap. *)
Lemma occurrences_count (x s : string) :
  x <> "" -> occurrences x s = Z.of_nat (nonOverlappingCount x s).
Proof.
  intros Hx. unfold occurrences, nonOverlappingCount, split.
  destruct x as [|a x]; [congruence|].
  rewrite (split_scan_count _ (S (String.length s))); [lia|discriminate|lia].
Qed.

Lemma count_includes (x s : string) :
  x <> "" -> (includes x s = true <-> 1 <= nonOverlappingCount x s).
Proof.
  intros Hx. unfold nonOverlappingCount. simpl countFrom.
  rewrite includes_indexOf. destruct (indexOf x s) as [i|].
  - split; [lia|eauto].
  - split; [intros [i Hi]; discriminate|lia].
Qed.

(** For the empty text the count is the length of the content less one. *)
Lemma occurrences_nil (s : string) :
  occurrences "" s = (Z.of_nat (String.length s) - 1)%Z.
Proof. unfold occurrences, split. now rewrite units_length. Qed.

(** ** The three outcomes *)

Section Applier.
Context {W : Type} `{Octokit W}.

Lemma applyStrReplace_fetch_failed p oldStr newStr branch (w w1 : W) e :
  getFileContent p branch w = (Throw e, w1) ->
  applyStrReplace p oldStr newStr branch w = (Return (failed e), w1).
Proof.
  intros Hf. unfold applyStrReplace, tryCatch, bind. now rewrite Hf.
Qed.

Lemma applyStrReplace_not_found p oldStr newStr branch (w w1 : W) file :
  getFileContent p branch w = (Return file, w1) ->
  includes oldStr (content file) = false ->
  applyStrReplace p oldStr newStr branch w =
    (Return (failed (notFoundError p)), w1).
Proof.
  intros Hf Hn. unfold applyStrReplace, tryCatch, bind.
  rewrite Hf. cbn. now rewrite Hn.
Qed.

Lemma applyStrReplace_ambiguous p oldStr newStr branch (w w1 : W) file :
  getFileContent p branch w = (Return file, w1) ->
  includes oldStr (content file) = true ->
  (1 < occurrences oldStr (content file))%Z ->
  applyStrReplace p oldStr newStr branch w =
    (Return (failed (ambiguousError (occurrences oldStr (content file)) p)), w1).
Proof.
  intros Hf Hi Hn. unfold applyStrReplace, tryCatch, bind.
  rewrite Hf. cbn. rewrite Hi. cbn.
  destruct (Z.ltb_spec 1 (occurrences oldStr (content file))); [reflexivity|lia].
Qed.

Lemma applyStrReplace_write p oldStr newStr branch (w w1 : W) file :
  getFileContent p branch w = (Return file, w1) ->
  includes oldStr (content file) = true ->
  (occurrences oldStr (content file) <= 1)%Z ->
  applyStrReplace p oldStr newStr branch w =
    match repos_createOrUpdateFileContents
            (editRequest p oldStr newStr branch file) w1 with
    | (Return _, w2) => (Return succeeded, w2)
    | (Throw e, w2) => (Return (failed e), w2)
    end.
Proof.
  intros Hf Hi Hn. unfold applyStrReplace, tryCatch, bind.
  rewrite Hf. cbn. rewrite Hi. cbn.
  destruct (Z.ltb_spec 1 (occurrences oldStr (content file))); [lia|].
  unfold updateFile, editRequest.
  now destruct (repos_createOrUpdateFileContents _ w1) as [[[]|e] w2].
Qed.

(** [applyStrReplace] never throws. *)
Lemma applyStrReplace_returns p oldStr newStr branch (w : W) :
  exists r w', applyStrReplace p oldStr newStr branch w = (Return r, w').
Proof.
  unfold applyStrReplace, tryCatch.
  destruct (bind _ _ w) as [[r|e] w']; eauto.
Qed.

(** X9. With a replacement text that has no dollar sign, and a search text
    that occurs once, the content written is the fetched content with
    that occurrence (the first position at which the search text is found)
    replaced by the replacement text, and the write carries the blob hash
    that was fetched with the content. *)
Theorem applyStrReplace_unique_literal
    p oldStr newStr branch (w w1 : W) file :
  getFileContent p branch w = (Return file, w1) ->
  oldStr <> "" ->
  nonOverlappingCount oldStr (content file) = 1 ->
  dollarFree newStr = true ->
  exists before after,
    content file = before +:+ oldStr +:+ after
    /\ (forall j, j < String.length before ->
                  String.prefix oldStr (drop j (content file)) = false)
    /\ applyStrReplace p oldStr newStr branch w =
         match repos_createOrUpdateFileContents
                 {| wr_path := p; wr_message := "Edit " +:+ p;
                    wr_content := before +:+ newStr +:+ after;
                    wr_branch := branch; wr_sha := Some (sha file) |} w1 with
         | (Return _, w2) => (Return succeeded, w2)
         | (Throw e, w2) => (Return (failed e), w2)
         end.
Proof.
  intros Hf Hx Hc Hd.
  assert (Hinc : includes oldStr (content file) = true).
  { apply count_includes; [assumption|lia]. }
  destruct (proj1 (includes_indexOf _ _) Hinc) as [i Hi].
  destruct (indexOf_Some _ _ _ Hi) as (Heq & _ & Hfirst).
  exists (take i (content file)),
         (drop (i + String.length oldStr) (content file)).
  split; [exact Heq|]. split.
  - intros j Hj. apply Hfirst. pose proof (take_length_le i (content file)). lia.
  - rewrite (applyStrReplace_write _ _ _ _ _ _ _ Hf Hinc).
    + unfold editRequest. now rewrite (replace_literal _ _ _ _ Hd Hi).
    + rewrite occurrences_count by assumption. lia.
Qed.

(** X11. The empty search text is never reported as not found: with content of
    three code units or more the edit fails as ambiguous, with a count of
    the length of the content less one; with shorter content the edit goes
    on to the write. *)
Theorem applyStrReplace_nil_long p newStr branch (w w1 : W) file :
  getFileContent p branch w = (Return file, w1) ->
  3 <= String.length (content file) ->
  applyStrReplace p "" newStr branch w =
    (Return (failed (ambiguousError
                       (Z.of_nat (String.length (content file)) - 1) p)), w1).
Proof.
  intros Hf Hlen. rewrite <- occurrences_nil.
  apply applyStrReplace_ambiguous; [assumption|apply includes_nil|].
  rewrite occurrences_nil. lia.
Qed.

(** X12. With the empty search text and content of at most two code units,
    the edit goes on to the write; for a replacement text without a dollar
    sign the content written is the replacement text followed by the
    fetched content. *)
Theorem applyStrReplace_nil_short p newStr branch (w w1 : W) file :
  getFileContent p branch w = (Return file, w1) ->
  String.length (content file) <= 2 ->
  dollarFree newStr = true ->
  applyStrReplace p "" newStr branch w =
    match repos_createOrUpdateFileContents
            {| wr_path := p; wr_message := "Edit " +:+ p;
               wr_content := newStr +:+ content file;
               wr_branch := branch; wr_sha := Some (sha file) |} w1 with
    | (Return _, w2) => (Return succeeded, w2)
    | (Throw e, w2) => (Return (failed e), w2)
    end.
Proof.
  intros Hf Hlen Hd.
  rewrite (applyStrReplace_write _ _ _ _ _ _ _ Hf (includes_nil _)).
  - unfold editRequest. now rewrite replace_nil_literal.
  - rewrite occurrences_nil. lia.
Qed.

End Applier.
End EditFacts.

(** ** The applier on the in-memory repository

    The file h.ts holds abcab: c occurs once, ab twice, z not at all. *)

Module EditExamples.
Import Examples.

Example edit_once :
  let run := GitHub.applyStrReplace "h.ts" "c" "X" "main" worldEdit in
  run.1 = Return succeeded
  /\ Mem.written run.2 =
       [ {| wr_path := "h.ts"; wr_message := "Edit h.ts";
            wr_content := "abXab"; wr_branch := "main";
            wr_sha := Some (Mem.blobOf "abcab") |} ].
Proof. vm_compute. split; reflexivity. Qed.

Example edit_twice :
  let run := GitHub.applyStrReplace "h.ts" "ab" "X" "main" worldEdit in
  run.1 = Return (failed (GitHub.ambiguousError 2 "h.ts"))
  /\ Mem.written run.2 = [].
Proof. vm_compute. split; reflexivity. Qed.

Example edit_absent :
  let run := GitHub.applyStrReplace "h.ts" "z" "X" "main" worldEdit in
  run.1 = Return (failed (GitHub.notFoundError "h.ts"))
  /\ Mem.written run.2 = [].
Proof. vm_compute. split; reflexivity. Qed.

Example edit_missing_file :
  (GitHub.applyStrReplace "nowhere.ts" "z" "X" "main" worldEdit).1
  = Return (failed "Not Found").
Proof. vm_compute. reflexivity. Qed.

End EditExamples.

(** C3, at a file f.ts with the content abc, the search text b and the
    replacement text [$&]. The search text occurs once, the edit succeeds
    and one write is made, with the fetched blob hash; but the content
    written is abc, not the content with b replaced by the replacement
    text: [String.prototype.replace] expands the dollar patterns of its
    replacement argument, and [$&] stands for the matched text. *)
Theorem applyStrReplace_expands_replacement_patterns :
  let run := GitHub.applyStrReplace "f.ts" "b" "$&" "main" Examples.worldEdit in
  GitHub.occurrences "b" "abc" = 1%Z
  /\ run.1 = Return succeeded
  /\ Mem.written run.2 =
       [ {| wr_path := "f.ts"; wr_message := "Edit f.ts"; wr_content := "abc";
            wr_branch := "main"; wr_sha := Some (Mem.blobOf "abc") |} ]
  /\ "abc" <> "a" +:+ "$&" +:+ "c".
Proof. vm_compute. repeat split. discriminate. Qed.

(** C10, at a file g.ts with the content ab (two code units), the empty
    search text and the replacement text [$$]. The edit is not reported as
    not found and succeeds, as the claim says; but the content written is
    [$ab], not the replacement text followed by the content: the
    replacement text goes through the expansion of dollar patterns, the
    defect shown for C3. *)
Theorem applyStrReplace_nil_expands_replacement_patterns :
  let run := GitHub.applyStrReplace "g.ts" "" "$$" "main" Examples.worldEdit in
  run.1 = Return succeeded
  /\ map wr_content (Mem.written run.2) = [ "$ab" ]
  /\ "$ab" <> "$$" +:+ "ab".
Proof. vm_compute. repeat split. discriminate. Qed.

(** * Facts about the loader *)

Module LoaderFacts.
Import JsString Loader.

Section Loading.
Context {W : Type} `{Octokit W}.
Variables (branch : string) (maxDepth : nat).

#[local] Abbreviation resume := (Loader.resume branch maxDepth).
#[local] Abbreviation complete := (Loader.complete branch maxDepth).
#[local] Abbreviation steps := (Loader.steps branch maxDepth).
#[local] Abbreviation runSchedule := (Loader.runSchedule branch maxDepth).
#[local] Abbreviation runInOrder := (Loader.runInOrder branch maxDepth).

(** ** Runs are sequences of steps *)

Lemma steps_trans (a b c : State W) : steps a b -> steps b c -> steps a c.
Proof. induction 1; [auto|]. intros Hc. econstructor; eauto. Qed.

Lemma runSchedule_steps schedule (st st' : State W) :
  runSchedule schedule st = Some st' -> steps st st'.
Proof.
  revert st; induction schedule as [|i schedule IH]; intros st Hrun.
  - injection Hrun as <-. constructor.
  - cbn in Hrun. destruct (complete i st) as [st1|] eqn:Hc; [|discriminate].
    econstructor; [exists i; exact Hc|]. now apply IH.
Qed.

Lemma runInOrder_steps fuel (st st' : State W) :
  runInOrder fuel st = Some st' -> steps st st' /\ inflight st' = [].
Proof.
  revert st; induction fuel as [|fuel IH]; intros st Hrun; cbn in Hrun.
  - destruct (inflight st) eqn:Hi; [|discriminate].
    injection Hrun as <-. split; [constructor|exact Hi].
  - destruct (inflight st) eqn:Hi.
    + injection Hrun as <-. split; [constructor|exact Hi].
    + destruct (complete 0 st) as [st1|] eqn:Hc; [|discriminate].
      destruct (IH _ Hrun) as [Hs He]. split; [|exact He].
      econstructor; [exists 0; exact Hc|exact Hs].
Qed.

(** ** Exploring all runs *)

Lemma gather_elem {A} (parts : list (option (list A))) (all l : list A) (x : A) :
  Loader.gather parts = Some all -> In (Some l) parts -> In x l -> In x all.
Proof.
  revert all; induction parts as [|part parts IH]; intros all Hg Hin Hx.
  - destruct Hin.
  - cbn in Hg. destruct part as [l0|]; [|discriminate].
    destruct (Loader.gather parts) as [ls|] eqn:Hls; [|discriminate].
    injection Hg as <-. apply in_or_app.
    destruct Hin as [Heq|Hin].
    + injection Heq as ->. now left.
    + right. now apply IH.
Qed.

Lemma gather_total {A} (parts : list (option (list A))) (all : list A) :
  Loader.gather parts = Some all -> ~ In None parts.
Proof.
  revert all; induction parts as [|part parts IH]; intros all Hg Hin.
  - destruct Hin.
  - cbn in Hg. destruct part as [l0|]; [|discriminate].
    destruct (Loader.gather parts) as [ls|] eqn:Hls; [|discriminate].
    destruct Hin as [Heq|Hin]; [discriminate|]. now apply (IH ls).
Qed.

Lemma complete_position i (st st1 : State W) :
  complete i st = Some st1 -> i < length (inflight st).
Proof.
  unfold Loader.complete. destruct (inflight st !! i) eqn:Hl; [|discriminate].
  intros _. eapply lookup_lt_Some. exact Hl.
Qed.

(** [finals] misses no run: a state without a fetch in flight, reached by
    steps, is among the states it lists. *)
Lemma finals_complete fuel (st st' : State W) (all : list (State W)) :
  Loader.finals branch maxDepth fuel st = Some all ->
  steps st st' -> inflight st' = [] -> In st' all.
Proof.
  revert st all; induction fuel as [|fuel IH]; intros st all Hf Hs Hdone.
  - cbn in Hf. destruct (inflight st) eqn:Hi; [|discriminate].
    injection Hf as <-. inversion Hs as [|? st1 ? [i Hc] _]; subst.
    + now left.
    + apply complete_position in Hc. rewrite Hi in Hc. cbn in Hc. lia.
  - inversion Hs as [|? st1 ? [i Hc] Hs1]; subst.
    + cbn in Hf. rewrite Hdone in Hf. injection Hf as <-. now left.
    + pose proof (complete_position _ _ _ Hc) as Hlt.
      cbn in Hf. destruct (inflight st) as [|t ts] eqn:Hi; [cbn in Hlt; lia|].
      set (next := fun i => match complete i st with
                            | Some st' => Loader.finals branch maxDepth fuel st'
                            | None => Some []
                            end) in Hf.
      assert (Hin : In (next i) (map next (seq 0 (length (t :: ts))))).
      { apply in_map, in_seq. lia. }
      unfold next at 1 in Hin. rewrite Hc in Hin.
      destruct (Loader.finals branch maxDepth fuel st1) as [l1|] eqn:Hl1.
      * eapply gather_elem; [exact Hf|exact Hin|]. exact (IH _ _ Hl1 Hs1 Hdone).
      * exfalso. exact (gather_total _ _ Hf Hin).
Qed.

(** A property checked on the states that [finals] lists holds at the end
    of every run. *)
Lemma finals_check (check : State W -> bool) fuel (st st' : State W) :
  match Loader.finals branch maxDepth fuel st with
  | Some all => forallb check all
  | None => false
  end = true ->
  steps st st' -> inflight st' = [] -> check st' = true.
Proof.
  destruct (Loader.finals branch maxDepth fuel st) as [all|] eqn:Hf;
    [|discriminate].
  intros Hall Hs Hdone.
  apply (proj1 (List.forallb_forall check all) Hall).
  eapply finals_complete; eassumption.
Qed.

(** ** The visited set *)

(** A spelling that is in [loaded] is not fetched again: the invocation
    returns at once. *)
Lemma probe_loaded p rest depth (st : State W) :
  p ∈ loaded st -> probe (p :: rest) depth st = st.
Proof.
  intros Hp. unfold probe. now rewrite (bool_decide_eq_true_2 _ Hp).
Qed.

(** A spelling that is not in [loaded] is fetched, also when a fetch of
    the same spelling is already in flight. *)
Lemma probe_not_loaded p rest depth (st : State W) :
  p ∉ loaded st ->
  requested (probe (p :: rest) depth st) = requested st ++ [p]
  /\ inflight (probe (p :: rest) depth st) =
       inflight st ++ [{| t_path := p; t_rest := rest; t_depth := depth |}].
Proof.
  intros Hp. unfold probe. now rewrite (bool_decide_eq_false_2 _ Hp).
Qed.

(** ** The invocations that a step makes *)

Lemma probe_calls candidates depth (st : State W) :
  calls (probe candidates depth st) = calls st.
Proof.
  unfold probe. destruct candidates as [|p rest]; [reflexivity|].
  now destruct (bool_decide (p ∈ loaded st)).
Qed.

Lemma loadFile_calls p depth (st : State W) :
  calls (loadFile p depth st) = calls st ++ [(p, depth)].
Proof. unfold loadFile. now rewrite probe_calls. Qed.

Lemma loadAll_cons p paths depth (st : State W) :
  loadAll (p :: paths) depth st = loadAll paths depth (loadFile p depth st).
Proof. reflexivity. Qed.

Lemma loadAll_calls paths depth (st : State W) :
  calls (loadAll paths depth st) = calls st ++ map (fun p => (p, depth)) paths.
Proof.
  revert st; induction paths as [|p paths IH]; intros st.
  - cbn. now rewrite app_nil_r.
  - rewrite loadAll_cons, IH, loadFile_calls. cbn. now rewrite <- app_assoc.
Qed.

(** A fetched file below the depth bound: every import that
    [parseImports] extracts from it is passed to [loadFile], one level
    deeper. *)
Lemma resume_below_bound (t : Task) (st : State W) file w' :
  GitHub.getFileContent (t_path t) branch (world st) = (Return file, w') ->
  t_depth t < maxDepth ->
  calls (resume t st) =
    calls st ++ map (fun imp => (imp, t_depth t + 1))
                    (Imports.parseImports (content file) (t_path t)).
Proof.
  intros Hf Hd. unfold Loader.resume. rewrite Hf.
  destruct (Nat.ltb_spec (t_depth t) maxDepth); [|lia].
  now rewrite loadAll_calls.
Qed.

(** A fetched file at the depth bound: it is recorded, and nothing else
    happens; its content is not even parsed. *)
Lemma resume_at_bound (t : Task) (st : State W) file w' :
  GitHub.getFileContent (t_path t) branch (world st) = (Return file, w') ->
  maxDepth <= t_depth t ->
  resume t st =
    {| world := w';
       loaded := {[ t_path t ]} ∪ loaded st;
       files := files st ++ [file];
       inflight := inflight st;
       requested := requested st;
       calls := calls st |}.
Proof.
  intros Hf Hd. unfold Loader.resume. rewrite Hf.
  destruct (Nat.ltb_spec (t_depth t) maxDepth); [lia|reflexivity].
Qed.

(** ** The depth bound as an invariant *)

#[local] Abbreviation bounded := (Spec.bounded maxDepth).

Lemma probe_bounded candidates depth (st : State W) :
  depth <= maxDepth -> bounded st -> bounded (probe candidates depth st).
Proof.
  intros Hd [Hi Hc]. unfold probe. destruct candidates as [|p rest]; [now split|].
  destruct (bool_decide (p ∈ loaded st)); [now split|].
  split; cbn; [|exact Hc]. apply Forall_app; split; [exact Hi|].
  now repeat constructor.
Qed.

Lemma loadFile_bounded p depth (st : State W) :
  depth <= maxDepth -> bounded st -> bounded (loadFile p depth st).
Proof.
  intros Hd [Hi Hc]. unfold loadFile. apply probe_bounded; [exact Hd|].
  split; cbn; [exact Hi|]. apply Forall_app; split; [exact Hc|].
  now repeat constructor.
Qed.

Lemma loadAll_bounded paths depth (st : State W) :
  depth <= maxDepth -> bounded st -> bounded (loadAll paths depth st).
Proof.
  intros Hd. revert st; induction paths as [|p paths IH]; intros st Hb.
  - exact Hb.
  - rewrite loadAll_cons. apply IH. now apply loadFile_bounded.
Qed.

Lemma complete_bounded i (st st' : State W) :
  bounded st -> complete i st = Some st' -> bounded st'.
Proof.
  intros [Hi Hc] Hstep. unfold Loader.complete in Hstep.
  destruct (inflight st !! i) as [t|] eqn:Ht; [|discriminate].
  injection Hstep as <-.
  assert (Htd : t_depth t <= maxDepth).
  { rewrite Forall_forall in Hi. apply Hi.
    eapply list_elem_of_lookup_2. exact Ht. }
  assert (Hrest : Forall (fun t => t_depth t <= maxDepth) (delete i (inflight st))).
  { now apply Forall_delete. }
  unfold Loader.resume. cbn [world loaded files inflight requested calls].
  destruct (GitHub.getFileContent (t_path t) branch (world st)) as [[file|e] w'].
  - destruct (Nat.ltb_spec (t_depth t) maxDepth).
    + apply loadAll_bounded; [lia|]. now split.
    + now split.
  - apply probe_bounded; [exact Htd|]. now split.
Qed.

(** X5. No invocation of [loadFile] is ever made deeper than [maxDepth]. *)
Theorem depth_bounded entryPaths (w : W) (st : State W) :
  steps (start entryPaths w) st ->
  Forall (fun c => c.2 <= maxDepth) (calls st).
Proof.
  intros Hsteps.
  assert (Hb : bounded (start entryPaths w)).
  { apply loadAll_bounded; [lia|]. split; constructor. }
  assert (Hinv : forall a b, steps a b -> bounded a -> bounded b).
  { induction 1 as [|a b c [i Hi] _ IH]; [auto|].
    intros Ha. apply IH. eapply complete_bounded; eassumption. }
  exact (proj2 (Hinv _ _ Hsteps Hb)).
Qed.


(** The three parts of the expansion policy. *)
Lemma expansion_policy :
  (forall entryPaths (w : W),
      calls (start entryPaths w) = map (fun p => (p, 0)) entryPaths)
  /\ (forall (t : Task) (st : State W) file w',
        GitHub.getFileContent (t_path t) branch (world st) = (Return file, w') ->
        t_depth t < maxDepth ->
        calls (resume t st) =
          calls st ++ map (fun imp => (imp, t_depth t + 1))
                          (Imports.parseImports (content file) (t_path t)))
  /\ (forall (t : Task) (st : State W) file w',
        GitHub.getFileContent (t_path t) branch (world st) = (Return file, w') ->
        maxDepth <= t_depth t ->
        resume t st =
          {| world := w';
             loaded := {[ t_path t ]} ∪ loaded st;
             files := files st ++ [file];
             inflight := inflight st;
             requested := requested st;
             calls := calls st |}).
Proof.
  split; [|split].
  - intros entryPaths w. unfold start. now rewrite loadAll_calls.
  - apply resume_below_bound.
  - apply resume_at_bound.
Qed.

End Loading.
End LoaderFacts.

(** ** Runs on the example repositories *)

Module Runs.
Import JsString Loader Examples.

(** In the repository of [worldTwice], whatever the order in which the
    fetches complete, the file /c.ts is returned twice. *)
Lemma every_run_returns_duplicate (fs : list RepoFile) :
  Loader.returns "main" 2 ["a.ts"] worldTwice fs ->
  map path fs = ["a.ts"; "/c.ts"; "/c.ts"].
Proof.
  intros (st & Hs & Hdone & <-).
  refine (proj1 (bool_decide_eq_true _) _).
  apply (LoaderFacts.finals_check "main" 2
           (fun st => bool_decide (map path (files st) = ["a.ts"; "/c.ts"; "/c.ts"]))
           3 (start ["a.ts"] worldTwice) st); [|exact Hs|exact Hdone].
  vm_compute. reflexivity.
Qed.

(** C4, at the seed a.ts, whose text imports /c.ts on two lines, with
    maxDepth 2. When the fetch of a.ts completes, [loadFile] is started for
    both imports before either fetch of /c.ts has completed: [loaded] does
    not hold /c.ts yet, so the path is fetched twice, and the list returned
    holds two records with the path /c.ts. *)
Theorem same_path_fetched_twice :
  option_map requested (Loader.complete "main" 2 0 (start ["a.ts"] worldTwice))
  = Some ["a.ts"; "/c.ts"; "/c.ts"]
  /\ option_map (fun st => map path (files st))
       (Loader.runInOrder "main" 2 3 (start ["a.ts"] worldTwice))
     = Some ["a.ts"; "/c.ts"; "/c.ts"]
  /\ ~ NoDup ["a.ts"; "/c.ts"; "/c.ts"].
Proof.
  split; [vm_compute; reflexivity|]. split; [vm_compute; reflexivity|].
  intros Hnd. inversion Hnd as [|? ? _ Hnd']; subst.
  inversion Hnd' as [|? ? Hnotin _]; subst. apply Hnotin. left.
Qed.

(** The cycle /p.ts -> /q.ts -> /p.ts with maxDepth 3: each file is
    fetched once, in every run. *)
Lemma cycle_fetched_once (st : State Mem.World) :
  Loader.steps "main" 3 (start ["/p.ts"] worldChain) st ->
  inflight st = [] ->
  requested st = ["/p.ts"; "/q.ts"] /\ map path (files st) = ["/p.ts"; "/q.ts"].
Proof.
  intros Hs Hdone. refine (proj1 (bool_decide_eq_true _) _).
  apply (LoaderFacts.finals_check "main" 3
           (fun st => bool_decide (requested st = ["/p.ts"; "/q.ts"]
                                   /\ map path (files st) = ["/p.ts"; "/q.ts"]))
           3 (start ["/p.ts"] worldChain) st); [|exact Hs|exact Hdone].
  vm_compute. reflexivity.
Qed.

(** With maxDepth 1, in every run from the seed /a.ts, the import /b of
    the seed is loaded (as /b.ts) and the import /c of /b.ts is not
    requested. *)
Lemma depth_one_stops (st : State Mem.World) :
  Loader.steps "main" 1 (start ["/a.ts"] worldChain) st ->
  inflight st = [] ->
  requested st = ["/a.ts"; "/b"; "/b.ts"]
  /\ map path (files st) = ["/a.ts"; "/b.ts"].
Proof.
  intros Hs Hdone. refine (proj1 (bool_decide_eq_true _) _).
  apply (LoaderFacts.finals_check "main" 1
           (fun st => bool_decide (requested st = ["/a.ts"; "/b"; "/b.ts"]
                                   /\ map path (files st) = ["/a.ts"; "/b.ts"]))
           3 (start ["/a.ts"] worldChain) st); [|exact Hs|exact Hdone].
  vm_compute. reflexivity.
Qed.

(** The expansion policy on the references that [parseImports] returns.
    Every seed is passed to [loadFile] at depth 0; when a file fetched at
    a depth below [maxDepth] arrives, every import extracted from it is
    passed to [loadFile] one level deeper; when a file fetched at depth
    [maxDepth] (or deeper) arrives, it is recorded and nothing else is
    done. With maxDepth 1, the seed /a.ts that imports /b, and /b.ts that
    imports /c: /b.ts is loaded, /c is never requested. *)
Theorem loader_depth_policy :
  (forall (W : Type) (O : Octokit W) (branch : string) (maxDepth : nat),
      (forall entryPaths (w : W),
          calls (start entryPaths w) = map (fun p => (p, 0)) entryPaths)
      /\ (forall (t : Task) (st : State W) file w',
            GitHub.getFileContent (t_path t) branch (world st)
              = (Return file, w') ->
            t_depth t < maxDepth ->
            calls (Loader.resume branch maxDepth t st) =
              calls st ++ map (fun imp => (imp, t_depth t + 1))
                              (Imports.parseImports (content file) (t_path t)))
      /\ (forall (t : Task) (st : State W) file w',
            GitHub.getFileContent (t_path t) branch (world st)
              = (Return file, w') ->
            maxDepth <= t_depth t ->
            Loader.resume branch maxDepth t st =
              {| world := w';
                 loaded := {[ t_path t ]} ∪ loaded st;
                 files := files st ++ [file];
                 inflight := inflight st;
                 requested := requested st;
                 calls := calls st |}))
  /\ option_map (fun st => (requested st, map path (files st)))
       (Loader.runInOrder "main" 1 3 (start ["/a.ts"] worldChain))
     = Some (["/a.ts"; "/b"; "/b.ts"], ["/a.ts"; "/b.ts"]).
Proof.
  split; [|vm_compute; reflexivity].
  intros W O branch maxDepth. apply LoaderFacts.expansion_policy.
Qed.

(** The policy on the chain: the seed, fetched at depth 0 below the bound
    1, has its import started at depth 1; /b.ts, fetched at the bound, is
    only recorded. *)
Lemma loader_depth_policy_witness :
  calls (Loader.resume "main" 1 seedTask (init worldChain)) = [("/b", 1)]
  /\ Loader.resume "main" 1 importTask (init worldChain) =
       {| world := worldChain;
          loaded := {[ "/b.ts" ]} ∪ ∅;
          files := [ {| path := "/b.ts"; content := "import c from '/c'";
                        sha := Mem.blobOf "import c from '/c'" |} ];
          inflight := []; requested := []; calls := [] |}.
Proof.
  destruct loader_depth_policy as [Hpolicy _].
  destruct (Hpolicy Mem.World Mem.octokit "main" 1) as (_ & Hbelow & Hbound).
  split.
  - apply (Hbelow seedTask (init worldChain)
             {| path := "/a.ts"; content := "import b from '/b'";
                sha := Mem.blobOf "import b from '/b'" |} worldChain).
    + vm_compute. reflexivity.
    + vm_compute. lia.
  - apply (Hbound importTask (init worldChain)
             {| path := "/b.ts"; content := "import c from '/c'";
                sha := Mem.blobOf "import c from '/c'" |} worldChain).
    + vm_compute. reflexivity.
    + vm_compute. lia.
Defined.

(** In the repository of [worldCheckout], whatever the bound, every run
    from the seed src/checkout.ts returns the seed alone. *)
Lemma every_run_returns_seed_only (maxDepth : nat) (fs : list RepoFile) :
  maxDepth = 1 \/ maxDepth = 2 ->
  Loader.returns "main" maxDepth ["src/checkout.ts"] MoreExamples.worldCheckout fs ->
  map path fs = ["src/checkout.ts"].
Proof.
  intros Hd (st & Hs & Hdone & <-).
  refine (proj1 (bool_decide_eq_true _) _).
  destruct Hd as [-> | ->].
  - apply (LoaderFacts.finals_check "main" 1
             (fun st => bool_decide (map path (files st) = ["src/checkout.ts"]))
             3 (start ["src/checkout.ts"] MoreExamples.worldCheckout) st);
      [|exact Hs|exact Hdone].
    vm_compute. reflexivity.
  - apply (LoaderFacts.finals_check "main" 2
             (fun st => bool_decide (map path (files st) = ["src/checkout.ts"]))
             3 (start ["src/checkout.ts"] MoreExamples.worldCheckout) st);
      [|exact Hs|exact Hdone].
    vm_compute. reflexivity.
Qed.

(** C5, at the seed src/checkout.ts, whose text imports ./pricing, in a
    repository that holds src/pricing.ts, with maxDepth 1 and with
    maxDepth 2. The extractor finds the reference, its resolution is
    src/pricing, and src/pricing.ts is one of the spellings that
    [loadFile] would try and can be fetched; but [parseImports] returns no
    path for the seed, so no invocation is made at depth 1: the only call
    of [loadFile] and the only request are for the seed, and the list
    returned holds the seed alone. The direct import of the seed is not
    loaded. *)
Theorem direct_relative_import_not_loaded :
  Imports.rawReferences MoreExamples.checkoutText = ["./pricing"]
  /\ Imports.resolveImportPath "./pricing" "src/checkout.ts" = "src/pricing"
  /\ In "src/pricing.ts" (possiblePaths "src/pricing")
  /\ GitHub.getFileContent "src/pricing.ts" "main" MoreExamples.worldCheckout
     = (Return MoreExamples.filePricing, MoreExamples.worldCheckout)
  /\ Imports.parseImports MoreExamples.checkoutText "src/checkout.ts" = []
  /\ option_map (fun st => (calls st, requested st, map path (files st)))
       (Loader.runInOrder "main" 1 3
          (start ["src/checkout.ts"] MoreExamples.worldCheckout))
     = Some ([("src/checkout.ts", 0)], ["src/checkout.ts"], ["src/checkout.ts"])
  /\ option_map (fun st => (calls st, requested st, map path (files st)))
       (Loader.runInOrder "main" 2 3
          (start ["src/checkout.ts"] MoreExamples.worldCheckout))
     = Some ([("src/checkout.ts", 0)], ["src/checkout.ts"], ["src/checkout.ts"])
  /\ (forall fs,
        Loader.returns "main" 1 ["src/checkout.ts"] MoreExamples.worldCheckout fs ->
        map path fs = ["src/checkout.ts"])
  /\ (forall fs,
        Loader.returns "main" 2 ["src/checkout.ts"] MoreExamples.worldCheckout fs ->
        map path fs = ["src/checkout.ts"]).
Proof.
  split; [vm_compute; reflexivity|]. split; [vm_compute; reflexivity|].
  split; [vm_compute; tauto|]. split; [vm_compute; reflexivity|].
  split; [vm_compute; reflexivity|]. split; [vm_compute; reflexivity|].
  split; [vm_compute; reflexivity|]. split.
  - intros fs. apply every_run_returns_seed_only. now left.
  - intros fs. apply every_run_returns_seed_only. now right.
Qed.

End Runs.

(** * Facts about the cost ledger *)

Module LedgerFacts.
Import Claude Examples.

(** The token counters add up: the counters of a usage are added to those
    of the ledger, whatever the costs. *)
Lemma updateCostTracker_counters (m : ModelKey) (u : Usage) (t : CostTracker) :
  tokensUsed (updateCostTracker m u t) =
    ChatRoute.addTokens (tokensUsed t) (ChatRoute.tokensOf u).
Proof. reflexivity. Qed.

(** Every cost total grows by the cost of the usage, in binary64. *)
Lemma updateCostTracker_costs (m : ModelKey) (u : Usage) (t : CostTracker) :
  sessionCost (updateCostTracker m u t) = (sessionCost t + calculateCost m u)%float
  /\ dailyCost (updateCostTracker m u t) = (dailyCost t + calculateCost m u)%float
  /\ monthlyCost (updateCostTracker m u t)
     = (monthlyCost t + calculateCost m u)%float.
Proof. repeat split. Qed.

(** C8, as stated, fails on the ledger that has recorded two input tokens:
    recording 5,2,0,0 and then 3,1,0,0 leaves a session cost that differs
    from the one left by recording 8,3,0,0 once (the binary64 sums round
    differently). *)
Lemma recording_twice_differs_in_cost :
  updateCostTracker Sonnet45 usage31
    (updateCostTracker Sonnet45 usage52 ledgerAfterTwoTokens)
  <> updateCostTracker Sonnet45 usage83 ledgerAfterTwoTokens.
Proof.
  intros Heq.
  apply (f_equal (fun t => PrimFloat.eqb (sessionCost t)
                   (sessionCost (updateCostTracker Sonnet45 usage83
                                   ledgerAfterTwoTokens)))) in Heq.
  vm_compute in Heq. discriminate.
Qed.

(** C8, amended. For every model and every starting ledger, recording
    5,2,0,0 and then 3,1,0,0 leaves the same four token counters as
    recording 8,3,0,0 once; and from cost totals of zero (a new ledger, with
    any counters) the two ledgers are equal in every field. *)
Theorem recording_twice_adds_counters (m : ModelKey) (t : CostTracker) :
  tokensUsed (updateCostTracker m usage31 (updateCostTracker m usage52 t))
  = tokensUsed (updateCostTracker m usage83 t)
  /\ updateCostTracker m usage31
       (updateCostTracker m usage52
          {| sessionCost := 0; dailyCost := 0; monthlyCost := 0;
             tokensUsed := tokensUsed t |})
     = updateCostTracker m usage83
         {| sessionCost := 0; dailyCost := 0; monthlyCost := 0;
            tokensUsed := tokensUsed t |}.
Proof.
  assert (Hcounters : forall t0,
    tokensUsed (updateCostTracker m usage31 (updateCostTracker m usage52 t0))
    = tokensUsed (updateCostTracker m usage83 t0)).
  { intros t0. rewrite !updateCostTracker_counters.
    unfold ChatRoute.addTokens. cbn. f_equal; lia. }
  split; [apply Hcounters|].
  specialize (Hcounters {| sessionCost := 0; dailyCost := 0; monthlyCost := 0;
                           tokensUsed := tokensUsed t |}).
  set (a := updateCostTracker m usage31 _) in *.
  set (b := updateCostTracker m usage83 _) in *.
  assert (Hs : sessionCost a = sessionCost b) by (destruct m; vm_compute; reflexivity).
  assert (Hd : dailyCost a = dailyCost b) by (destruct m; vm_compute; reflexivity).
  assert (Hm : monthlyCost a = monthlyCost b) by (destruct m; vm_compute; reflexivity).
  destruct a, b; cbn in *; congruence.
Qed.

(** C9. Resetting the session sets the session cost and the four token
    counters to zero and leaves the daily and the monthly cost as they
    were; the ledger has no other field. *)
Theorem resetSessionCost_frame (t : CostTracker) :
  sessionCost (resetSessionCost t) = 0%float
  /\ input (tokensUsed (resetSessionCost t)) = 0%Z
  /\ output (tokensUsed (resetSessionCost t)) = 0%Z
  /\ cacheRead (tokensUsed (resetSessionCost t)) = 0%Z
  /\ cacheWrite (tokensUsed (resetSessionCost t)) = 0%Z
  /\ dailyCost (resetSessionCost t) = dailyCost t
  /\ monthlyCost (resetSessionCost t) = monthlyCost t.
Proof. repeat split. Qed.

End LedgerFacts.

(** * Facts about the tool loop *)

Module RouteFacts.
Import JsString Claude ChatRoute Spec.

Section Route.
Context {W : Type} `{Octokit W} `{Anthropic W}.
Variables (owner repo : string).

(** ** Sequencing *)

Lemma bind_return {S A B} (c : M S A) (k : A -> M S B) (s s' : S) (a : A) :
  c s = (Return a, s') -> bind c k s = k a s'.
Proof. intros Hc. unfold bind. now rewrite Hc. Qed.

Lemma bind_throw {S A B} (c : M S A) (k : A -> M S B) (s s' : S) e :
  c s = (Throw e, s') -> bind c k s = (Throw e, s').
Proof. intros Hc. unfold bind. now rewrite Hc. Qed.

(** ** One round with the model *)

(** A round that the model answers: the request is recorded as sent, the
    usage of the response is added to the cost tracker. *)
Lemma chat_returns messages systemPrompt codeContext tools
    (s : Session W) response (w1 : W) :
  let request := chatRequest (model (client s)) messages systemPrompt
                   codeContext tools in
  messages_create request (ext s) = (Return response, w1) ->
  chat messages systemPrompt codeContext tools s =
    (Return (chatResult (model (client s)) response),
     {| ext := w1;
        client :=
          {| model := model (client s);
             costTracker := updateCostTracker (model (client s))
                              (resp_usage response) (costTracker (client s));
             sent := sent (client s) ++ [request] |} |}).
Proof.
  intros request Hc. unfold chat, bind, getClient, setClient, remote, ret.
  cbn. fold request. now rewrite Hc.
Qed.

Lemma chat_throws messages systemPrompt codeContext tools
    (s : Session W) e (w1 : W) :
  let request := chatRequest (model (client s)) messages systemPrompt
                   codeContext tools in
  messages_create request (ext s) = (Throw e, w1) ->
  chat messages systemPrompt codeContext tools s =
    (Throw e,
     {| ext := w1;
        client :=
          {| model := model (client s);
             costTracker := costTracker (client s);
             sent := sent (client s) ++ [request] |} |}).
Proof.
  intros request Hc. unfold chat, bind, getClient, setClient, remote, ret.
  cbn. fold request. now rewrite Hc.
Qed.

#[local] Abbreviation executeToolCall := (ChatRoute.executeToolCall owner repo).
#[local] Abbreviation dispatch := (ChatRoute.dispatch owner repo).
#[local] Abbreviation forToolCalls := (ChatRoute.forToolCalls owner repo).
#[local] Abbreviation executed := (Spec.executed owner repo).
#[local] Abbreviation turn := (ChatRoute.turn owner repo).
#[local] Abbreviation POST := (ChatRoute.POST owner repo).

(** ** One tool call *)

Lemma executeToolCall_returns call branch (w : W) :
  exists r w', executeToolCall call branch w = (Return r, w').
Proof.
  unfold ChatRoute.executeToolCall, tryCatch.
  destruct (dispatch call branch w) as [[r|e] w']; eauto.
Qed.

Lemma executeToolCall_catches call branch (w w' : W) e :
  dispatch call branch w = (Throw e, w') ->
  executeToolCall call branch w = (Return (failed e), w').
Proof.
  intros Hd. unfold ChatRoute.executeToolCall, tryCatch. now rewrite Hd.
Qed.

Lemma executeToolCall_unknown call branch (w : W) :
  knownTool (call_name call) = false ->
  executeToolCall call branch w =
    (Return (failed ("Unknown tool: " +:+ call_name call)), w).
Proof.
  unfold knownTool. intros Hk.
  apply orb_false_elim in Hk as [Hk Hsearch].
  apply orb_false_elim in Hk as [Hk Hcreate].
  apply orb_false_elim in Hk as [Hread Hreplace].
  unfold ChatRoute.executeToolCall, ChatRoute.dispatch, tryCatch.
  now rewrite Hread, Hreplace, Hcreate, Hsearch.
Qed.

(** The errors of the repository operations behind each tool. *)
Lemma read_file_error call branch (w w' : W) e :
  call_name call = "read_file" ->
  GitHub.getFileContent (in_path (call_input call)) branch w = (Throw e, w') ->
  executeToolCall call branch w = (Return (failed e), w').
Proof.
  intros Hn Hf. apply executeToolCall_catches.
  unfold ChatRoute.dispatch. rewrite Hn.
  cbn -[GitHub.getFileContent GitHub.updateFile GitHub.searchFiles bind String.append].
  unfold bind. now rewrite Hf.
Qed.

Lemma create_file_error call branch (w w' : W) e :
  call_name call = "create_file" ->
  GitHub.updateFile (in_path (call_input call)) (in_content (call_input call))
    ("Create " +:+ in_path (call_input call)) branch None w = (Throw e, w') ->
  executeToolCall call branch w = (Return (failed e), w').
Proof.
  intros Hn Hf. apply executeToolCall_catches.
  unfold ChatRoute.dispatch. rewrite Hn.
  cbn -[GitHub.getFileContent GitHub.updateFile GitHub.searchFiles bind String.append].
  unfold bind. now rewrite Hf.
Qed.

Lemma search_files_error call branch (w w' : W) e :
  call_name call = "search_files" ->
  GitHub.searchFiles owner repo (in_query (call_input call)) w = (Throw e, w') ->
  executeToolCall call branch w = (Return (failed e), w').
Proof.
  intros Hn Hf. apply executeToolCall_catches.
  unfold ChatRoute.dispatch. rewrite Hn.
  cbn -[GitHub.getFileContent GitHub.updateFile GitHub.searchFiles bind String.append].
  unfold bind. now rewrite Hf.
Qed.

Lemma str_replace_result call branch (w : W) :
  call_name call = "str_replace" ->
  executeToolCall call branch w =
    GitHub.applyStrReplace (in_path (call_input call))
      (in_old_str (call_input call)) (in_new_str (call_input call)) branch w.
Proof.
  intros Hn. unfold ChatRoute.executeToolCall, ChatRoute.dispatch, tryCatch.
  rewrite Hn. cbn.
  now destruct (EditFacts.applyStrReplace_returns (in_path (call_input call))
             (in_old_str (call_input call)) (in_new_str (call_input call))
             branch w) as (r & w' & ->).
Qed.

(** The whole result of each of the three tools that reach the
    repository directly, from the answer of the remote operation. *)
Lemma read_file_result call branch (w : W) :
  call_name call = "read_file" ->
  executeToolCall call branch w =
    match repos_getContent (in_path (call_input call)) branch w with
    | (Return (FileData text blob), w1) =>
        (Return {| success := true; result := Some (TextResult text);
                   error := None |}, w1)
    | (Return NotAFile, w1) =>
        (Return {| success := false; result := None;
                   error := Some ("Path " +:+ in_path (call_input call)
                                  +:+ " is not a file") |}, w1)
    | (Throw e, w1) =>
        (Return {| success := false; result := None; error := Some e |}, w1)
    end.
Proof.
  intros Hn. unfold ChatRoute.executeToolCall, ChatRoute.dispatch, tryCatch.
  rewrite Hn.
  cbn -[GitHub.getFileContent GitHub.updateFile GitHub.searchFiles bind String.append].
  unfold GitHub.getFileContent, bind, ret, throw.
  now destruct (repos_getContent (in_path (call_input call)) branch w)
    as [[[text blob|]|e] w1].
Qed.

Lemma create_file_result call branch (w : W) :
  call_name call = "create_file" ->
  executeToolCall call branch w =
    match repos_createOrUpdateFileContents
            {| wr_path := in_path (call_input call);
               wr_message := "Create " +:+ in_path (call_input call);
               wr_content := in_content (call_input call);
               wr_branch := branch; wr_sha := None |} w with
    | (Return _, w1) =>
        (Return {| success := true; result := None; error := None |}, w1)
    | (Throw e, w1) =>
        (Return {| success := false; result := None; error := Some e |}, w1)
    end.
Proof.
  intros Hn. unfold ChatRoute.executeToolCall, ChatRoute.dispatch, tryCatch.
  rewrite Hn.
  cbn -[GitHub.getFileContent GitHub.updateFile GitHub.searchFiles bind String.append].
  unfold GitHub.updateFile, bind, ret.
  now destruct (repos_createOrUpdateFileContents _ w) as [[[]|e] w1].
Qed.

Lemma search_files_result call branch (w : W) :
  call_name call = "search_files" ->
  executeToolCall call branch w =
    match search_code (in_query (call_input call) +:+ " repo:" +:+ owner
                       +:+ "/" +:+ repo) w with
    | (Return paths, w1) =>
        (Return {| success := true; result := Some (PathsResult paths);
                   error := None |}, w1)
    | (Throw e, w1) =>
        (Return {| success := false; result := None; error := Some e |}, w1)
    end.
Proof.
  intros Hn. unfold ChatRoute.executeToolCall, ChatRoute.dispatch, tryCatch.
  rewrite Hn.
  cbn -[GitHub.getFileContent GitHub.updateFile GitHub.searchFiles bind String.append].
  unfold GitHub.searchFiles, bind, ret.
  now destruct (search_code _ w) as [[paths|e] w1].
Qed.

(** The errors of the two repository operations behind [str_replace]. *)
Lemma str_replace_fetch_error call branch (w w1 : W) e :
  call_name call = "str_replace" ->
  repos_getContent (in_path (call_input call)) branch w = (Throw e, w1) ->
  executeToolCall call branch w =
    (Return {| success := false; result := None; error := Some e |}, w1).
Proof.
  intros Hn Hf. rewrite (str_replace_result call branch w Hn).
  apply EditFacts.applyStrReplace_fetch_failed.
  unfold GitHub.getFileContent, bind. now rewrite Hf.
Qed.

Lemma str_replace_write_error call branch (w w1 w2 : W) text blob e :
  call_name call = "str_replace" ->
  repos_getContent (in_path (call_input call)) branch w
    = (Return (FileData text blob), w1) ->
  JsString.includes (in_old_str (call_input call)) text = true ->
  (GitHub.occurrences (in_old_str (call_input call)) text <= 1)%Z ->
  repos_createOrUpdateFileContents
    {| wr_path := in_path (call_input call);
       wr_message := "Edit " +:+ in_path (call_input call);
       wr_content := JsString.replace (in_old_str (call_input call))
                       (in_new_str (call_input call)) text;
       wr_branch := branch; wr_sha := Some blob |} w1 = (Throw e, w2) ->
  executeToolCall call branch w =
    (Return {| success := false; result := None; error := Some e |}, w2).
Proof.
  intros Hn Hf Hinc Hocc Hw. rewrite (str_replace_result call branch w Hn).
  rewrite (EditFacts.applyStrReplace_write _ _ _ _ w w1
             {| path := in_path (call_input call); content := text;
                sha := blob |}).
  - unfold editRequest. cbn [content sha]. now rewrite Hw.
  - unfold GitHub.getFileContent, bind. now rewrite Hf.
  - exact Hinc.
  - exact Hocc.
Qed.

(** ** The loop over the tool calls *)

Lemma executed_length branch (w w' : W) calls results :
  executed branch w calls results w' -> length results = length calls.
Proof. induction 1; simpl; congruence. Qed.

(** The loop returns, with one result per call, in the order of the calls,
    and with one file change per mutating call, whatever its result. *)
Lemma forToolCalls_spec calls branch toolResults changes (w : W) :
  exists results w',
    forToolCalls calls branch toolResults changes w =
      (Return (toolResults ++ results,
               changes ++ map changeOf (List.filter isMutation calls)), w')
    /\ executed branch w calls results w'.
Proof.
  revert toolResults changes w.
  induction calls as [|call calls IH]; intros toolResults changes w.
  - exists [], w. split; [|constructor]. cbn. now rewrite !app_nil_r.
  - destruct (executeToolCall_returns call branch w) as (r & w1 & Hr).
    destruct (IH (toolResults ++ [r])
                 (if isMutation call then changes ++ [changeOf call] else changes)
                 w1) as (results & w' & Hloop & Hex).
    exists (r :: results), w'. split; [|econstructor; eassumption].
    cbn [ChatRoute.forToolCalls]. unfold bind at 1. rewrite Hr, Hloop.
    rewrite <- app_assoc. cbn [List.filter app].
    destruct (isMutation call); [|reflexivity].
    now rewrite <- app_assoc.
Qed.

(** ** The turn *)

(** C6. When the answer to the first round holds no tool call, the
    response of the turn carries the text of that answer, no file change,
    the cost and the token counts of that answer (a missing count read as
    zero), and a cost tracker on which that usage alone is recorded; the
    client has sent the first request and no other, and the world is as
    the first round left it. *)
Theorem no_tool_calls_single_round
    messages codeContext branch (w w1 : W) response :
  messages_create (firstRequest messages codeContext) w = (Return response, w1) ->
  toolCallsOf (resp_content response) = [] ->
  POST messages codeContext branch w =
    (Json {| tr_content := textOf (resp_content response);
             filesChanged := [];
             tr_cost := calculateCost Sonnet45 (resp_usage response);
             tr_tokensUsed := tokensOf (resp_usage response);
             tr_costTracker :=
               updateCostTracker Sonnet45 (resp_usage response) newCostTracker |},
     {| ext := w1;
        client :=
          {| model := Sonnet45;
             costTracker :=
               updateCostTracker Sonnet45 (resp_usage response) newCostTracker;
             sent := [firstRequest messages codeContext] |} |}).
Proof.
  intros Hc Hnone. unfold ChatRoute.POST, ChatRoute.turn.
  erewrite bind_return by (apply chat_returns; exact Hc).
  unfold chatResult. rewrite Hnone. reflexivity.
Qed.


(** C7. A tool call always yields a result: [executeToolCall] returns and
    does not throw. A call with a name other than the four tool names
    yields a failure that names the unknown tool, and touches nothing. An
    error thrown by a repository operation is turned into a failure with
    its message, tool by tool: for [read_file] the fetch of the file (a
    path that is no file fails as well), for [create_file] the write, for
    [search_files] the search, for [str_replace] the fetch and the write
    of [applyStrReplace]; when the operation returns, the tool succeeds
    with its result. The loop over the calls of a round returns one result
    per call, the i-th result being the result of the i-th call. *)
Theorem tool_execution_total calls branch (w : W) :
  (forall call w0, exists r w1, executeToolCall call branch w0 = (Return r, w1))
  /\ (forall call w0,
        knownTool (call_name call) = false ->
        executeToolCall call branch w0 =
          (Return {| success := false; result := None;
                     error := Some ("Unknown tool: " +:+ call_name call) |}, w0))
  /\ (forall call w0 e w1,
        dispatch call branch w0 = (Throw e, w1) ->
        executeToolCall call branch w0 =
          (Return {| success := false; result := None; error := Some e |}, w1))
  /\ (forall call w0,
        call_name call = "read_file" ->
        executeToolCall call branch w0 =
          match repos_getContent (in_path (call_input call)) branch w0 with
          | (Return (FileData text blob), w1) =>
              (Return {| success := true; result := Some (TextResult text);
                         error := None |}, w1)
          | (Return NotAFile, w1) =>
              (Return {| success := false; result := None;
                         error := Some ("Path " +:+ in_path (call_input call)
                                        +:+ " is not a file") |}, w1)
          | (Throw e, w1) =>
              (Return {| success := false; result := None; error := Some e |},
               w1)
          end)
  /\ (forall call w0,
        call_name call = "create_file" ->
        executeToolCall call branch w0 =
          match repos_createOrUpdateFileContents
                  {| wr_path := in_path (call_input call);
                     wr_message := "Create " +:+ in_path (call_input call);
                     wr_content := in_content (call_input call);
                     wr_branch := branch; wr_sha := None |} w0 with
          | (Return _, w1) =>
              (Return {| success := true; result := None; error := None |}, w1)
          | (Throw e, w1) =>
              (Return {| success := false; result := None; error := Some e |},
               w1)
          end)
  /\ (forall call w0,
        call_name call = "search_files" ->
        executeToolCall call branch w0 =
          match search_code (in_query (call_input call) +:+ " repo:" +:+ owner
                             +:+ "/" +:+ repo) w0 with
          | (Return paths, w1) =>
              (Return {| success := true; result := Some (PathsResult paths);
                         error := None |}, w1)
          | (Throw e, w1) =>
              (Return {| success := false; result := None; error := Some e |},
               w1)
          end)
  /\ (forall call w0,
        call_name call = "str_replace" ->
        executeToolCall call branch w0 =
          GitHub.applyStrReplace (in_path (call_input call))
            (in_old_str (call_input call)) (in_new_str (call_input call))
            branch w0
        /\ (forall e w1,
              repos_getContent (in_path (call_input call)) branch w0
                = (Throw e, w1) ->
              executeToolCall call branch w0 =
                (Return {| success := false; result := None; error := Some e |},
                 w1))
        /\ (forall text blob w1 e w2,
              repos_getContent (in_path (call_input call)) branch w0
                = (Return (FileData text blob), w1) ->
              JsString.includes (in_old_str (call_input call)) text = true ->
              (GitHub.occurrences (in_old_str (call_input call)) text <= 1)%Z ->
              repos_createOrUpdateFileContents
                {| wr_path := in_path (call_input call);
                   wr_message := "Edit " +:+ in_path (call_input call);
                   wr_content := JsString.replace (in_old_str (call_input call))
                                   (in_new_str (call_input call)) text;
                   wr_branch := branch; wr_sha := Some blob |} w1
                = (Throw e, w2) ->
              executeToolCall call branch w0 =
                (Return {| success := false; result := None; error := Some e |},
                 w2)))
  /\ exists results changes w',
        forToolCalls calls branch [] [] w = (Return (results, changes), w')
        /\ length results = length calls
        /\ executed branch w calls results w'.
Proof.
  split; [|split; [|split; [|split; [|split; [|split; [|split]]]]]].
  - intros call w0. apply executeToolCall_returns.
  - intros call w0. apply executeToolCall_unknown.
  - intros call w0 e w1. apply executeToolCall_catches.
  - intros call w0. apply read_file_result.
  - intros call w0. apply create_file_result.
  - intros call w0. apply search_files_result.
  - intros call w0 Hn. split; [now apply str_replace_result|]. split.
    + intros e w1. now apply str_replace_fetch_error.
    + intros text blob w1 e w2. now apply str_replace_write_error.
  - destruct (forToolCalls_spec calls branch [] [] w)
      as (results & w' & Hloop & Hex).
    exists results, (map changeOf (List.filter isMutation calls)), w'.
    split; [exact Hloop|]. split; [|exact Hex].
    exact (executed_length _ _ _ _ _ Hex).
Qed.

End Route.
End RouteFacts.

(** ** The turn with a create and an ambiguous edit *)

Module TwoCalls.
Import JsString Claude ChatRoute Spec Examples.



(** The summary sent in the follow-up round has a line for the success
    and a line for the failure. *)
Lemma summary_has_both_lines :
  ChatRoute.toolResultsMessage [createCall; replaceCall]
    [succeeded; failed (GitHub.ambiguousError 2 "f.ts")]
  = "Tool create_file: Success" +:+ newline +:+
    "Tool str_replace: Failed - String found 2 times in f.ts. It must be unique for safe replacement.".
Proof. vm_compute. reflexivity. Qed.



(** C6 on a turn whose first answer is plain text. *)
Lemma no_tool_calls_single_round_witness :
  ChatRoute.POST "o" "r" request "ctx" "main" worldPlain =
    (Json {| tr_content := "Nothing to change.";
             filesChanged := [];
             tr_cost := calculateCost Sonnet45 usage52;
             tr_tokensUsed :=
               {| input := 5; output := 2; cacheRead := 0; cacheWrite := 0 |};
             tr_costTracker :=
               updateCostTracker Sonnet45 usage52 newCostTracker |},
     {| ext := afterPlainRound;
        client :=
          {| model := Sonnet45;
             costTracker := updateCostTracker Sonnet45 usage52 newCostTracker;
             sent := [firstRequest request "ctx"] |} |}).
Proof.
  apply (RouteFacts.no_tool_calls_single_round "o" "r" request "ctx" "main"
           worldPlain afterPlainRound roundPlain).
  - vm_compute. reflexivity.
  - reflexivity.
Defined.

(** C7 on four calls in the repository that holds f.ts: the unknown tool
    delete_file; [read_file] and [str_replace] on a path that does not
    exist, where the fetch throws; [create_file] on f.ts, where the write
    without a blob hash throws. Each yields a failure with the message of
    the error, and the turn goes on. *)
Lemma tool_execution_total_witness :
  ChatRoute.executeToolCall "o" "r" deleteCall "main" worldTwoRounds =
    (Return {| success := false; result := None;
               error := Some "Unknown tool: delete_file" |}, worldTwoRounds)
  /\ ChatRoute.executeToolCall "o" "r" MoreExamples.readMissingCall "main"
       worldTwoRounds =
     (Return {| success := false; result := None; error := Some "Not Found" |},
      worldTwoRounds)
  /\ ChatRoute.executeToolCall "o" "r" MoreExamples.replaceMissingCall "main"
       worldTwoRounds =
     (Return {| success := false; result := None; error := Some "Not Found" |},
      worldTwoRounds)
  /\ ChatRoute.executeToolCall "o" "r" MoreExamples.overwriteCall "main"
       worldTwoRounds =
     (Return {| success := false; result := None;
                error := Some "Invalid request: sha was not supplied" |},
      worldTwoRounds).
Proof.
  destruct (RouteFacts.tool_execution_total "o" "r" [createCall; replaceCall]
              "main" worldTwoRounds)
    as (_ & Hunknown & _ & Hread & Hcreate & _ & Hreplace & _).
  split; [|split; [|split]].
  - apply (Hunknown deleteCall worldTwoRounds). reflexivity.
  - rewrite (Hread MoreExamples.readMissingCall worldTwoRounds eq_refl).
    vm_compute. reflexivity.
  - destruct (Hreplace MoreExamples.replaceMissingCall worldTwoRounds eq_refl)
      as (_ & Hfetch & _).
    apply (Hfetch "Not Found" worldTwoRounds). vm_compute. reflexivity.
  - rewrite (Hcreate MoreExamples.overwriteCall worldTwoRounds eq_refl).
    vm_compute. reflexivity.
Defined.

End TwoCalls.

(** * Refused edits, and the tools offered to the model *)

Module EditMore.
Import JsString JsStringFacts GitHub Spec.

Section Applier.
Context {W : Type} `{Octokit W}.

(** X10. An edit whose search text does not occur exactly once is refused
    before any write: the result is a failure, with the not-found message
    when the text does not occur and the ambiguity message with the count
    when it occurs several times, and the world is as the fetch of the
    file left it. *)
Theorem edit_refused_without_write p oldStr newStr branch (w w1 : W) file :
  getFileContent p branch w = (Return file, w1) ->
  oldStr <> "" ->
  nonOverlappingCount oldStr (content file) <> 1 ->
  applyStrReplace p oldStr newStr branch w =
    (Return
       (failed
          (if Nat.eqb (nonOverlappingCount oldStr (content file)) 0
           then notFoundError p
           else ambiguousError
                  (Z.of_nat (nonOverlappingCount oldStr (content file))) p)),
     w1).
Proof.
  intros Hf Hx Hc.
  pose proof (EditFacts.count_includes oldStr (content file) Hx) as Hinc.
  destruct (nonOverlappingCount oldStr (content file)) as [|[|n]] eqn:Hn;
    [|congruence|].
  - cbn [Nat.eqb]. apply (EditFacts.applyStrReplace_not_found _ _ _ _ _ _ _ Hf).
    destruct (includes oldStr (content file)); [|reflexivity].
    destruct Hinc as [Hinc _]. specialize (Hinc eq_refl). lia.
  - cbn [Nat.eqb]. rewrite <- Hn.
    rewrite <- (EditFacts.occurrences_count _ _ Hx).
    apply (EditFacts.applyStrReplace_ambiguous _ _ _ _ _ _ _ Hf).
    + apply Hinc. lia.
    + rewrite (EditFacts.occurrences_count _ _ Hx). lia.
Qed.

End Applier.
End EditMore.

Module ToolFacts.
Import JsString Claude ChatRoute Spec TurnSpec.

Section Tools.
Context {W : Type} `{Octokit W}.
Variables (owner repo : string).

#[local] Abbreviation dispatch := (ChatRoute.dispatch owner repo).

Lemma offered_names (name : string) :
  name ∈ map tool_name getDefaultTools
  <-> name = "read_file" \/ name = "str_replace" \/ name = "create_file"
      \/ name = "search_files".
Proof.
  cbn [map getDefaultTools tool_name].
  rewrite !elem_of_cons, elem_of_nil. tauto.
Qed.

(** X17. The tools offered to the model are the tools that the chat route
    executes. The switch of [executeToolCall] sends a call with the name
    of an offered tool to the operation of the GitHub client that the
    description of the tool announces: [read_file] to [getFileContent],
    [str_replace] to [applyStrReplace], [create_file] to [updateFile] and
    [search_files] to [searchFiles]; a call with any other name, and only
    such a call, falls to the default case and is answered as an unknown
    tool without any remote call. Both requests of a turn offer the
    default tools, and the two tools that count as file changes are among
    them. *)
Theorem offered_tools_are_executed :
  (forall call branch,
      call_name call ∈ map tool_name getDefaultTools ->
      let inp := call_input call in
      (call_name call = "read_file"
       /\ dispatch call branch =
            (file <- GitHub.getFileContent (in_path inp) branch ;;
             ret (succeededWith (TextResult (content file))))%js)
      \/ (call_name call = "str_replace"
          /\ dispatch call branch =
               GitHub.applyStrReplace (in_path inp) (in_old_str inp)
                 (in_new_str inp) branch)
      \/ (call_name call = "create_file"
          /\ dispatch call branch =
               (GitHub.updateFile (in_path inp) (in_content inp)
                  ("Create " +:+ in_path inp) branch None ;;;
                ret succeeded)%js)
      \/ (call_name call = "search_files"
          /\ dispatch call branch =
               (paths <- GitHub.searchFiles owner repo (in_query inp) ;;
                ret (succeededWith (PathsResult paths)))%js))
  /\ (forall call branch,
        call_name call ∉ map tool_name getDefaultTools ->
        dispatch call branch =
          ret (failed ("Unknown tool: " +:+ call_name call)))
  /\ (forall messages codeContext first results,
        req_tools (firstRequest messages codeContext) = getDefaultTools
        /\ req_tools (followUpRequest messages codeContext first results)
           = getDefaultTools)
  /\ (forall call,
        isMutation call = true ->
        call_name call ∈ map tool_name getDefaultTools).
Proof.
  split; [|split; [|split]].
  - intros call branch Hin inp. apply offered_names in Hin.
    unfold ChatRoute.dispatch. fold inp.
    destruct Hin as [Hn|[Hn|[Hn|Hn]]]; rewrite Hn;
      [left|right; left|right; right; left|right; right; right];
      (split; [reflexivity|]); reflexivity.
  - intros call branch Hout. rewrite offered_names in Hout.
    unfold ChatRoute.dispatch.
    destruct (String.eqb_spec (call_name call) "read_file") as [Hn|_];
      [tauto|].
    destruct (String.eqb_spec (call_name call) "str_replace") as [Hn|_];
      [tauto|].
    destruct (String.eqb_spec (call_name call) "create_file") as [Hn|_];
      [tauto|].
    destruct (String.eqb_spec (call_name call) "search_files") as [Hn|_];
      [tauto|].
    reflexivity.
  - intros. split; reflexivity.
  - intros call Hm. apply offered_names. unfold isMutation in Hm.
    apply orb_true_iff in Hm as [Hm|Hm]; apply String.eqb_eq in Hm; tauto.
Qed.

End Tools.
End ToolFacts.

(** * The turn as a whole *)

Module TurnFacts.
Import JsString Claude ChatRoute Spec TurnSpec.

Section Turn.
Context {W : Type} `{Octokit W} `{Anthropic W}.
Variables (owner repo : string).

#[local] Abbreviation forToolCalls := (ChatRoute.forToolCalls owner repo).
#[local] Abbreviation POST := (ChatRoute.POST owner repo).

(** ** The four ways a turn can go *)

Lemma POST_first_round_throws messages codeContext branch (w w1 : W) e :
  messages_create (firstRequest messages codeContext) w = (Throw e, w1) ->
  POST messages codeContext branch w =
    (ErrorJson 500 (errorMessage e),
     {| ext := w1;
        client := clientAfter [] [firstRequest messages codeContext] |}).
Proof.
  intros Hc. unfold ChatRoute.POST, ChatRoute.turn.
  erewrite RouteFacts.bind_throw by (apply RouteFacts.chat_throws; exact Hc).
  reflexivity.
Qed.

Lemma POST_single_round messages codeContext branch (w w1 : W) first :
  messages_create (firstRequest messages codeContext) w = (Return first, w1) ->
  toolCallsOf (resp_content first) = [] ->
  POST messages codeContext branch w =
    (Json {| tr_content := textOf (resp_content first);
             filesChanged := [];
             tr_cost := calculateCost Sonnet45 (resp_usage first);
             tr_tokensUsed := tokensOf (resp_usage first);
             tr_costTracker :=
               recordAll Sonnet45 [resp_usage first] newCostTracker |},
     {| ext := w1;
        client :=
          clientAfter [resp_usage first] [firstRequest messages codeContext] |}).
Proof.
  intros Hc Hnone. unfold ChatRoute.POST, ChatRoute.turn.
  erewrite RouteFacts.bind_return by (apply RouteFacts.chat_returns; exact Hc).
  unfold chatResult. rewrite Hnone. reflexivity.
Qed.

Lemma POST_second_round_throws
    messages codeContext branch (w w1 w2 w3 : W) first results changes e :
  messages_create (firstRequest messages codeContext) w = (Return first, w1) ->
  toolCallsOf (resp_content first) <> [] ->
  forToolCalls (toolCallsOf (resp_content first)) branch [] [] w1
    = (Return (results, changes), w2) ->
  messages_create (followUpRequest messages codeContext first results) w2
    = (Throw e, w3) ->
  POST messages codeContext branch w =
    (ErrorJson 500 (errorMessage e),
     {| ext := w3;
        client :=
          clientAfter [resp_usage first]
            [ firstRequest messages codeContext;
              followUpRequest messages codeContext first results ] |}).
Proof.
  intros Hc Hcalls Hloop Hfollow.
  destruct (RouteFacts.forToolCalls_spec owner repo
              (toolCallsOf (resp_content first)) branch [] [] w1)
    as (results' & w2' & Hloop' & Hex).
  rewrite Hloop in Hloop'. injection Hloop' as -> _ <-.
  pose proof (RouteFacts.executed_length _ _ _ _ _ _ _ Hex) as Hlen.
  unfold ChatRoute.POST, ChatRoute.turn.
  erewrite RouteFacts.bind_return by (apply RouteFacts.chat_returns; exact Hc).
  unfold chatResult at 1. cbn [toolCalls].
  destruct (toolCallsOf (resp_content first)) as [|call calls] eqn:Hc1;
    [congruence|].
  erewrite RouteFacts.bind_return
    by (unfold remote; cbn [ext client]; rewrite Hloop; reflexivity).
  destruct results' as [|r results']; [discriminate|].
  cbn [app length Nat.ltb Nat.leb].
  erewrite RouteFacts.bind_throw.
  2:{ apply RouteFacts.chat_throws. cbn [ext client model].
      unfold followUpRequest in Hfollow. rewrite Hc1 in Hfollow.
      exact Hfollow. }
  unfold followUpRequest. rewrite Hc1. reflexivity.
Qed.

Lemma POST_two_rounds
    messages codeContext branch (w w1 w2 w3 : W) first results changes second :
  messages_create (firstRequest messages codeContext) w = (Return first, w1) ->
  toolCallsOf (resp_content first) <> [] ->
  forToolCalls (toolCallsOf (resp_content first)) branch [] [] w1
    = (Return (results, changes), w2) ->
  messages_create (followUpRequest messages codeContext first results) w2
    = (Return second, w3) ->
  POST messages codeContext branch w =
    (Json {| tr_content := textOf (resp_content second);
             filesChanged := changes;
             tr_cost := (calculateCost Sonnet45 (resp_usage first)
                         + calculateCost Sonnet45 (resp_usage second))%float;
             tr_tokensUsed := addTokens (tokensOf (resp_usage first))
                                        (tokensOf (resp_usage second));
             tr_costTracker :=
               recordAll Sonnet45 [resp_usage first; resp_usage second]
                 newCostTracker |},
     {| ext := w3;
        client :=
          clientAfter [resp_usage first; resp_usage second]
            [ firstRequest messages codeContext;
              followUpRequest messages codeContext first results ] |}).
Proof.
  intros Hc Hcalls Hloop Hfollow.
  destruct (RouteFacts.forToolCalls_spec owner repo
              (toolCallsOf (resp_content first)) branch [] [] w1)
    as (results' & w2' & Hloop' & Hex).
  rewrite Hloop in Hloop'. injection Hloop' as -> _ <-.
  pose proof (RouteFacts.executed_length _ _ _ _ _ _ _ Hex) as Hlen.
  unfold ChatRoute.POST, ChatRoute.turn.
  erewrite RouteFacts.bind_return by (apply RouteFacts.chat_returns; exact Hc).
  unfold chatResult at 1. cbn [toolCalls].
  destruct (toolCallsOf (resp_content first)) as [|call calls] eqn:Hc1;
    [congruence|].
  erewrite RouteFacts.bind_return
    by (unfold remote; cbn [ext client]; rewrite Hloop; reflexivity).
  destruct results' as [|r results']; [discriminate|].
  cbn [app length Nat.ltb Nat.leb].
  erewrite RouteFacts.bind_return.
  2:{ apply RouteFacts.chat_returns. cbn [ext client model].
      unfold followUpRequest in Hfollow. rewrite Hc1 in Hfollow.
      exact Hfollow. }
  unfold followUpRequest. rewrite Hc1. reflexivity.
Qed.

(** ** What every turn does *)

(** X14. The handler from its first call of the model on, that is, once a
    request has passed the three checks that answer with status 400 and
    the code context has been built without a throw (a request that fails
    there reaches no round at all): the handler sends the first request,
    and at most one more. The loop never exceeds two rounds with the
    model, however many tool calls the first answer holds; a second
    request is sent exactly when the first round is answered with at least
    one tool call. *)
Theorem at_most_two_rounds messages codeContext branch (w : W) :
  let requests := sent (client (POST messages codeContext branch w).2) in
  (length requests = 1 \/ length requests = 2)
  /\ hd_error requests = Some (firstRequest messages codeContext)
  /\ (length requests = 2 <->
      exists first w1,
        messages_create (firstRequest messages codeContext) w
          = (Return first, w1)
        /\ toolCallsOf (resp_content first) <> []).
Proof.
  cbv zeta.
  destruct (messages_create (firstRequest messages codeContext) w)
    as [[first|e] w1] eqn:Hc.
  2:{ rewrite (POST_first_round_throws _ _ _ _ _ _ Hc). cbn.
      split; [now left|]. split; [reflexivity|].
      split; [discriminate|]. intros (f & w' & Hf & _). discriminate. }
  destruct (toolCallsOf (resp_content first)) as [|call calls] eqn:Hcalls.
  { rewrite (POST_single_round _ _ _ _ _ _
               Hc Hcalls). cbn.
    split; [now left|]. split; [reflexivity|].
    split; [discriminate|]. intros (f & w' & Hf & Hne).
    injection Hf as <- _. congruence. }
  assert (Hne : toolCallsOf (resp_content first) <> []) by congruence.
  destruct (RouteFacts.forToolCalls_spec owner repo
              (toolCallsOf (resp_content first)) branch [] [] w1)
    as (results & w2 & Hloop & _).
  cbn [app] in Hloop.
  destruct (messages_create
              (followUpRequest messages codeContext first results) w2)
    as [[second|e] w3] eqn:Hf.
  - rewrite (POST_two_rounds _ _ _ _ _ _ _ _ _ _ _ Hc Hne Hloop Hf). cbn.
    split; [now right|]. split; [reflexivity|]. split; [|reflexivity].
    intros _. exists first, w1. now split.
  - rewrite (POST_second_round_throws _ _ _ _ _ _ _ _ _ _ _ Hc Hne Hloop Hf).
    cbn. split; [now right|]. split; [reflexivity|]. split; [|reflexivity].
    intros _. exists first, w1. now split.
Qed.


(** X16. The cost tracker of a response covers this turn and nothing else: its
    token counters are the token counts of the response, and its three
    cost totals are one and the same number. *)
Theorem tracker_covers_turn messages codeContext branch (w : W) body s :
  POST messages codeContext branch w = (Json body, s) ->
  tokensUsed (tr_costTracker body) = tr_tokensUsed body
  /\ dailyCost (tr_costTracker body) = sessionCost (tr_costTracker body)
  /\ monthlyCost (tr_costTracker body) = sessionCost (tr_costTracker body)
  /\ costTracker (client s) = tr_costTracker body.
Proof.
  intros HP.
  destruct (messages_create (firstRequest messages codeContext) w)
    as [[first|e] w1] eqn:Hc.
  2:{ rewrite (POST_first_round_throws _ _ _ _ _ _ Hc) in HP. discriminate. }
  destruct (toolCallsOf (resp_content first)) as [|call calls] eqn:Hcalls.
  { rewrite (POST_single_round _ _ _ _ _ _
               Hc Hcalls) in HP.
    injection HP as <- <-. cbn.
    repeat split; unfold tokensOf; try (f_equal; lia). }
  assert (Hne : toolCallsOf (resp_content first) <> []) by congruence.
  destruct (RouteFacts.forToolCalls_spec owner repo
              (toolCallsOf (resp_content first)) branch [] [] w1)
    as (results & w2 & Hloop & _).
  cbn [app] in Hloop.
  destruct (messages_create
              (followUpRequest messages codeContext first results) w2)
    as [[second|e] w3] eqn:Hf.
  - rewrite (POST_two_rounds _ _ _ _ _ _ _ _ _ _ _ Hc Hne Hloop Hf) in HP.
    injection HP as <- <-. cbn.
    repeat split; unfold addTokens, tokensOf; cbn; try (f_equal; lia).
  - rewrite (POST_second_round_throws _ _ _ _ _ _ _ _ _ _ _ Hc Hne Hloop Hf)
      in HP. discriminate.
Qed.

End Turn.
End TurnFacts.

(** * The ledger over many rounds, and the two readings of file changes *)

Module LedgerMore.
Import Claude ChatRoute TurnSpec.

Lemma addTokens_assoc (a b c : TokenCounters) :
  addTokens (addTokens a b) c = addTokens a (addTokens b c).
Proof. unfold addTokens. cbn. f_equal; lia. Qed.

Lemma addTokens_noTokens_l (a : TokenCounters) : addTokens noTokens a = a.
Proof. destruct a. unfold addTokens. cbn. f_equal; lia. Qed.

Lemma addTokens_noTokens_r (a : TokenCounters) : addTokens a noTokens = a.
Proof. destruct a. unfold addTokens. cbn. f_equal; lia. Qed.

Lemma totalTokens_from (usages : list Usage) (acc : TokenCounters) :
  fold_left (fun acc u => addTokens acc (tokensOf u)) usages acc
  = addTokens acc (totalTokens usages).
Proof.
  unfold totalTokens. revert acc.
  induction usages as [|u usages IH]; intros acc; cbn [fold_left].
  - now rewrite addTokens_noTokens_r.
  - rewrite (IH (addTokens acc (tokensOf u))).
    rewrite (IH (addTokens noTokens (tokensOf u))).
    now rewrite addTokens_noTokens_l, addTokens_assoc.
Qed.

(** X21. Recording usages one after the other adds their counters to those of
    the ledger: on the counters, recording is additive for every list of
    usages and every starting ledger. *)
Theorem recordAll_counters (m : ModelKey) (usages : list Usage) (t : CostTracker) :
  tokensUsed (recordAll m usages t)
  = addTokens (tokensUsed t) (totalTokens usages).
Proof.
  unfold recordAll. revert t.
  induction usages as [|u usages IH]; intros t; cbn [fold_left].
  - unfold totalTokens. cbn. now rewrite addTokens_noTokens_r.
  - rewrite IH, LedgerFacts.updateCostTracker_counters.
    unfold totalTokens at 2. cbn [fold_left].
    rewrite totalTokens_from, addTokens_noTokens_l.
    now rewrite addTokens_assoc.
Qed.

(** X22. On every ledger reached from a new one by recording usages and
    resetting the session, the daily and the monthly total are the same
    number; nothing in the client tells a day from a month. As long as the
    session is not reset, the session total is that number too. *)
Theorem daily_is_monthly (m : ModelKey) (ops : list LedgerOp) :
  let t := applyOps m ops newCostTracker in
  dailyCost t = monthlyCost t
  /\ (Forall (fun op => op <> Reset) ops -> sessionCost t = dailyCost t).
Proof.
  cbv zeta. unfold applyOps.
  assert (Hgen : forall t0,
    dailyCost t0 = monthlyCost t0 ->
    dailyCost (fold_left (applyOp m) ops t0)
      = monthlyCost (fold_left (applyOp m) ops t0)
    /\ (sessionCost t0 = dailyCost t0 ->
        Forall (fun op => op <> Reset) ops ->
        sessionCost (fold_left (applyOp m) ops t0)
          = dailyCost (fold_left (applyOp m) ops t0))).
  { induction ops as [|op ops IH]; intros t0 Hdm; cbn [fold_left].
    - split; [exact Hdm|auto].
    - assert (Hdm' : dailyCost (applyOp m t0 op) = monthlyCost (applyOp m t0 op)).
      { destruct op; cbn; congruence. }
      destruct (IH _ Hdm') as [Hd Hs]. split; [exact Hd|].
      intros Hsd Hall. inversion Hall as [|? ? Hop Hrest]; subst.
      apply Hs; [|exact Hrest].
      destruct op; [cbn; congruence|congruence]. }
  destruct (Hgen newCostTracker eq_refl) as [Hd Hs].
  split; [exact Hd|]. intros Hall. now apply Hs.
Qed.

(** X23. [parseFileChanges] and the loop of the chat route read the same file
    changes off a list of tool calls: the same paths with the same actions,
    in the same order. [parseFileChanges] adds a diff to the edits and to
    nothing else, and neither ever reports a deletion. *)
Theorem parseFileChanges_agrees (calls : list ToolCall) :
  map changeKey (parseFileChanges calls)
  = map changeKey (map changeOf (List.filter isMutation calls))
  /\ Forall (fun c => (fc_action c = Edit <-> fc_diff c <> None)
                      /\ fc_action c <> Delete)
            (parseFileChanges calls)
  /\ Forall (fun c => fc_action c <> Delete /\ fc_diff c = None)
            (map changeOf (List.filter isMutation calls)).
Proof.
  induction calls as [|call calls (IHk & IHp & IHr)].
  - repeat split; constructor.
  - cbn [parseFileChanges List.filter].
    destruct (String.eqb_spec (call_name call) "str_replace") as [Hs|Hs].
    + assert (Hm : isMutation call = true).
      { unfold isMutation. rewrite Hs. reflexivity. }
      rewrite Hm. cbn [map]. split; [|split].
      * f_equal; [|exact IHk]. unfold changeKey, changeOf. cbn.
        rewrite Hs. reflexivity.
      * constructor; [|exact IHp]. cbn. repeat split; congruence.
      * constructor; [|exact IHr]. unfold changeOf. cbn.
        split; [|reflexivity]. now destruct (String.eqb _ _).
    + destruct (String.eqb_spec (call_name call) "create_file") as [Hc|Hc].
      * assert (Hm : isMutation call = true).
        { unfold isMutation. rewrite Hc. reflexivity. }
        rewrite Hm. cbn [map]. split; [|split].
        -- f_equal; [|exact IHk]. unfold changeKey, changeOf. cbn.
           rewrite Hc. reflexivity.
        -- constructor; [|exact IHp]. cbn. repeat split; congruence.
        -- constructor; [|exact IHr]. unfold changeOf. cbn.
           split; [|reflexivity]. now destruct (String.eqb _ _).
      * assert (Hm : isMutation call = false).
        { unfold isMutation.
          apply String.eqb_neq in Hs, Hc. now rewrite Hs, Hc. }
        rewrite Hm. now repeat split.
Qed.

End LedgerMore.

(** * The resolver of relative references *)

Module ResolveFacts.
Import JsString JsStringFacts Imports ImportsFacts.

(** ** Splitting what was joined *)

Lemma split_scan_slash_free (a : string) :
  slashFree a = true -> split_scan "/" 0 a = [a].
Proof.
  unfold slashFree. induction a as [|c a IH]; intros Hsf; [reflexivity|].
  rewrite slashFreeOf_cons in Hsf. apply andb_prop in Hsf as [Hc Hsf].
  rewrite split_scan_cons, prefix_cons.
  destruct (Ascii.eqb_spec "/" c) as [<-|_]; [discriminate|].
  now rewrite (IH Hsf).
Qed.

Lemma split_scan_segment (a t : string) :
  slashFree a = true ->
  split_scan "/" 0 (a +:+ "/" +:+ t) = a :: split_scan "/" 0 t.
Proof.
  unfold slashFree. induction a as [|c a IH]; intros Hsf.
  - change ("" +:+ "/" +:+ t) with (String "/" t).
    rewrite split_scan_cons, prefix_cons. cbn. now rewrite prefix_nil.
  - rewrite slashFreeOf_cons in Hsf. apply andb_prop in Hsf as [Hc Hsf].
    rewrite append_cons, split_scan_cons, prefix_cons.
    destruct (Ascii.eqb_spec "/" c) as [<-|_]; [discriminate|].
    now rewrite (IH Hsf).
Qed.

(** Joining segments without a slash and splitting again gives the
    segments back. *)
Lemma split_join (segments : list string) :
  segments <> [] ->
  Forall (fun s => slashFree s = true) segments ->
  split "/" (join "/" segments) = segments.
Proof.
  intros Hne Hall. unfold split.
  induction Hall as [|a rest Ha Hrest IH]; [congruence|].
  destruct rest as [|b rest].
  - cbn. now apply split_scan_slash_free.
  - change (join "/" (a :: b :: rest)) with (a +:+ "/" +:+ join "/" (b :: rest)).
    rewrite (split_scan_segment _ _ Ha). f_equal. apply IH. discriminate.
Qed.

(** Splitting a path cuts off its file name. *)
Lemma split_file_name (dir name : string) :
  slashFree name = true ->
  split "/" (dir +:+ "/" +:+ name) = split "/" dir ++ [name].
Proof.
  intros Hn. unfold split. induction dir as [|c dir IH].
  - change ("" +:+ "/" +:+ name) with (String "/" name).
    rewrite split_scan_cons, prefix_cons. cbn. rewrite prefix_nil.
    destruct name as [|d name]; [reflexivity|].
    cbn [String.length Nat.sub]. now rewrite split_scan_slash_free.
  - rewrite append_cons, !split_scan_cons, !prefix_cons.
    destruct (Ascii.eqb_spec "/" c) as [<-|_].
    + rewrite !prefix_nil. cbn [String.length Nat.sub app]. now rewrite IH.
    + rewrite IH. destruct (split_scan "/" 0 dir) as [|p ps] eqn:E.
      * now destruct (split_scan_nonempty "/" 0 dir).
      * reflexivity.
Qed.

(** ** What the resolver returns *)

(** The segments that the resolution loop leaves. *)
Lemma resolved_segments (raw currentPath : string) :
  isRelative raw = true ->
  exists segments,
    Forall properSegment segments
    /\ resolveImportPath raw currentPath = join "/" segments.
Proof.
  intros Hrel. unfold resolveImportPath. rewrite Hrel.
  eexists. split; [|reflexivity].
  apply resolve_proper; [|constructor].
  apply Forall_app; split; apply split_slash_free.
Qed.

(** X2. A resolved relative reference is a normal path: it is empty, or its
    segments between slashes are all non-empty and none of them is [.]
    or [..]. This holds also when the reference climbs above the root of
    the repository: the surplus [..] are dropped, not reported. *)
Theorem resolved_is_normal (raw currentPath : string) :
  isRelative raw = true ->
  resolveImportPath raw currentPath = ""
  \/ Forall properSegment (split "/" (resolveImportPath raw currentPath)).
Proof.
  intros Hrel. destruct (resolved_segments raw currentPath Hrel)
    as (segments & Hproper & ->).
  destruct segments as [|a rest]; [now left|]. right.
  rewrite split_join; [exact Hproper|discriminate|].
  rewrite Forall_forall in Hproper |- *. intros s Hs.
  now destruct (Hproper s Hs) as (_ & _ & _ & Hsf).
Qed.

(** ** The directory of the importing file *)

Lemma fold_proper (segments resolved : list string) :
  Forall properSegment segments ->
  fold_left resolveStep segments resolved = resolved ++ segments.
Proof.
  revert resolved; induction segments as [|x rest IH]; intros resolved Hall.
  - now rewrite app_nil_r.
  - apply Forall_cons in Hall as [(Hne & Hd & Hdd & _) Hrest].
    cbn [fold_left]. unfold resolveStep at 2.
    apply String.eqb_neq in Hne, Hd, Hdd. rewrite Hdd, Hd, Hne. cbn [negb andb].
    rewrite (IH _ Hrest). now rewrite <- app_assoc.
Qed.

Lemma join_snoc (segments : list string) (x : string) :
  segments <> [] ->
  join "/" (segments ++ [x]) = join "/" segments +:+ "/" +:+ x.
Proof.
  intros Hne. induction segments as [|a rest IH]; [congruence|].
  destruct rest as [|b rest]; [reflexivity|].
  change (join "/" ((a :: b :: rest) ++ [x]))
    with (a +:+ "/" +:+ join "/" ((b :: rest) ++ [x])).
  rewrite IH by discriminate.
  change (join "/" (a :: b :: rest)) with (a +:+ "/" +:+ join "/" (b :: rest)).
  now rewrite !append_assoc.
Qed.

Lemma segments_slash_free (segments : list string) :
  Forall properSegment segments ->
  Forall (fun s => slashFree s = true) segments.
Proof.
  intros Hall. eapply Forall_impl; [exact Hall|].
  now intros s (_ & _ & _ & Hsf).
Qed.

(** The resolution from a file of the directory [join "/" dirSegments]. *)
Lemma resolved_from_directory (raw name : string) (dirSegments : list string) :
  isRelative raw = true ->
  dirSegments <> [] ->
  Forall properSegment dirSegments ->
  slashFree name = true ->
  resolveImportPath raw (join "/" dirSegments +:+ "/" +:+ name)
  = join "/" (fold_left resolveStep (split "/" raw) dirSegments).
Proof.
  intros Hrel Hne Hall Hname. unfold resolveImportPath, slice_init.
  rewrite Hrel, (split_file_name _ _ Hname), removelast_last.
  pose proof (segments_slash_free _ Hall) as Hsf.
  rewrite (split_join _ Hne Hsf), (split_join _ Hne Hsf).
  rewrite fold_left_app, (fold_proper _ [] Hall). reflexivity.
Qed.

Lemma split_dot (x : string) :
  slashFree x = true -> split "/" ("./" +:+ x) = ["."; x].
Proof.
  intros Hx. unfold split.
  change ("./" +:+ x) with ("." +:+ "/" +:+ x).
  rewrite split_scan_segment by reflexivity.
  now rewrite split_scan_slash_free.
Qed.

Lemma split_dotdot (x : string) :
  slashFree x = true -> split "/" ("../" +:+ x) = [".."; x].
Proof.
  intros Hx. unfold split.
  change ("../" +:+ x) with (".." +:+ "/" +:+ x).
  rewrite split_scan_segment by reflexivity.
  now rewrite split_scan_slash_free.
Qed.

Lemma resolveStep_push (resolved : list string) (x : string) :
  properSegment x -> resolveStep resolved x = resolved ++ [x].
Proof.
  intros (Hne & Hd & Hdd & _). unfold resolveStep.
  apply String.eqb_neq in Hne, Hd, Hdd. now rewrite Hdd, Hd, Hne.
Qed.

(** X3. A reference is resolved against the directory of the importing
    file. For a file [name] in the directory of the segments
    [dirSegments], the result is made of the segments of the directory,
    with the segments of the reference applied to them and joined by
    slashes; so [./x] gives the path of [x] in that directory, and [../x]
    its path in the parent directory. The name of the importing file
    itself plays no part. *)
Theorem resolved_against_directory
    (raw name x : string) (dirSegments : list string) :
  dirSegments <> [] ->
  Forall properSegment dirSegments ->
  slashFree name = true ->
  properSegment x ->
  let dir := join "/" dirSegments in
  (isRelative raw = true ->
   resolveImportPath raw (dir +:+ "/" +:+ name)
   = join "/" (fold_left resolveStep (split "/" raw) dirSegments))
  /\ resolveImportPath ("./" +:+ x) (dir +:+ "/" +:+ name) = dir +:+ "/" +:+ x
  /\ resolveImportPath ("../" +:+ x) (dir +:+ "/" +:+ name)
     = join "/" (removelast dirSegments ++ [x]).
Proof.
  intros Hne Hall Hname Hx dir. subst dir.
  pose proof Hx as (_ & _ & _ & Hsf).
  split; [|split].
  - intros Hrel. now apply resolved_from_directory.
  - rewrite resolved_from_directory; try assumption.
    + rewrite (split_dot _ Hsf). cbn [fold_left].
      change (resolveStep dirSegments ".") with dirSegments.
      rewrite (resolveStep_push _ _ Hx). now apply join_snoc.
    + unfold isRelative, startsWith. now rewrite prefix_append.
  - rewrite resolved_from_directory; try assumption.
    + rewrite (split_dotdot _ Hsf). cbn [fold_left].
      change (resolveStep dirSegments "..") with (removelast dirSegments).
      now rewrite (resolveStep_push _ _ Hx).
    + unfold isRelative, startsWith.
      rewrite (prefix_append "../" x). apply orb_true_r.
Qed.

(** X1. What [parseImports] returns: the references that are written with a
    leading slash, as they are written and in their order, and nothing
    else. A relative reference is resolved and then dropped by the filter,
    which looks at the resolved path; the path of the importing file plays
    no part in the result. *)
Theorem parseImports_returns_rooted_references (content currentPath : string) :
  parseImports content currentPath
  = List.filter (startsWith "/") (rawReferences content).
Proof. apply ImportsFacts.parseImports_absolute_only. Qed.

End ResolveFacts.

(** * Every run of the loader ends *)

Module LoaderTermination.
Import JsString Loader LoaderSpec.

(** ** The lexicographic order is well founded *)

Lemma lexlt_length (a b : list nat) : lexlt a b -> length a = length b.
Proof. induction 1; cbn; congruence. Qed.

Lemma lexlt_acc (n : nat) (l : list nat) : length l = n -> Acc lexlt l.
Proof.
  revert l; induction n as [|n IHn]; intros l Hl.
  - destruct l; [|discriminate]. constructor. intros y Hy. inversion Hy.
  - destruct l as [|x xs]; [discriminate|]. injection Hl as Hl.
    revert xs Hl. induction (lt_wf x) as [x _ IHx]. intros xs Hl.
    pose proof (IHn xs Hl) as Hacc. revert Hl.
    induction Hacc as [xs _ IHxs]. intros Hl.
    constructor. intros y Hy.
    inversion Hy as [x' ? xs' ? Hlt Hlen Hx Hy'|? xs' ? Hlex Hx Hy'].
    + apply IHx; [exact Hlt|congruence].
    + apply IHxs; [exact Hlex|]. rewrite (lexlt_length _ _ Hlex). exact Hl.
Qed.

Lemma lexlt_wf : well_founded lexlt.
Proof. intros l. now apply (lexlt_acc (length l)). Qed.

(** Two work vectors that agree above a depth, the first smaller at that
    depth, are in the order. *)
Lemma lexlt_pointwise (f g : nat -> nat) (k len start : nat) :
  start <= k < start + len ->
  (forall d, start <= d < k -> f d = g d) ->
  f k < g k ->
  lexlt (map f (seq start len)) (map g (seq start len)).
Proof.
  revert start; induction len as [|len IH]; intros start Hk Heq Hlt; [lia|].
  cbn [seq map]. destruct (Nat.eq_dec start k) as [->|Hne].
  - apply lexlt_here; [exact Hlt|]. now rewrite !length_map.
  - rewrite (Heq start) by lia. apply lexlt_later.
    apply IH; [lia| |exact Hlt]. intros d Hd. apply Heq. lia.
Qed.

(** ** The work left goes down with every step *)

Lemma weightAt_app d (a b : list Task) :
  weightAt d (a ++ b) = weightAt d a + weightAt d b.
Proof. unfold weightAt. now rewrite map_app, list_sum_app. Qed.

Lemma weightAt_cons d (x : Task) (l : list Task) :
  weightAt d (x :: l) = taskWeight d x + weightAt d l.
Proof. reflexivity. Qed.

Lemma weightAt_delete d (l : list Task) i t :
  l !! i = Some t ->
  weightAt d l = taskWeight d t + weightAt d (delete i l).
Proof.
  revert i; induction l as [|x l IH]; intros i Hl; [discriminate|].
  destruct i as [|i].
  - injection Hl as ->. reflexivity.
  - cbn in Hl. change (delete (S i) (x :: l)) with (x :: delete i l).
    rewrite !weightAt_cons, (IH i Hl). lia.
Qed.

Section Loading.
Context {W : Type} `{Octokit W}.
Variables (branch : string) (maxDepth : nat).

(** Starting [loadFile] adds at most one invocation, at the given depth. *)
Lemma probe_inflight candidates depth (st : State W) :
  exists added,
    inflight (probe candidates depth st) = inflight st ++ added
    /\ Forall (fun t => t_depth t = depth) added
    /\ weightAt depth added <= length candidates.
Proof.
  unfold probe. destruct candidates as [|p rest].
  - exists []. rewrite app_nil_r. repeat split; [constructor|cbn; lia].
  - destruct (bool_decide (p ∈ loaded st)).
    + exists []. rewrite app_nil_r. repeat split; [constructor|cbn; lia].
    + eexists [_]. split; [reflexivity|]. split; [now repeat constructor|].
      unfold weightAt, taskWeight. cbn. rewrite Nat.eqb_refl. cbn. lia.
Qed.

Lemma loadAll_inflight paths depth (st : State W) :
  exists added,
    inflight (loadAll paths depth st) = inflight st ++ added
    /\ Forall (fun t => t_depth t = depth) added.
Proof.
  revert st; induction paths as [|p paths IH]; intros st.
  - exists []. rewrite app_nil_r. split; [reflexivity|constructor].
  - rewrite LoaderFacts.loadAll_cons.
    destruct (IH (loadFile p depth st)) as (added2 & -> & Hall2).
    unfold loadFile.
    destruct (probe_inflight (possiblePaths p) depth
                {| world := world st; loaded := loaded st; files := files st;
                   inflight := inflight st; requested := requested st;
                   calls := calls st ++ [(p, depth)] |})
      as (added1 & -> & Hall1 & _).
    exists (added1 ++ added2). cbn [inflight]. rewrite app_assoc.
    split; [reflexivity|]. now apply Forall_app.
Qed.

Lemma weightAt_other_depth d depth (tasks : list Task) :
  Forall (fun t => t_depth t = depth) tasks -> d <> depth ->
  weightAt d tasks = 0.
Proof.
  intros Hall Hne.
  induction Hall as [|t tasks Ht _ IH]; [reflexivity|].
  rewrite weightAt_cons, IH. unfold taskWeight. rewrite Ht.
  destruct (Nat.eqb_spec depth d); [congruence|reflexivity].
Qed.

(** The invocation that resumes is replaced by less work at its own depth
    and leaves the work above its depth as it is. *)
Lemma resume_work (t : Task) (st : State W) :
  exists added,
    inflight (Loader.resume branch maxDepth t st) = inflight st ++ added
    /\ weightAt (t_depth t) added < taskWeight (t_depth t) t
    /\ forall d, d < t_depth t -> weightAt d added = 0.
Proof.
  unfold Loader.resume.
  destruct (GitHub.getFileContent (t_path t) branch (world st)) as [[file|e] w'].
  - destruct (Nat.ltb_spec (t_depth t) maxDepth) as [Hlt|Hge].
    + match goal with |- context [loadAll ?ps ?d ?s] =>
        destruct (loadAll_inflight ps d s) as (added & Hadd & Hall) end.
      exists added. split; [exact Hadd|]. split.
      * rewrite (weightAt_other_depth _ _ _ Hall) by lia.
        unfold taskWeight. rewrite Nat.eqb_refl. lia.
      * intros d Hd. apply (weightAt_other_depth _ _ _ Hall). lia.
    + exists []. cbn [inflight]. rewrite app_nil_r. split; [reflexivity|].
      split; [|reflexivity]. unfold taskWeight. rewrite Nat.eqb_refl. cbn. lia.
  - match goal with |- context [probe ?cs ?d ?s] =>
      destruct (probe_inflight cs d s) as (added & Hadd & Hall & Hw) end.
    exists added. split; [exact Hadd|]. split.
    + unfold taskWeight at 1. rewrite Nat.eqb_refl. lia.
    + intros d Hd. apply (weightAt_other_depth _ _ _ Hall). lia.
Qed.

Lemma step_decreases (st st' : State W) :
  stepBack branch maxDepth st' st ->
  lexlt (workLeft maxDepth st') (workLeft maxDepth st).
Proof.
  intros [[Hbound _] [i Hc]]. unfold Loader.complete in Hc.
  destruct (inflight st !! i) as [t|] eqn:Ht; [|discriminate].
  injection Hc as <-.
  assert (Hd : t_depth t <= maxDepth).
  { rewrite Forall_forall in Hbound. apply Hbound.
    eapply list_elem_of_lookup_2. exact Ht. }
  match goal with |- context [Loader.resume _ _ t ?s] =>
    destruct (resume_work t s) as (added & Hadd & Hless & Habove) end.
  cbn [inflight] in Hadd. unfold workLeft. rewrite Hadd.
  apply (lexlt_pointwise _ _ (t_depth t)); [lia| |].
  - intros d Hdlt. rewrite weightAt_app, (weightAt_delete d _ _ _ Ht).
    rewrite Habove by lia. unfold taskWeight.
    destruct (Nat.eqb_spec (t_depth t) d); lia.
  - rewrite weightAt_app, (weightAt_delete (t_depth t) _ _ _ Ht). lia.
Qed.

Lemma stepBack_wf : well_founded (stepBack branch maxDepth).
Proof.
  apply (wf_incl _ _ (fun a b => lexlt (workLeft maxDepth a) (workLeft maxDepth b))).
  - intros a b Hab. now apply step_decreases.
  - apply wf_inverse_image, lexlt_wf.
Qed.

(** From a state within the depth bound, some run reaches a state with
    no fetch in flight. *)
Lemma run_ends (st : State W) :
  Spec.bounded maxDepth st ->
  exists st', Loader.steps branch maxDepth st st' /\ inflight st' = [].
Proof.
  induction (stepBack_wf st) as [st _ IH]. intros Hb.
  destruct (inflight st) as [|t ts] eqn:Hi.
  - exists st. split; [constructor|exact Hi].
  - destruct (Loader.complete branch maxDepth 0 st) as [st1|] eqn:Hc.
    2:{ unfold Loader.complete in Hc. rewrite Hi in Hc. discriminate. }
    assert (Hb1 : Spec.bounded maxDepth st1).
    { eapply LoaderFacts.complete_bounded; eassumption. }
    destruct (IH st1) as (st' & Hs & Hdone); [|exact Hb1|].
    + split; [exact Hb|]. now exists 0.
    + exists st'. split; [|exact Hdone].
      econstructor; [exists 0; exact Hc|exact Hs].
Qed.

Lemma start_bounded entryPaths (w : W) :
  Spec.bounded maxDepth (start entryPaths w).
Proof. apply LoaderFacts.loadAll_bounded; [lia|]. split; constructor. Qed.

Lemma steps_bounded (a b : State W) :
  Loader.steps branch maxDepth a b ->
  Spec.bounded maxDepth a -> Spec.bounded maxDepth b.
Proof.
  induction 1 as [|a b c [i Hi] _ IH]; [auto|].
  intros Ha. apply IH. eapply LoaderFacts.complete_bounded; eassumption.
Qed.

(** X4. [getFilesWithImports] always returns: whatever the repository answers
    and in whatever order the fetches complete, no run goes on for ever,
    and some run reaches the end. *)
Theorem getFilesWithImports_returns entryPaths (w : W) :
  (exists fs, Loader.returns branch maxDepth entryPaths w fs)
  /\ ~ (exists run : nat -> State W,
          run 0 = start entryPaths w
          /\ forall n, Loader.step branch maxDepth (run n) (run (S n))).
Proof.
  split.
  - destruct (run_ends (start entryPaths w) (start_bounded _ _))
      as (st' & Hs & Hdone).
    exists (files st'), st'. auto.
  - intros (run & H0 & Hrun).
    assert (Hb : forall n, Spec.bounded maxDepth (run n)).
    { induction n as [|n IHn]; [rewrite H0; apply start_bounded|].
      destruct (Hrun n) as [i Hi].
      eapply LoaderFacts.complete_bounded; eassumption. }
    assert (Hno : forall st, forall n, run n = st -> False).
    { intros st. induction (stepBack_wf st) as [st _ IH]. intros n Hn.
      apply (IH (run (S n))) with (n := S n); [|reflexivity].
      split; [rewrite <- Hn; apply Hb|rewrite <- Hn; apply Hrun]. }
    exact (Hno _ 0 eq_refl).
Qed.

End Loading.
End LoaderTermination.

(** * What the loader returns *)

Module LoaderClosure.
Import JsString Loader LoaderSpec.

Section Loading.
Context {W : Type} `{Octokit W}.
Variables (branch : string) (maxDepth : nat) (entryPaths : list string).

(** A fetched file is recorded under the path it was asked for. *)
Lemma getFileContent_path p (w w' : W) file :
  GitHub.getFileContent p branch w = (Return file, w') -> path file = p.
Proof.
  unfold GitHub.getFileContent, bind.
  destruct (repos_getContent p branch w) as [[[text blob|]|e] w1]; cbn;
    intros Hf; try discriminate.
  now injection Hf as <- _.
Qed.







Lemma probe_keeps candidates depth (st : State W) :
  files (probe candidates depth st) = files st
  /\ loaded (probe candidates depth st) = loaded st
  /\ exists more, requested (probe candidates depth st) = requested st ++ more.
Proof.
  unfold probe. destruct candidates as [|p rest].
  - repeat split. exists []. now rewrite app_nil_r.
  - destruct (bool_decide (p ∈ loaded st)); cbn.
    + repeat split. exists []. now rewrite app_nil_r.
    + repeat split. now exists [p].
Qed.

Lemma loadAll_keeps paths depth (st : State W) :
  files (loadAll paths depth st) = files st
  /\ loaded (loadAll paths depth st) = loaded st
  /\ exists more, requested (loadAll paths depth st) = requested st ++ more.
Proof.
  revert st; induction paths as [|q paths IH]; intros st.
  - repeat split. exists []. now rewrite app_nil_r.
  - rewrite LoaderFacts.loadAll_cons.
    destruct (IH (loadFile q depth st)) as (-> & -> & more2 & ->).
    unfold loadFile.
    match goal with |- context [probe ?cs ?d ?s] =>
      destruct (probe_keeps cs d s) as (-> & -> & more1 & ->) end.
    cbn. repeat split. exists (more1 ++ more2). now rewrite app_assoc.
Qed.

Lemma complete_grows i (st st' : State W) :
  Loader.complete branch maxDepth i st = Some st' ->
  (exists more, files st' = files st ++ more)
  /\ loaded st ⊆ loaded st'
  /\ (exists more, requested st' = requested st ++ more).
Proof.
  unfold Loader.complete. destruct (inflight st !! i) as [t|]; [|discriminate].
  intros Hc. injection Hc as <-. unfold Loader.resume.
  cbn [world loaded files inflight requested calls].
  destruct (GitHub.getFileContent (t_path t) branch (world st)) as [[file|e] w'].
  - destruct (Nat.ltb_spec (t_depth t) maxDepth).
    + match goal with |- context [loadAll ?ps ?d ?s] =>
        destruct (loadAll_keeps ps d s) as (-> & -> & more & ->) end.
      cbn. split; [now exists [file]|]. split; [set_solver|now exists more].
    + cbn. split; [now exists [file]|]. split; [set_solver|].
      exists []. now rewrite app_nil_r.
  - match goal with |- context [probe ?cs ?d ?s] =>
      destruct (probe_keeps cs d s) as (-> & -> & more & ->) end.
    cbn. split; [exists []; now rewrite app_nil_r|]. split; [set_solver|].
    now exists more.
Qed.

(** X6. Along a run nothing is taken back: the files recorded so far are the
    beginning of the files recorded later, in the same order, the paths
    marked as loaded stay marked, and the requests made stay made. *)
Theorem run_only_grows (a b : State W) :
  Loader.steps branch maxDepth a b ->
  (exists more, files b = files a ++ more)
  /\ loaded a ⊆ loaded b
  /\ (exists more, requested b = requested a ++ more).
Proof.
  induction 1 as [a|a b c [i Hi] Hs ((m2 & Hf2) & Hl2 & (r2 & Hr2))].
  - split; [|split]; [exists []|set_solver|exists []]; now rewrite app_nil_r.
  - destruct (complete_grows _ _ _ Hi) as ((m1 & Hf1) & Hl1 & (r1 & Hr1)).
    split; [|split].
    + exists (m1 ++ m2). now rewrite Hf2, Hf1, app_assoc.
    + set_solver.
    + exists (r1 ++ r2). now rewrite Hr2, Hr1, app_assoc.
Qed.

(** ** The visited set at work *)

Lemma probe_fresh candidates depth (st : State W) :
  exists more,
    requested (probe candidates depth st) = requested st ++ more
    /\ forall p, p ∈ more -> p ∉ loaded st.
Proof.
  unfold probe. destruct candidates as [|p rest].
  - exists []. rewrite app_nil_r. split; [reflexivity|]. intros p Hp. inversion Hp.
  - destruct (bool_decide (p ∈ loaded st)) eqn:Hd; cbn.
    + exists []. rewrite app_nil_r. split; [reflexivity|].
      intros q Hq. inversion Hq.
    + exists [p]. split; [reflexivity|]. intros q Hq.
      apply list_elem_of_singleton in Hq as ->.
      now apply bool_decide_eq_false in Hd.
Qed.

Lemma loadAll_fresh paths depth (st : State W) :
  exists more,
    requested (loadAll paths depth st) = requested st ++ more
    /\ forall p, p ∈ more -> p ∉ loaded st.
Proof.
  revert st; induction paths as [|q paths IH]; intros st.
  - exists []. rewrite app_nil_r. split; [reflexivity|]. intros p Hp. inversion Hp.
  - rewrite LoaderFacts.loadAll_cons.
    destruct (IH (loadFile q depth st)) as (more2 & -> & Hfresh2).
    unfold loadFile in *.
    match goal with |- context [probe ?cs ?d ?s] =>
      destruct (probe_fresh cs d s) as (more1 & Hr1 & Hfresh1);
      destruct (probe_keeps cs d s) as (_ & Hl1 & _) end.
    rewrite Hr1. cbn in *. exists (more1 ++ more2).
    split; [now rewrite app_assoc|].
    intros p [Hp|Hp]%elem_of_app; [now apply Hfresh1|].
    specialize (Hfresh2 p Hp). now rewrite Hl1 in Hfresh2.
Qed.

Lemma complete_fresh i (st st' : State W) :
  Loader.complete branch maxDepth i st = Some st' ->
  exists more,
    requested st' = requested st ++ more
    /\ forall p, p ∈ more -> p ∉ loaded st.
Proof.
  unfold Loader.complete. destruct (inflight st !! i) as [t|]; [|discriminate].
  intros Hc. injection Hc as <-. unfold Loader.resume.
  cbn [world loaded files inflight requested calls].
  destruct (GitHub.getFileContent (t_path t) branch (world st)) as [[file|e] w'].
  - destruct (Nat.ltb_spec (t_depth t) maxDepth).
    + match goal with |- context [loadAll ?ps ?d ?s] =>
        destruct (loadAll_fresh ps d s) as (more & -> & Hfresh) end.
      cbn in *. exists more. split; [reflexivity|].
      intros p Hp. specialize (Hfresh p Hp). set_solver.
    + exists []. cbn. rewrite app_nil_r. split; [reflexivity|].
      intros p Hp. inversion Hp.
  - match goal with |- context [probe ?cs ?d ?s] =>
      destruct (probe_fresh cs d s) as (more & -> & Hfresh) end.
    cbn in *. now exists more.
Qed.

(** The paths marked as loaded are the paths of the files recorded. *)
Lemma loaded_are_files (w : W) (st : State W) :
  Loader.steps branch maxDepth (start entryPaths w) st ->
  forall p, p ∈ loaded st <-> exists f, f ∈ files st /\ path f = p.
Proof.
  intros Hs.
  assert (Hinv : forall a b : State W, Loader.steps branch maxDepth a b ->
            (forall p, p ∈ loaded a <-> exists f, f ∈ files a /\ path f = p) ->
            (forall p, p ∈ loaded b <-> exists f, f ∈ files b /\ path f = p)).
  { clear. induction 1 as [|a b c [i Hi] _ IH]; [auto|].
    intros Ha. apply IH. clear IH.
    unfold Loader.complete in Hi.
    destruct (inflight a !! i) as [t|]; [|discriminate].
    injection Hi as <-. unfold Loader.resume.
    cbn [world loaded files inflight requested calls].
    destruct (GitHub.getFileContent (t_path t) branch (world a))
      as [[file|e] w'] eqn:Hfetch.
    - pose proof (getFileContent_path _ _ _ _ Hfetch) as Hpath.
      assert (Hnew : forall p, p ∈ {[t_path t]} ∪ loaded a
                <-> exists f, f ∈ files a ++ [file] /\ path f = p).
      { intros p. rewrite elem_of_union, elem_of_singleton, Ha. split.
        - intros [->|(f & Hf & Hp)].
          + exists file. split; [|exact Hpath].
            apply elem_of_app. right. now apply list_elem_of_singleton.
          + exists f. split; [|exact Hp]. apply elem_of_app. now left.
        - intros (f & [Hf|Hf]%elem_of_app & Hp).
          + right. now exists f.
          + apply list_elem_of_singleton in Hf as ->. left. congruence. }
      destruct (Nat.ltb_spec (t_depth t) maxDepth); [|exact Hnew].
      match goal with |- context [loadAll ?ps ?d ?s] =>
        destruct (loadAll_keeps ps d s) as (-> & -> & _) end.
      exact Hnew.
    - match goal with |- context [probe ?cs ?d ?s] =>
        destruct (probe_keeps cs d s) as (-> & -> & _) end.
      exact Ha. }
  apply (Hinv _ _ Hs). intros p. unfold start.
  destruct (loadAll_keeps entryPaths 0 (init w)) as (-> & -> & _). cbn.
  split; [set_solver|]. intros (f & Hf & _). inversion Hf.
Qed.

(** X7. Once the fetch of a path has succeeded, the path is not requested
    again: in a run from the seeds, the requests made after a state are all
    for paths of which that state has no file yet. Two records with one
    path can only come from fetches that were in flight together. *)
Theorem recorded_path_not_refetched (w : W) (a b : State W) :
  Loader.steps branch maxDepth (start entryPaths w) a ->
  Loader.steps branch maxDepth a b ->
  exists more,
    requested b = requested a ++ more
    /\ forall p f, p ∈ more -> f ∈ files a -> path f <> p.
Proof.
  intros Hstart Hs.
  assert (Hfresh : exists more, requested b = requested a ++ more
                     /\ forall p, p ∈ more -> p ∉ loaded a).
  { clear Hstart. induction Hs as [a|a b c [i Hi] Hs (m2 & Hr2 & Hf2)].
    - exists []. rewrite app_nil_r. split; [reflexivity|].
      intros p Hp. inversion Hp.
    - destruct (complete_fresh _ _ _ Hi) as (m1 & Hr1 & Hf1).
      destruct (complete_grows _ _ _ Hi) as (_ & Hsub & _).
      exists (m1 ++ m2). split; [now rewrite Hr2, Hr1, app_assoc|].
      intros p [Hp|Hp]%elem_of_app; [now apply Hf1|].
      specialize (Hf2 p Hp). set_solver. }
  destruct Hfresh as (more & Hr & Hf). exists more. split; [exact Hr|].
  intros p f Hp Hin Hpath. apply (Hf p Hp).
  apply (loaded_are_files w a Hstart). now exists f.
Qed.


End Loading.
End LoaderClosure.

(** * The matcher on the expressions of the branch route *)

Module ReFacts.
Import JsString JsStringFacts Re NameSpec.

Lemma scan_cons (r : re) (prev : option ascii) (c : ascii) (s : string) :
  scan r 0 prev (String c s) =
    match run r (prev, String c s) Some with
    | Some q =>
        Hit (take (S (String.length s) - remaining q) (String c s)) ::
          match S (String.length s) - remaining q with
          | O => Lit c :: scan r 0 (Some c) s
          | S k => scan r k (Some c) s
          end
    | None => Lit c :: scan r 0 (Some c) s
    end.
Proof. reflexivity. Qed.

Lemma scan_skip (r : re) (k : nat) (prev : option ascii) (c : ascii) (s : string) :
  scan r (S k) prev (String c s) = scan r k (Some c) s.
Proof. reflexivity. Qed.

Lemma run_cls (f : ascii -> bool) (prev : option ascii) (c : ascii) (s : string)
    (k : pos -> option pos) :
  run (Cls f) (prev, String c s) k = if f c then k (Some c, s) else None.
Proof. reflexivity. Qed.

Lemma starLoop_step (body : pos -> (pos -> option pos) -> option pos)
    (k : pos -> option pos) (fuel : nat) (p : pos) :
  starLoop body k (S fuel) p =
    match body p (fun p' => if Nat.ltb (remaining p') (remaining p)
                            then starLoop body k fuel p' else None) with
    | Some q => Some q
    | None => k p
    end.
Proof. reflexivity. Qed.

(** A repetition of a class, with nothing required behind it, ends behind
    the longest run. *)
Lemma star_cls (f : ascii -> bool) (fuel : nat) (prev : option ascii) (s : string) :
  String.length s < fuel ->
  starLoop (run (Cls f)) Some fuel (prev, s) = Some (skipRun f prev s).
Proof.
  revert prev s; induction fuel as [|fuel IH]; intros prev s Hf; [lia|].
  rewrite starLoop_step. destruct s as [|c s]; [reflexivity|].
  rewrite run_cls. simpl skipRun. destruct (f c); [|reflexivity].
  unfold remaining; cbn [snd String.length].
  destruct (Nat.ltb_spec (String.length s) (S (String.length s))) as [_|]; [|lia].
  rewrite IH by (simpl in Hf; lia). reflexivity.
Qed.

Lemma skipRun_remaining (f : ascii -> bool) (prev : option ascii) (s : string) :
  remaining (skipRun f prev s) <= String.length s.
Proof.
  revert prev; induction s as [|c s IH]; intros prev; simpl; [reflexivity|].
  destruct (f c); [specialize (IH (Some c)); lia|reflexivity].
Qed.

Lemma take_0 (s : string) : take 0 s = "".
Proof. now destruct s. Qed.

End ReFacts.

(** * The sanitising of a branch name *)

Module NameFacts.
Import JsString JsStringFacts Re BranchRoute NameSpec ReFacts.

Lemma isDash_eq (c : ascii) : isDash c = true -> c = "-"%char.
Proof. unfold isDash. intros Hc. symmetry. now apply Ascii.eqb_eq. Qed.

(** ** The three passes *)

Lemma unsafe_run (prev : option ascii) (c : ascii) (s : string) :
  run unsafeRegex (prev, String c s) Some =
    if unsafeUnit c then Some (Some c, s) else None.
Proof. reflexivity. Qed.

Lemma unsafe_pass (prev : option ascii) (s : string) :
  render "-" (scan unsafeRegex 0 prev s) = dashOut s.
Proof.
  revert prev; induction s as [|c s IH]; intros prev; [reflexivity|].
  rewrite scan_cons, unsafe_run.
  simpl dashOut. destruct (unsafeUnit c).
  - unfold remaining; cbn [snd].
    replace (S (String.length s) - String.length s) with 1 by lia.
    cbn [render]. rewrite IH. reflexivity.
  - cbn [render]. now rewrite IH.
Qed.

Lemma dashes_run (prev : option ascii) (c : ascii) (s : string) :
  run dashesRegex (prev, String c s) Some =
    if isDash c then Some (skipRun isDash (Some c) s) else None.
Proof.
  change (run dashesRegex (prev, String c s) Some)
    with (run (Cls isDash) (prev, String c s)
            (fun p => starLoop (run (Cls isDash)) Some (S (remaining p)) p)).
  rewrite run_cls. destruct (isDash c); [|reflexivity].
  apply star_cls. unfold remaining; simpl; lia.
Qed.

Lemma dashes_pass (s : string) :
  (forall prev, render "-" (scan dashesRegex 0 prev s) = squeeze false s)
  /\ (forall prev,
        render "-" (scan dashesRegex
                      (String.length s - remaining (skipRun isDash prev s)) prev s)
        = squeeze true s).
Proof.
  induction s as [|c s [IH0 IH1]]; [split; reflexivity|].
  assert (H0 : forall prev,
             render "-" (scan dashesRegex 0 prev (String c s))
             = squeeze false (String c s)).
  { intros prev. rewrite scan_cons, dashes_run. simpl squeeze.
    destruct (isDash c) eqn:Hc.
    - pose proof (skipRun_remaining isDash (Some c) s) as Hle.
      replace (S (String.length s) - remaining (skipRun isDash (Some c) s))
        with (S (String.length s - remaining (skipRun isDash (Some c) s)))
        by lia.
      cbn [render]. rewrite IH1. reflexivity.
    - cbn [render]. now rewrite IH0. }
  split; [exact H0|]. intros prev. simpl skipRun. destruct (isDash c) eqn:Hc.
  - pose proof (skipRun_remaining isDash (Some c) s) as Hle.
    replace (String.length (String c s) - remaining (skipRun isDash (Some c) s))
      with (S (String.length s - remaining (skipRun isDash (Some c) s)))
      by (simpl; lia).
    rewrite scan_skip, IH1. simpl. now rewrite Hc.
  - unfold remaining; cbn [snd].
    replace (String.length (String c s) - String.length (String c s)) with 0 by lia.
    rewrite H0. simpl. now rewrite Hc.
Qed.

Lemma edge_run_start (c : ascii) (s : string) :
  run edgeDashRegex (None, String c s) Some =
    if isDash c then Some (Some c, s) else None.
Proof.
  change (run edgeDashRegex (None, String c s) Some)
    with (match run (Cls isDash) (None, String c s) Some with
          | Some q => Some q
          | None => run (Cls isDash) (None, String c s) (fun p => run Eol p Some)
          end).
  rewrite !run_cls. destruct (isDash c); reflexivity.
Qed.

Lemma edge_run_inside (a c : ascii) (s : string) :
  run edgeDashRegex (Some a, String c s) Some =
    if isDash c && String.eqb s "" then Some (Some c, s) else None.
Proof.
  change (run edgeDashRegex (Some a, String c s) Some)
    with (run (Cls isDash) (Some a, String c s) (fun p => run Eol p Some)).
  rewrite run_cls. destruct (isDash c); [|reflexivity]. now destruct s.
Qed.

Lemma edge_pass_inside (a : ascii) (s : string) :
  render "" (scan edgeDashRegex 0 (Some a) s) = dropLastDash s.
Proof.
  revert a; induction s as [|c s IH]; intros a; [reflexivity|].
  rewrite scan_cons, edge_run_inside. simpl dropLastDash.
  destruct (isDash c && String.eqb s "") eqn:Hc.
  - unfold remaining; cbn [snd].
    replace (S (String.length s) - String.length s) with 1 by lia.
    cbn [render]. apply andb_true_iff in Hc as [_ Hs].
    apply String.eqb_eq in Hs. subst s. reflexivity.
  - cbn [render]. now rewrite IH.
Qed.

Lemma edge_pass (s : string) : replaceAll edgeDashRegex "" s = trimEnds s.
Proof.
  unfold replaceAll. destruct s as [|c s]; [reflexivity|].
  rewrite scan_cons, edge_run_start. simpl trimEnds. destruct (isDash c).
  - unfold remaining; cbn [snd].
    replace (S (String.length s) - String.length s) with 1 by lia.
    cbn [render]. now rewrite edge_pass_inside.
  - cbn [render]. now rewrite edge_pass_inside.
Qed.

(** The sanitising, pass by pass. *)
Lemma sanitize_passes (s : string) :
  sanitize s = trimEnds (squeeze false (dashOut (toLowerCase s))).
Proof.
  unfold sanitize. rewrite edge_pass. unfold replaceAll.
  rewrite unsafe_pass. now rewrite (proj1 (dashes_pass _)).
Qed.

(** ** What the passes leave *)

Ltac each_unit c :=
  destruct c as [[] [] [] [] [] [] [] []]; vm_compute; try reflexivity;
  try discriminate.

Lemma lowerUnit_safe (c : ascii) : unsafeUnit c = false -> lowerUnit c = c.
Proof. each_unit c. Qed.

Lemma lowerUnit_twice (c : ascii) : lowerUnit (lowerUnit c) = lowerUnit c.
Proof. each_unit c. Qed.

Lemma dash_not_alnum (c : ascii) : isDash c = true -> isLowerAlnum c = false.
Proof. intros Hc. apply isDash_eq in Hc. now subst c. Qed.

Lemma safe_unit (c : ascii) :
  unsafeUnit c = false -> isDash c = false -> isLowerAlnum c = true.
Proof.
  unfold unsafeUnit. intros Hs Hd. rewrite Hd, orb_false_r in Hs.
  now apply negb_false_iff in Hs.
Qed.

Lemma unsafe_not_alnum (c : ascii) : unsafeUnit c = true -> isLowerAlnum c = false.
Proof.
  unfold unsafeUnit. intros Hs. apply negb_true_iff, orb_false_iff in Hs.
  tauto.
Qed.

Lemma dashOut_safe (s : string) : allSafe (dashOut s) = true.
Proof.
  induction s as [|c s IH]; [reflexivity|]. simpl.
  rewrite IH, andb_true_r. now destruct (unsafeUnit c) eqn:Hc; [|rewrite Hc].
Qed.

Lemma squeeze_tidy (u : string) :
  allSafe u = true ->
  tidyFrom false (dropLastDash (squeeze false u)) = true
  /\ (squeeze true u <> "" -> tidyFrom true (dropLastDash (squeeze true u)) = true).
Proof.
  induction u as [|c u IH]; intros Hs; [split; [reflexivity|now intros []]|].
  simpl in Hs. apply andb_true_iff in Hs as [Hc Hu].
  apply negb_true_iff in Hc. destruct (IH Hu) as [IHa IHb].
  simpl squeeze. destruct (isDash c) eqn:Hd.
  - split; [|exact IHb].
    simpl dropLastDash. change (isDash "-") with true. cbn [andb].
    destruct (String.eqb (squeeze true u) "") eqn:He; [reflexivity|].
    simpl. apply IHb. intros Hz. rewrite Hz in He. discriminate.
  - assert (Ht : forall b, tidyFrom b (dropLastDash (String c (squeeze false u))) = true).
    { intros b. simpl dropLastDash. rewrite Hd. cbn [andb]. simpl tidyFrom.
      rewrite Hd, IHa, (safe_unit c Hc Hd). reflexivity. }
    split; [apply Ht|]. intros _. apply Ht.
Qed.

Lemma trimEnds_tidy (u : string) :
  allSafe u = true -> tidy (trimEnds (squeeze false u)) = true.
Proof.
  intros Hs. destruct u as [|c u]; [reflexivity|].
  pose proof Hs as Hs'. simpl in Hs'. apply andb_true_iff in Hs' as [Hc Hu].
  apply negb_true_iff in Hc. destruct (squeeze_tidy u Hu) as [IHa IHb].
  simpl squeeze. destruct (isDash c) eqn:Hd.
  - simpl trimEnds. destruct (squeeze true u) as [|d v] eqn:Hq; [reflexivity|].
    specialize (IHb ltac:(discriminate)).
    unfold tidy. destruct (dropLastDash (String d v)); [reflexivity|exact IHb].
  - simpl trimEnds. rewrite Hd. unfold tidy. simpl tidyFrom.
    rewrite Hd, IHa, (safe_unit c Hc Hd). reflexivity.
Qed.

Lemma tidyFrom_safe (b : bool) (t : string) :
  tidyFrom b t = true -> allSafe t = true.
Proof.
  revert b; induction t as [|c t IH]; intros b Ht; [reflexivity|].
  simpl in Ht. simpl. unfold unsafeUnit. destruct (isDash c) eqn:Hd.
  - apply andb_true_iff in Ht as [_ Ht]. rewrite orb_true_r. simpl. eauto.
  - apply andb_true_iff in Ht as [Ha Ht]. rewrite Ha. simpl. eauto.
Qed.

Lemma toLowerCase_safe (t : string) : allSafe t = true -> toLowerCase t = t.
Proof.
  induction t as [|c t IH]; intros Hs; [reflexivity|].
  simpl in Hs. apply andb_true_iff in Hs as [Hc Ht].
  apply negb_true_iff in Hc. simpl. now rewrite (lowerUnit_safe c Hc), IH.
Qed.

Lemma dashOut_of_safe (t : string) : allSafe t = true -> dashOut t = t.
Proof.
  induction t as [|c t IH]; intros Hs; [reflexivity|].
  simpl in Hs. apply andb_true_iff in Hs as [Hc Ht].
  apply negb_true_iff in Hc. simpl. now rewrite Hc, IH.
Qed.

Lemma squeeze_of_tidy (b : bool) (t : string) :
  tidyFrom b t = true -> squeeze b t = t.
Proof.
  revert b; induction t as [|c t IH]; intros b Ht; [reflexivity|].
  simpl in Ht. simpl. destruct (isDash c) eqn:Hd.
  - apply andb_true_iff in Ht as [Hb Ht]. apply negb_true_iff in Hb. subst b.
    rewrite (IH _ Ht). now rewrite (isDash_eq c Hd).
  - apply andb_true_iff in Ht as [_ Ht]. now rewrite (IH _ Ht).
Qed.

Lemma dropLastDash_of_tidy (b : bool) (t : string) :
  tidyFrom b t = true -> dropLastDash t = t.
Proof.
  revert b; induction t as [|c t IH]; intros b Ht; [reflexivity|].
  simpl in Ht. simpl. destruct (isDash c) eqn:Hd.
  - apply andb_true_iff in Ht as [_ Ht]. destruct t as [|d t]; [discriminate|].
    cbn [String.eqb andb]. now rewrite (IH _ Ht).
  - apply andb_true_iff in Ht as [_ Ht]. cbn [andb]. now rewrite (IH _ Ht).
Qed.

Lemma sanitize_of_tidy (t : string) : tidy t = true -> sanitize t = t.
Proof.
  intros Ht. rewrite sanitize_passes. destruct t as [|c t]; [reflexivity|].
  unfold tidy in Ht. pose proof (tidyFrom_safe _ _ Ht) as Hs.
  rewrite (toLowerCase_safe _ Hs), (dashOut_of_safe _ Hs).
  assert (Hf : tidyFrom false (String c t) = true).
  { simpl in Ht |- *. destruct (isDash c); [discriminate|exact Ht]. }
  rewrite (squeeze_of_tidy _ _ Hf). simpl in Ht |- *.
  destruct (isDash c); [discriminate|].
  apply andb_true_iff in Ht as [_ Ht]. now rewrite (dropLastDash_of_tidy _ _ Ht).
Qed.

Lemma sanitize_is_tidy (s : string) : tidy (sanitize s) = true.
Proof. rewrite sanitize_passes. apply trimEnds_tidy, dashOut_safe. Qed.

(** The passes neither add nor remove a letter or a digit. *)

Lemma alnumFree_dashOut (t : string) : alnumFree (dashOut t) = alnumFree t.
Proof.
  induction t as [|c t IH]; [reflexivity|]. simpl. rewrite IH.
  destruct (unsafeUnit c) eqn:Hc; [|reflexivity].
  now rewrite (unsafe_not_alnum c Hc).
Qed.

Lemma alnumFree_squeeze (b : bool) (u : string) :
  alnumFree (squeeze b u) = alnumFree u.
Proof.
  revert b; induction u as [|c u IH]; intros b; [reflexivity|]. simpl.
  destruct (isDash c) eqn:Hd.
  - rewrite (dash_not_alnum c Hd). destruct b; simpl; apply IH.
  - simpl. now rewrite IH.
Qed.

Lemma alnumFree_dropLastDash (v : string) :
  alnumFree (dropLastDash v) = alnumFree v.
Proof.
  induction v as [|c v IH]; [reflexivity|]. simpl.
  destruct (isDash c) eqn:Hd; cbn [andb].
  - rewrite (dash_not_alnum c Hd). destruct (String.eqb v "") eqn:He.
    + apply String.eqb_eq in He. now subst v.
    + simpl. now rewrite (dash_not_alnum c Hd).
  - simpl. now rewrite IH.
Qed.

Lemma alnumFree_trimEnds (v : string) : alnumFree (trimEnds v) = alnumFree v.
Proof.
  destruct v as [|c v]; [reflexivity|]. simpl. destruct (isDash c) eqn:Hd.
  - now rewrite alnumFree_dropLastDash, (dash_not_alnum c Hd).
  - simpl. now rewrite alnumFree_dropLastDash.
Qed.

Lemma alnumFree_sanitize (s : string) : alnumFree (sanitize s) = noAlnum s.
Proof.
  rewrite sanitize_passes, alnumFree_trimEnds, alnumFree_squeeze.
  apply alnumFree_dashOut.
Qed.

Lemma sanitize_nil_iff (s : string) : sanitize s = "" <-> noAlnum s = true.
Proof.
  rewrite <- alnumFree_sanitize. split; [now intros ->|].
  pose proof (sanitize_is_tidy s) as Ht.
  destruct (sanitize s) as [|c t]; [reflexivity|].
  unfold tidy in Ht. simpl in Ht |- *. intros Hf.
  destruct (isDash c); [discriminate|].
  apply andb_true_iff in Ht as [Ha _]. rewrite Ha in Hf. discriminate.
Qed.

(** ** The properties of the sanitised name *)

(** X25. The sanitised name is tidy (lower-case letters, digits and single
    dashes, no dash at either end), and sanitising it again changes
    nothing. *)
Theorem sanitize_yields_tidy_name (branchName : string) :
  tidy (sanitize branchName) = true
  /\ sanitize (sanitize branchName) = sanitize branchName.
Proof.
  split; [apply sanitize_is_tidy|apply sanitize_of_tidy, sanitize_is_tidy].
Qed.

(** X26. A name that is tidy already is left as it is. *)
Theorem tidy_name_unchanged (branchName : string) :
  tidy branchName = true -> sanitize branchName = branchName.
Proof. apply sanitize_of_tidy. Qed.

(** X27. The sanitised name is empty exactly when the given name has no
    letter and no digit. *)
Theorem sanitize_empty_iff (branchName : string) :
  sanitize branchName = "" <-> noAlnum branchName = true.
Proof. apply sanitize_nil_iff. Qed.

End NameFacts.

(** * The handlers of the branch route *)

Module BranchFacts.
Import JsString JsStringFacts BranchRoute NameSpec.

Section Handlers.
Context {W : Type} `{OctokitRefs W}.

Lemma answers_ok (w w' : W) (b : Body) :
  (forall m, b <> ErrorBody m) -> answers w (Return (json b), w').
Proof. intros Hb. exists (json b), w'. split; [reflexivity|]. left. now split. Qed.

Lemma answers_refused (w : W) (m : string) :
  answers w (Return (refuse 400 m), w).
Proof.
  exists (refuse 400 m), w. split; [reflexivity|]. right; left.
  repeat split. now exists m.
Qed.

Lemma answers_failed (w w' : W) (m : string) :
  answers w (Return (refuse 500 m), w').
Proof.
  exists (refuse 500 m), w'. split; [reflexivity|]. right; right.
  split; [reflexivity|]. now exists m.
Qed.

Ltac settle :=
  first [ apply answers_refused | apply answers_failed
        | apply answers_ok; intros m; discriminate ].

Ltac call c w :=
  let r := fresh "r" in let w' := fresh "w" in
  destruct (c w) as [[r|?] w']; cbn [fst snd]; try settle.

Lemma perform_answers (github : Target) (b : PostBody) (w : W) :
  answers w (guarded (perform github b) w).
Proof.
  unfold guarded, tryCatch, perform.
  destruct (actionIs b "create").
  { destruct (truthy (branchName b)) as [name|]; [|settle].
    unfold createBranch, bind, ret.
    call (git_getRef github ("heads/" +:+ orDefault "main" (fromBranch b))) w.
    call (git_createRef github ("refs/heads/" +:+ sanitize name) r) w0. }
  destruct (actionIs b "createPR").
  { destruct (truthy (title b)) as [t|]; [|settle].
    destruct (truthy (head b)) as [h|]; [|settle].
    unfold createPullRequest, bind, ret.
    call (pulls_create github
            {| pp_title := t; pp_body := orEmpty (prBody b); pp_head := h;
               pp_base := orDefault "main" (base b) |}) w. }
  destruct (actionIs b "merge").
  { destruct (prNumber b) as [n|]; [|settle].
    destruct (n =? 0)%Z; [settle|].
    unfold mergePullRequest, bind, ret. call (pulls_merge github n) w. }
  destruct (actionIs b "delete").
  { destruct (truthy (branchName b)) as [name|]; [|settle].
    unfold deleteBranch, bind, ret.
    call (git_deleteRef github ("heads/" +:+ name)) w. }
  settle.
Qed.

(** X28. Neither handler throws. A reply has status 200 with a body that
    is no error, status 400 with an error, in which case the remote world
    is as it was, or status 500 with an error. *)
Theorem handlers_answer (tokenHeader ownerParam repoParam : option string)
    (parsed : outcome PostBody) (w : W) :
  answers w (GET tokenHeader ownerParam repoParam w)
  /\ answers w (POST parsed w).
Proof.
  split.
  - unfold GET, guarded, tryCatch.
    destruct (truthy tokenHeader) as [t|]; [|settle].
    destruct (truthy ownerParam) as [o|]; [|settle].
    destruct (truthy repoParam) as [r|]; [|settle].
    unfold listBranches, bind, ret.
    call (repos_listBranches {| token := t; owner := o; repo := r |}) w.
    call (repos_get {| token := t; owner := o; repo := r |}) w0.
  - unfold POST. destruct parsed as [b|e]; [|settle].
    change (guarded (b0 <- (fun w0 : W => (Return b, w0)) ;; _)%js w)
      with (guarded
              (match truthy (pb_token b), truthy (pb_owner b), truthy (pb_repo b) with
               | Some t, Some o, Some r =>
                   perform {| token := t; owner := o; repo := r |} b
               | _, _, _ => ret (refuse 400 "Missing required parameters")
               end) w).
    destruct (truthy (pb_token b)) as [t|]; [|settle].
    destruct (truthy (pb_owner b)) as [o|]; [|settle].
    destruct (truthy (pb_repo b)) as [r|]; [|settle].
    apply perform_answers.
Qed.

Lemma POST_with_credentials (b : PostBody) (t o r : string) (w : W) :
  truthy (pb_token b) = Some t ->
  truthy (pb_owner b) = Some o ->
  truthy (pb_repo b) = Some r ->
  POST (Return b) w = guarded (perform {| token := t; owner := o; repo := r |} b) w.
Proof.
  intros Ht Ho Hr. unfold POST, guarded, tryCatch, bind.
  now rewrite Ht, Ho, Hr.
Qed.

(** X29. When a [create] request is answered with status 200, the remote
    was asked for the ref of the source branch ([fromBranch], or main when
    none is given) and answered with a commit, and was then asked to
    create the ref of the sanitised name at that commit, which it did; the
    branch reported carries the sanitised name, which is tidy, that
    commit, and is not marked as the default branch. *)
Theorem created_branch_is_tidy (b : PostBody) (w w' : W) (reply : Reply) :
  actionIs b "create" = true ->
  POST (Return b) w = (Return reply, w') ->
  status reply = 200%Z ->
  exists t o r name commit w1,
    truthy (pb_token b) = Some t
    /\ truthy (pb_owner b) = Some o
    /\ truthy (pb_repo b) = Some r
    /\ truthy (branchName b) = Some name
    /\ git_getRef {| token := t; owner := o; repo := r |}
         ("heads/" +:+ orDefault "main" (fromBranch b)) w
       = (Return commit, w1)
    /\ git_createRef {| token := t; owner := o; repo := r |}
         ("refs/heads/" +:+ sanitize name) commit w1
       = (Return tt, w')
    /\ body reply = BranchBody {| br_name := sanitize name; br_sha := commit;
                                  br_isDefault := false |}
    /\ tidy (sanitize name) = true.
Proof.
  intros Ha Hp Hs. unfold POST, guarded, tryCatch, bind in Hp. cbn [fst snd] in Hp.
  destruct (truthy (pb_token b)) as [t|];
    [|injection Hp as <- <-; discriminate].
  destruct (truthy (pb_owner b)) as [o|];
    [|injection Hp as <- <-; discriminate].
  destruct (truthy (pb_repo b)) as [r|];
    [|injection Hp as <- <-; discriminate].
  unfold perform in Hp. rewrite Ha in Hp.
  destruct (truthy (branchName b)) as [name|];
    [|injection Hp as <- <-; discriminate].
  unfold createBranch, bind, ret in Hp.
  destruct (git_getRef _ _ w) as [[commit|e] w1] eqn:Hget;
    [|injection Hp as <- <-; discriminate].
  destruct (git_createRef _ _ commit w1) as [[[]|e] w2] eqn:Hcreate;
    [|injection Hp as <- <-; discriminate].
  injection Hp as <- <-. exists t, o, r, name, commit, w1.
  repeat split; [exact Hget|exact Hcreate|apply NameFacts.sanitize_is_tidy].
Qed.

(** X30. A requested name that is not empty but holds no letter and no
    digit passes the check of the handler: the remote is asked to create
    the ref [refs/heads/], with an empty branch name. *)
Theorem create_with_symbols_only (b : PostBody) (t o r name : string) (w : W) :
  truthy (pb_token b) = Some t ->
  truthy (pb_owner b) = Some o ->
  truthy (pb_repo b) = Some r ->
  actionIs b "create" = true ->
  truthy (branchName b) = Some name ->
  noAlnum name = true ->
  let github := {| token := t; owner := o; repo := r |} in
  POST (Return b) w =
    guarded
      (commit <- git_getRef github ("heads/" +:+ orDefault "main" (fromBranch b)) ;;
       git_createRef github "refs/heads/" commit ;;;
       ret (json (BranchBody {| br_name := ""; br_sha := commit;
                                br_isDefault := false |})))%js w.
Proof.
  intros Ht Ho Hr Ha Hn Hz github.
  rewrite (POST_with_credentials b t o r w Ht Ho Hr).
  unfold guarded, tryCatch, perform. rewrite Ha, Hn.
  apply NameFacts.sanitize_nil_iff in Hz. rewrite Hz.
  unfold createBranch, bind, ret. subst github.
  change ("refs/heads/" +:+ "") with "refs/heads/".
  destruct (git_getRef _ _ w) as [[commit|e] w1]; [|reflexivity].
  now destruct (git_createRef _ _ commit w1) as [[[]|e] w2].
Qed.

End Handlers.

End BranchFacts.

(** * Keywords, seed files and the code context *)

Module SeedFacts.
Import JsString JsStringFacts Re ReFacts Seeds.

(** ** The texts of the matches are pieces of the input *)

Lemma hits_origin (r : re) (s : string) :
  forall skip prev text,
    text ∈ hits (scan r skip prev s) ->
    exists before prev' s' q,
      s = before +:+ s'
      /\ run r (prev', s') Some = Some q
      /\ text = take (String.length s' - remaining q) s'.
Proof.
  induction s as [|c s IH]; intros skip prev text Hin.
  - destruct skip as [|k]; [|now apply elem_of_nil in Hin].
    simpl in Hin. destruct (run r (prev, "") Some) as [q|] eqn:Hq;
      [|now apply elem_of_nil in Hin].
    simpl in Hin. apply list_elem_of_singleton in Hin. subst text.
    exists "", prev, "", q. now rewrite Hq.
  - assert (Hrest : forall k p, text ∈ hits (scan r k p s) ->
              exists before prev' s' q,
                String c s = before +:+ s'
                /\ run r (prev', s') Some = Some q
                /\ text = take (String.length s' - remaining q) s').
    { intros k p Hk. destruct (IH k p text Hk) as (a & p' & s' & q & Hs & Hq & Ht).
      exists (String c a), p', s', q. simpl. now rewrite <- Hs. }
    destruct skip as [|k]; [|rewrite scan_skip in Hin; eauto].
    rewrite scan_cons in Hin.
    destruct (run r (prev, String c s) Some) as [q|] eqn:Hq; [|simpl in Hin; eauto].
    simpl hits in Hin. apply elem_of_cons in Hin as [->|Hin].
    + exists "", prev, (String c s), q. now rewrite Hq.
    + destruct (S (String.length s) - remaining q); simpl in Hin; eauto.
Qed.

Lemma matchAll_included (r : re) (s text : string) :
  text ∈ matchAll r s -> includes text s = true.
Proof.
  intros Hin.
  destruct (hits_origin r s 0 None text Hin) as (a & p & s' & q & -> & _ & ->).
  set (n := String.length s' - remaining q).
  replace (a +:+ s') with (a +:+ take n s' +:+ drop n s')
    by now rewrite take_drop.
  apply includes_append.
Qed.

Lemma take_append (a b : string) : take (String.length a) (a +:+ b) = a.
Proof.
  induction a as [|c a IH]; simpl; [now rewrite ?take_0|]. now rewrite IH.
Qed.

(** ** File references *)

Lemma fold_lower (x c : ascii) :
  Ascii.eqb (foldAscii x) c = true -> Nat.ltb (nat_of_ascii c) 128 = true ->
  lowerUnit x = c.
Proof.
  intros He. apply Ascii.eqb_eq in He. subst c.
  destruct x as [[] [] [] [] [] [] [] []]; vm_compute; intros;
    try reflexivity; discriminate.
Qed.

Ltac split_tests :=
  repeat match goal with
         | |- context [if (foldAscii ?c =? ?x)%char then _ else _] =>
             let E := fresh "E" in
             destruct (foldAscii c =? x)%char eqn:E;
             [apply fold_lower in E; [|reflexivity]|]
         end.

Ltac lowered :=
  simpl toLowerCase;
  repeat match goal with E : lowerUnit _ = _ |- _ => rewrite E; clear E end;
  set_solver.

(** The alternatives are tried in their order, so that the extensions
    found are [ts], [js], [css] and [py]: [tsx] ends as [ts], and [jsx]
    and [json] end as [js]. *)
Lemma extension_found (prev : option ascii) (s : string) (q : pos) :
  run (oneOf (map litI extensions)) (prev, s) Some = Some q ->
  exists ext, s = ext +:+ q.2 /\ toLowerCase ext ∈ ["ts"; "js"; "css"; "py"].
Proof.
  destruct s as [|c1 [|c2 [|c3 [|c4 s]]]];
    cbn -[foldAscii Ascii.eqb]; split_tests; try discriminate;
    intros [= <-]; cbn [snd].
  all: try (exists (String c1 (String c2 "")); split; [reflexivity|]; lowered).
  all: exists (String c1 (String c2 (String c3 ""))); split; [reflexivity|]; lowered.
Qed.

Lemma star_cls_result (f : ascii -> bool) (k : pos -> option pos) (fuel : nat) :
  forall prev s q,
    starLoop (run (Cls f)) k fuel (prev, s) = Some q ->
    exists prev' a s', s = a +:+ s' /\ k (prev', s') = Some q.
Proof.
  induction fuel as [|fuel IH]; intros prev s q Hq.
  - now exists prev, "", s.
  - rewrite starLoop_step in Hq. destruct s as [|c s]; [now exists prev, "", ""|].
    rewrite run_cls in Hq.
    assert (Hstay : k (prev, String c s) = Some q ->
              exists prev' a s', String c s = a +:+ s' /\ k (prev', s') = Some q)
      by (intros Hk; now exists prev, "", (String c s)).
    destruct (f c); [|exact (Hstay Hq)].
    destruct (Nat.ltb _ _); [|exact (Hstay Hq)].
    destruct (starLoop (run (Cls f)) k fuel (Some c, s)) as [q'|] eqn:Hs;
      [|exact (Hstay Hq)].
    injection Hq as <-.
    destruct (IH _ _ _ Hs) as (p' & a & s' & -> & Hk).
    now exists p', (String c a), s'.
Qed.

Lemma fileRef_found (prev : option ascii) (s : string) (q : pos) :
  run fileRefsRegex (prev, s) Some = Some q ->
  exists stem ext,
    s = stem +:+ "." +:+ ext +:+ q.2
    /\ stem <> ""
    /\ toLowerCase ext ∈ ["ts"; "js"; "css"; "py"].
Proof.
  intros Hq.
  change (run fileRefsRegex (prev, s) Some)
    with (run (Cls isNameUnit) (prev, s)
            (fun p => starLoop (run (Cls isNameUnit))
                        (fun p2 => run (chr ".") p2
                                     (fun p3 => run (oneOf (map litI extensions)) p3 Some))
                        (S (remaining p)) p)) in Hq.
  destruct s as [|c s]; [discriminate|]. rewrite run_cls in Hq.
  destruct (isNameUnit c); [|discriminate].
  apply star_cls_result in Hq as (p' & a & s' & -> & Hk).
  destruct s' as [|d s3]; [discriminate|].
  unfold chr in Hk. rewrite run_cls in Hk.
  destruct (Ascii.eqb "." d) eqn:Hd; [|discriminate].
  apply Ascii.eqb_eq in Hd. subst d.
  apply extension_found in Hk as (ext & -> & He).
  exists (String c a), ext. split; [|split; [discriminate|exact He]].
  reflexivity.
Qed.

(** X19. A file reference found in the message is a name followed by a
    dot and one of the extensions ts, js, css and py, in any case: a
    reference to a tsx, jsx or json file is cut behind ts or js. *)
Theorem file_references_end_in_short_extension (message text : string) :
  text ∈ matchAll fileRefsRegex message ->
  exists stem ext,
    text = stem +:+ "." +:+ ext
    /\ stem <> ""
    /\ toLowerCase ext ∈ ["ts"; "js"; "css"; "py"].
Proof.
  intros Hin.
  destruct (hits_origin _ _ 0 None text Hin) as (b & p & s' & q & _ & Hq & ->).
  apply fileRef_found in Hq as (stem & ext & Hs & Hn & He).
  exists stem, ext. split; [|split; assumption].
  assert (Hlen : String.length s' - remaining q
                 = String.length (stem +:+ "." +:+ ext)).
  { unfold remaining. rewrite Hs at 1. rewrite !append_length. simpl. lia. }
  rewrite Hlen. rewrite Hs at 1.
  rewrite <- (append_assoc stem "." (ext +:+ q.2)).
  rewrite <- (append_assoc (stem +:+ ".") ext q.2).
  rewrite (append_assoc stem "." ext). apply take_append.
Qed.

(** ** The elements of a set, in the order of insertion *)

Lemma setAdd_spec (seen : list string) (x : string) :
  NoDup seen ->
  NoDup (setAdd seen x) /\ forall y, y ∈ setAdd seen x <-> y ∈ seen \/ y = x.
Proof.
  intros Hn. unfold setAdd. destruct (bool_decide (x ∈ seen)) eqn:Hx.
  - apply bool_decide_eq_true in Hx. split; [assumption|].
    intros y. split; [tauto|]. now intros [?| ->].
  - apply bool_decide_eq_false in Hx. split.
    + apply NoDup_app. repeat split; [assumption| |apply NoDup_singleton].
      intros y Hy Hy'. apply list_elem_of_singleton in Hy'. now subst y.
    + intros y. rewrite elem_of_app, list_elem_of_singleton. tauto.
Qed.

Lemma fold_setAdd (xs seen : list string) :
  NoDup seen ->
  NoDup (fold_left setAdd xs seen)
  /\ forall y, y ∈ fold_left setAdd xs seen <-> y ∈ seen \/ y ∈ xs.
Proof.
  revert seen; induction xs as [|x xs IH]; intros seen Hn.
  - split; [assumption|]. intros y. rewrite elem_of_nil. tauto.
  - destruct (setAdd_spec seen x Hn) as [Hn' Hm].
    destruct (IH _ Hn') as [Hn'' Hm']. split; [assumption|].
    intros y. simpl. rewrite Hm', Hm, elem_of_cons. tauto.
Qed.

Lemma setOf_spec (xs : list string) :
  NoDup (setOf xs) /\ forall y, y ∈ setOf xs <-> y ∈ xs.
Proof.
  destruct (fold_setAdd xs [] (NoDup_nil_2)) as [Hn Hm]. split; [assumption|].
  intros y. unfold setOf. rewrite Hm, elem_of_nil. tauto.
Qed.

Lemma firstn_setOf (n : nat) (xs : list string) :
  length (firstn n (setOf xs)) <= n
  /\ NoDup (firstn n (setOf xs))
  /\ forall y, y ∈ firstn n (setOf xs) -> y ∈ xs.
Proof.
  destruct (setOf_spec xs) as [Hn Hm]. split; [apply firstn_le_length|].
  split.
  - eapply sublist_NoDup; [exact Hn|apply sublist_take].
  - intros y Hy. apply Hm. apply elem_of_take in Hy as (i & Hi & _).
    eapply list_elem_of_lookup_2; eauto.
Qed.

(** X18. At most three keywords are extracted; they are distinct, and each
    of them is a piece of the message. *)
Theorem extractKeywords_bounds (message : string) :
  length (extractKeywords message) <= 3
  /\ NoDup (extractKeywords message)
  /\ forall k, k ∈ extractKeywords message -> includes k message = true.
Proof.
  unfold extractKeywords.
  destruct (firstn_setOf 3 (matchAll codeTermsRegex message
                            ++ matchAll fileRefsRegex message
                            ++ matchAll camelCaseRegex message))
    as (Hl & Hn & Hm).
  repeat split; [assumption..|]. intros k Hk. specialize (Hm k Hk).
  rewrite !elem_of_app in Hm.
  destruct Hm as [Hm|[Hm|Hm]]; eapply matchAll_included; eauto.
Qed.

(** ** Seed files *)

Section Remote.
Context {W : Type} `{Octokit W}.
Variables (owner repo : string).

Lemma searchAll_returns (keywords : list string) (w : W) :
  exists results w', searchAll owner repo keywords w = (Return results, w').
Proof.
  revert w; induction keywords as [|k rest IH]; intros w; [now exists [], w|].
  simpl. unfold bind, tryCatch, ret.
  destruct (GitHub.searchFiles owner repo k w) as [[paths|e] w1];
    destruct (IH w1) as (results & w2 & ->); eauto.
Qed.

(** X20. The search for seed files never throws: it yields at most five
    distinct paths, and for a message without keywords it yields none and
    leaves the remote world as it was. *)
Theorem findRelevantFiles_bounds (message : string) (w : W) :
  exists paths w',
    findRelevantFiles owner repo message w = (Return paths, w')
    /\ length paths <= 5
    /\ NoDup paths
    /\ (extractKeywords message = [] -> paths = [] /\ w' = w).
Proof.
  unfold findRelevantFiles.
  destruct (extractKeywords message) as [|k rest] eqn:Hk.
  - exists [], w. simpl. repeat split; [lia|constructor].
  - cbn [length Nat.eqb]. unfold bind, ret.
    destruct (searchAll_returns (k :: rest) w) as (results & w' & ->).
    destruct (firstn_setOf 5 (concat results)) as (Hl & Hn & _).
    eexists _, w'. repeat split; [assumption..| |]; discriminate.
Qed.

Lemma fetchAll_returns (paths : list string) (branch : string) (w : W) :
  exists files w',
    fetchAll paths branch w = (Return files, w')
    /\ fetched branch w paths (omap id files) w'.
Proof.
  revert w; induction paths as [|p rest IH]; intros w.
  - exists [], w. split; [reflexivity|constructor].
  - cbn [fetchAll]. unfold bind at 1, tryCatch. unfold bind at 1.
    destruct (GitHub.getFileContent p branch w) as [[file|e] w1] eqn:Hf;
      unfold ret at 1; unfold bind;
      destruct (IH w1) as (files & w2 & -> & Hrest);
      eexists _, w2; (split; [reflexivity|]); simpl.
    + eapply fetched_file; eassumption.
    + eapply fetched_none; eassumption.
Qed.

Lemma fetched_sublist (branch : string) (w w' : W) paths files :
  fetched branch w paths files w' -> map path files `sublist_of` paths.
Proof.
  induction 1 as [w|w p file w1 paths files w2 Hf _ IH|w p e w1 paths files w2 _ _ IH].
  - constructor.
  - simpl. unfold GitHub.getFileContent, bind, ret, throw in Hf.
    destruct (repos_getContent p branch w) as [[[text blob|]|e] w0];
      try discriminate.
    injection Hf as <- _. now apply sublist_skip.
  - now apply sublist_cons.
Qed.

Lemma fetched_stable (branch : string) (w w' : W) paths files :
  (forall p w0, (repos_getContent p branch w0).2 = w0) ->
  fetched branch w paths files w' ->
  w' = w /\ files = omap (fileAt branch w) paths.
Proof.
  intros Hro.
  assert (Hkeep : forall p w0 r w1,
             GitHub.getFileContent p branch w0 = (r, w1) -> w1 = w0).
  { intros p w0 r w1 Hf. unfold GitHub.getFileContent, bind, ret, throw in Hf.
    specialize (Hro p w0).
    destruct (repos_getContent p branch w0) as [[[text blob|]|e] w2];
      cbn in Hro; subst w2; now injection Hf as _ <-. }
  induction 1 as [w|w p file w1 paths files w2 Hf _ IH|w p e w1 paths files w2 Hf _ IH].
  - now split.
  - pose proof (Hkeep _ _ _ _ Hf) as ->. destruct IH as [-> ->].
    split; [reflexivity|]. simpl. unfold fileAt at 2. now rewrite Hf.
  - pose proof (Hkeep _ _ _ _ Hf) as ->. destruct IH as [-> ->].
    split; [reflexivity|]. simpl. unfold fileAt at 2. now rewrite Hf.
Qed.

(** X13. [getFiles] never throws. The paths are fetched in their order; the
    result holds the file of every fetch that returns, with the content
    and the hash that were fetched and under the requested path, and
    nothing for a fetch that throws. Where fetching leaves the remote
    world as it is, the result is exactly the files that the paths give in
    that world, in the order of the paths. *)
Theorem getFiles_in_order (paths : list string) (branch : string) (w : W) :
  exists files w',
    getFiles paths branch w = (Return files, w')
    /\ fetched branch w paths files w'
    /\ map path files `sublist_of` paths
    /\ ((forall p w0, (repos_getContent p branch w0).2 = w0) ->
        w' = w /\ files = omap (fileAt branch w) paths).
Proof.
  unfold getFiles, bind, ret.
  destruct (fetchAll_returns paths branch w) as (files & w' & -> & Hf).
  exists (omap id files), w'. split; [reflexivity|]. split; [exact Hf|].
  split; [exact (fetched_sublist _ _ _ _ _ Hf)|].
  intros Hro. exact (fetched_stable _ _ _ _ _ Hro Hf).
Qed.

End Remote.

(** ** The code context *)




End SeedFacts.

(** * The properties on concrete inputs *)

Module Instances.
Import JsString Claude ChatRoute Loader Examples MoreExamples.


(** X16 on the turn of two rounds. *)
Lemma tracker_covers_turn_witness :
  tokensUsed (tr_costTracker twoRoundsBody) = tr_tokensUsed twoRoundsBody
  /\ dailyCost (tr_costTracker twoRoundsBody)
     = sessionCost (tr_costTracker twoRoundsBody)
  /\ monthlyCost (tr_costTracker twoRoundsBody)
     = sessionCost (tr_costTracker twoRoundsBody)
  /\ costTracker (client twoRoundsOutcome.2) = tr_costTracker twoRoundsBody.
Proof.
  apply (TurnFacts.tracker_covers_turn "o" "r" request "ctx" "main"
           worldTwoRounds twoRoundsBody twoRoundsOutcome.2).
  vm_compute. reflexivity.
Defined.

(** X2 on a reference that climbs above the root. *)
Lemma resolved_is_normal_witness :
  Imports.resolveImportPath "../../x" "a/b.ts" = ""
  \/ Forall properSegment
       (split "/" (Imports.resolveImportPath "../../x" "a/b.ts")).
Proof.
  apply (ResolveFacts.resolved_is_normal "../../x" "a/b.ts"). reflexivity.
Defined.

(** X3 on the file a.ts of the directory src/lib. *)
Lemma resolved_against_directory_witness :
  Imports.resolveImportPath "./../util/x" "src/lib/a.ts" = "src/util/x"
  /\ Imports.resolveImportPath "./pricing" "src/lib/a.ts" = "src/lib/pricing"
  /\ Imports.resolveImportPath "../pricing" "src/lib/a.ts" = "src/pricing".
Proof.
  assert (Hproper : forall s, s <> "" -> s <> "." -> s <> ".." ->
                      slashFree s = true -> properSegment s)
    by (intros s H1 H2 H3 H4; repeat split; assumption).
  destruct (ResolveFacts.resolved_against_directory "./../util/x" "a.ts"
              "pricing" ["src"; "lib"]) as (Hany & Hdot & Hup).
  - discriminate.
  - repeat constructor; apply Hproper; (discriminate || reflexivity).
  - reflexivity.
  - apply Hproper; (discriminate || reflexivity).
  - split; [exact (Hany eq_refl)|]. split; [exact Hdot|exact Hup].
Defined.

(** X6 on the chain, from the fetch of the seed to the end. *)
Lemma run_only_grows_witness :
  (exists more, files chainEnd = files chainMiddle ++ more)
  /\ loaded chainMiddle ⊆ loaded chainEnd
  /\ (exists more, requested chainEnd = requested chainMiddle ++ more).
Proof.
  apply (LoaderClosure.run_only_grows "main" 2 chainMiddle chainEnd).
  apply (LoaderFacts.runInOrder_steps "main" 2 9). vm_compute. reflexivity.
Defined.

(** X7 on the chain: after the seed has been recorded, it is not
    requested again. *)
Lemma recorded_path_not_refetched_witness :
  exists more,
    requested chainEnd = requested chainMiddle ++ more
    /\ forall p f, p ∈ more -> f ∈ files chainMiddle -> path f <> p.
Proof.
  apply (LoaderClosure.recorded_path_not_refetched "main" 2 ["/a.ts"]
           worldChain chainMiddle chainEnd).
  - apply (LoaderFacts.runSchedule_steps "main" 2 [0]). vm_compute. reflexivity.
  - apply (LoaderFacts.runInOrder_steps "main" 2 9). vm_compute. reflexivity.
Defined.


(** X26 on a name that is tidy. *)
Lemma tidy_name_unchanged_witness :
  BranchRoute.sanitize "fix-login-2" = "fix-login-2".
Proof.
  apply (NameFacts.tidy_name_unchanged "fix-login-2"). reflexivity.
Defined.

(** X29 on a request for a branch with capitals, a slash and blanks, made
    from main, which is at the commit c0ffee. *)
Lemma created_branch_is_tidy_witness :
  exists t o r name commit w1,
    BranchRoute.truthy (BranchRoute.pb_token loginRequest) = Some t
    /\ BranchRoute.truthy (BranchRoute.pb_owner loginRequest) = Some o
    /\ BranchRoute.truthy (BranchRoute.pb_repo loginRequest) = Some r
    /\ BranchRoute.truthy (BranchRoute.branchName loginRequest) = Some name
    /\ BranchRoute.git_getRef
         {| BranchRoute.token := t; BranchRoute.owner := o;
            BranchRoute.repo := r |}
         ("heads/" +:+ BranchRoute.orDefault "main"
                         (BranchRoute.fromBranch loginRequest))
         MemRefs.repository
       = (Return commit, w1)
    /\ BranchRoute.git_createRef
         {| BranchRoute.token := t; BranchRoute.owner := o;
            BranchRoute.repo := r |}
         ("refs/heads/" +:+ BranchRoute.sanitize name) commit w1
       = (Return tt, loginOutcome.2)
    /\ BranchRoute.body loginReply
       = BranchRoute.BranchBody
           {| BranchRoute.br_name := BranchRoute.sanitize name;
              BranchRoute.br_sha := commit;
              BranchRoute.br_isDefault := false |}
    /\ BranchRoute.tidy (BranchRoute.sanitize name) = true.
Proof.
  apply (BranchFacts.created_branch_is_tidy loginRequest MemRefs.repository
           loginOutcome.2 loginReply).
  - reflexivity.
  - vm_compute. reflexivity.
  - reflexivity.
Defined.

(** X30 on a request for a branch named by three exclamation marks. *)
Lemma create_with_symbols_only_witness :
  BranchRoute.POST (Return symbolsRequest) MemRefs.repository =
    BranchRoute.guarded
      (commit <- BranchRoute.git_getRef shop
                   ("heads/" +:+ BranchRoute.orDefault "main"
                                   (BranchRoute.fromBranch symbolsRequest)) ;;
       BranchRoute.git_createRef shop "refs/heads/" commit ;;;
       ret (BranchRoute.json
              (BranchRoute.BranchBody
                 {| BranchRoute.br_name := ""; BranchRoute.br_sha := commit;
                    BranchRoute.br_isDefault := false |})))%js
      MemRefs.repository.
Proof.
  apply (BranchFacts.create_with_symbols_only symbolsRequest "t0k" "acme" "shop"
           "!!!" MemRefs.repository); reflexivity.
Defined.

(** X19 on a message that names a tsx file. *)
Lemma file_references_end_in_short_extension_witness :
  exists stem ext,
    "App.ts" = stem +:+ "." +:+ ext
    /\ stem <> ""
    /\ Re.toLowerCase ext ∈ ["ts"; "js"; "css"; "py"].
Proof.
  apply (SeedFacts.file_references_end_in_short_extension "open App.tsx" "App.ts").
  vm_compute. apply list_elem_of_here.
Defined.

(** X10: the refusal of an edit on h.ts, where ab occurs twice. *)
Lemma edit_refused_without_write_witness :
  GitHub.applyStrReplace "h.ts" "ab" "X" "main" worldEdit =
    (Return
       (failed
          (if Nat.eqb (nonOverlappingCount "ab" (content fileH)) 0
           then GitHub.notFoundError "h.ts"
           else GitHub.ambiguousError
                  (Z.of_nat (nonOverlappingCount "ab" (content fileH))) "h.ts")),
     worldEdit).
Proof.
  apply (EditMore.edit_refused_without_write "h.ts" "ab" "X" "main"
           worldEdit worldEdit fileH).
  - vm_compute. reflexivity.
  - discriminate.
  - vm_compute. discriminate.
Defined.

(** X9: the edit of h.ts at its one c. *)
Lemma applyStrReplace_unique_literal_witness :
  exists before after,
    content fileH = before +:+ "c" +:+ after
    /\ (forall j, j < String.length before ->
                  String.prefix "c" (drop j (content fileH)) = false)
    /\ GitHub.applyStrReplace "h.ts" "c" "X" "main" worldEdit =
         match repos_createOrUpdateFileContents
                 {| wr_path := "h.ts"; wr_message := "Edit " +:+ "h.ts";
                    wr_content := before +:+ "X" +:+ after;
                    wr_branch := "main"; wr_sha := Some (sha fileH) |}
                 worldEdit with
         | (Return _, w2) => (Return succeeded, w2)
         | (Throw e, w2) => (Return (failed e), w2)
         end.
Proof.
  apply (EditFacts.applyStrReplace_unique_literal "h.ts" "c" "X" "main"
           worldEdit worldEdit fileH).
  - vm_compute. reflexivity.
  - discriminate.
  - vm_compute. reflexivity.
  - reflexivity.
Defined.

(** X11: the empty search text on h.ts, of five code units. *)
Lemma applyStrReplace_nil_long_witness :
  GitHub.applyStrReplace "h.ts" "" "X" "main" worldEdit =
    (Return (failed (GitHub.ambiguousError
                       (Z.of_nat (String.length (content fileH)) - 1) "h.ts")),
     worldEdit).
Proof.
  apply (EditFacts.applyStrReplace_nil_long "h.ts" "X" "main"
           worldEdit worldEdit fileH).
  - vm_compute. reflexivity.
  - vm_compute. lia.
Defined.

(** X12: the empty search text on g.ts, of two code units. *)
Lemma applyStrReplace_nil_short_witness :
  GitHub.applyStrReplace "g.ts" "" "X" "main" worldEdit =
    match repos_createOrUpdateFileContents
            {| wr_path := "g.ts"; wr_message := "Edit " +:+ "g.ts";
               wr_content := "X" +:+ content fileG;
               wr_branch := "main"; wr_sha := Some (sha fileG) |} worldEdit with
    | (Return _, w2) => (Return succeeded, w2)
    | (Throw e, w2) => (Return (failed e), w2)
    end.
Proof.
  apply (EditFacts.applyStrReplace_nil_short "g.ts" "X" "main"
           worldEdit worldEdit fileG).
  - vm_compute. reflexivity.
  - vm_compute. lia.
  - reflexivity.
Defined.

(** X5: the depth bound on the chain, with the bound 2. *)
Lemma depth_bounded_witness :
  Forall (fun c => c.2 <= 2) (calls chainEnd).
Proof.
  apply (LoaderFacts.depth_bounded "main" 2 ["/a.ts"] worldChain chainEnd).
  apply (LoaderFacts.runInOrder_steps "main" 2 9). vm_compute. reflexivity.
Defined.

(** X13 on three paths of the repository of the edits, the second of
    which does not exist: reading leaves that repository as it is, and
    the files of the first and the third path are returned, in this
    order. *)
Lemma getFiles_in_order_witness :
  Seeds.getFiles ["g.ts"; "nope.ts"; "h.ts"] "main" worldEdit
  = (Return [fileG; fileH], worldEdit).
Proof.
  destruct (SeedFacts.getFiles_in_order ["g.ts"; "nope.ts"; "h.ts"] "main"
              worldEdit) as (files & w' & Hget & _ & _ & Hstable).
  destruct Hstable as [-> ->].
  - intros p w0. cbn. unfold Mem.getContent.
    now destruct (Mem.store w0 !! p) as [[text blob]|].
  - rewrite Hget. vm_compute. reflexivity.
Defined.

End Instances.
